(** * The configurator store: customization state, locked groups, randomizer

    A shallow embedding of the zustand store of the character configurator
    (the store module with [lockedGroups], i.e. the one that defines
    [applyLockedAssets]), of the components that call it, and the properties
    of its operations.

    Modelling conventions.
    - Records fetched from the backend are plain records.  The object
      [customization], whose iteration order is observable ([Object.values],
      [Object.keys]), is the ordered list of its own properties, in the
      property order of ECMAScript (array-index keys first, in ascending
      order, then the other keys in creation order), together with its
      prototype: an assignment to the key "__proto__" replaces the prototype
      instead of creating a property.  The object [lockedGroups], which is
      only read by key, is the finite map of its own properties.  Both are
      created by [{}], so a read of a key that is not an own property finds
      the members of [Object.prototype].
    - Reading a property that does not exist yields [undefined]; the model
      keeps the value that a read returns, so an absent [asset] property and
      one holding [undefined] are the same slot.  An entry of
      [customization] is modelled by its [asset] and [color]; no code reads
      another property of an entry.
    - A store action maps a store to the store it leaves behind together
      with its completion: [Normal], or [ThrowTypeError] when the action
      dereferences [undefined] or calls what is no function.  What was [set]
      before the throw stays.
    - [Math.random()] is a stream of binary64 numbers of [[0, 1)]; [randInt]
      is the function of three's MathUtils,
      [low + Math.floor(Math.random() * (high - low + 1))], with the product
      rounded as binary64 arithmetic rounds it.
    - three's [Color.set] is outside the repository: which style strings it
      recognises is a parameter, the class [Three].
    - The presentational fields [mode] and [pose] of the store are kept in a
      record of their own; [download] is left out. *)

From stdpp Require Import base option list strings gmap fin_maps.
From Stdlib Require Import Ascii ZArith QArith Qround Lia.

Local Open Scope string_scope.
Local Open Scope list_scope.
Local Open Scope Z_scope.

(** ** Values *)

(** A color as the store holds it: a style string, or [undefined]. *)
Inductive JSColor :=
| ColorUndefined
| ColorString (s : string).

(** An entry of a suppression list: [{ name, categoryName }]. *)
Record LockEntry := {
  lock_name : string;
  lock_categoryName : string;
}.

Module Asset.
(** A record of the collection CustomizationAssets. [lockedGroups] is
    [None] when the field is missing. *)
Record t := {
  id : string;
  group : string;
  name : string;
  thumbnail : string;
  url : string;
  lockedGroups : option (list string);
}.
End Asset.

(** The [asset] slot of a customization entry. *)
Inductive AssetRef :=
| AssetUndefined
| AssetNull
| AssetObj (a : Asset.t).

Module Category.
(** A record of the collection CustomizationGroups. [colors] stands for
    [category.expand?.colorPalette?.colors]: [None] when any link of the
    chain is missing. [startingAsset] is an id, empty when unset.
    [assets] is the field that [fetchCategories] attaches. *)
Record t := {
  id : string;
  name : string;
  position : Z;
  removable : bool;
  startingAsset : string;
  colors : option (list string);
  assets : list Asset.t;
}.

Definition with_assets (c : t) (l : list Asset.t) : t :=
  {| id := id c; name := name c; position := position c;
     removable := removable c; startingAsset := startingAsset c;
     colors := colors c; assets := l |}.
End Category.

(** One entry of [customization]: [{ asset, color }]. *)
Record Selection := {
  asset : AssetRef;
  color : JSColor;
}.

Definition with_asset (sel : Selection) (a : AssetRef) : Selection :=
  {| asset := a; color := color sel |}.

Definition with_color (sel : Selection) (c : JSColor) : Selection :=
  {| asset := asset sel; color := c |}.

(** [{...undefined}] is the empty object: both slots read [undefined]. *)
Definition empty_selection : Selection :=
  {| asset := AssetUndefined; color := ColorUndefined |}.

#[global] Instance JSColor_eq_dec : EqDecision JSColor.
Proof. solve_decision. Defined.
#[global] Instance LockEntry_eq_dec : EqDecision LockEntry.
Proof. solve_decision. Defined.
#[global] Instance Asset_eq_dec : EqDecision Asset.t.
Proof. solve_decision. Defined.
#[global] Instance AssetRef_eq_dec : EqDecision AssetRef.
Proof. solve_decision. Defined.
#[global] Instance Selection_eq_dec : EqDecision Selection.
Proof. solve_decision. Defined.
#[global] Instance Category_eq_dec : EqDecision Category.t.
Proof. solve_decision. Defined.

(** JavaScript truthiness of a string. *)
Definition truthy (x : string) : bool := negb (bool_decide (x = "")).

(** ** JavaScript objects with observable property order *)

Module JSObj.
Section Obj.
Context {V : Type}.

(** The own enumerable properties of an object, in property order. *)
Definition t := list (string * V).

Definition digit_of (a : ascii) : option N :=
  let n := N_of_ascii a in
  if ((48 <=? n) && (n <=? 57))%N then Some (n - 48)%N else None.

Fixpoint digits_value (acc : N) (s : string) : option N :=
  match s with
  | EmptyString => Some acc
  | String a s' =>
      match digit_of a with
      | Some d => digits_value (10 * acc + d)%N s'
      | None => None
      end
  end.

(** A canonical array index: decimal, no leading zero, below 2^32 - 1. *)
Definition array_index (k : string) : option N :=
  match k with
  | EmptyString => None
  | String a rest =>
      if decide (a = "0"%char)
      then (if decide (rest = EmptyString) then Some 0%N else None)
      else match digits_value 0 k with
           | Some n => if (n <? 4294967295)%N then Some n else None
           | None => None
           end
  end.

(** Does the existing key [k'] stay in front of the new key [k]? *)
Definition key_precedes (k' k : string) : bool :=
  match array_index k', array_index k with
  | Some i', Some i => (i' <? i)%N
  | Some _, None => true
  | None, Some _ => false
  | None, None => true
  end.

(** The own property [k], if there is one. *)
Definition get (k : string) (o : t) : option V :=
  snd <$> List.find (fun p => bool_decide (fst p = k)) o.

Definition has (k : string) (o : t) : bool :=
  bool_decide (is_Some (get k o)).

(** [Object.keys] *)
Definition keys (o : t) : list string := map fst o.

(** [Object.values] *)
Definition values (o : t) : list V := map snd o.

Fixpoint replace (k : string) (v : V) (o : t) : t :=
  match o with
  | [] => []
  | (k', v') :: o' =>
      if decide (k' = k) then (k, v) :: o' else (k', v') :: replace k v o'
  end.

Fixpoint add (k : string) (v : V) (o : t) : t :=
  match o with
  | [] => [(k, v)]
  | (k', v') :: o' =>
      if key_precedes k' k then (k', v') :: add k v o' else (k, v) :: o
  end.

(** Defining the own property [k]: what [{...o, [k]: v}] does after it
    has copied [o] in its own order, for every key, and what the
    assignment [o[k] = v] does for every key but "__proto__". *)
Definition set (k : string) (v : V) (o : t) : t :=
  if has k o then replace k v o else add k v o.
End Obj.
Arguments t : clear implicits.
End JSObj.

(** The names that every object created by [{}] inherits from
    [Object.prototype]: a read of such a key on an object that has no own
    property of that name yields a function (the prototype object itself
    for "__proto__"), which is truthy and is no array. *)
Definition Object_prototype_names : list string :=
  ["constructor"; "__defineGetter__"; "__defineSetter__"; "hasOwnProperty";
   "__lookupGetter__"; "__lookupSetter__"; "isPrototypeOf";
   "propertyIsEnumerable"; "toString"; "valueOf"; "__proto__"; "toLocaleString"].

Definition inherited (k : string) : bool :=
  bool_decide (k ∈ Object_prototype_names).

(** Array access [arr[i]] for an integer [i]: [None] stands for [undefined]. *)
Definition js_index {A : Type} (arr : list A) (i : Z) : option A :=
  if decide (0 <= i) then arr !! Z.to_nat i else None.

(** ** Math.random and randInt *)

(** The binary64 numbers of [[0, 1)]: [mantissa / 2^exponent] with a
    mantissa of at most 53 bits and an exponent of at most 1074. *)
Definition is_float01 (m e : Z) : bool :=
  (0 <=? m) && (m <? 2 ^ 53) && (m <? 2 ^ e) && (0 <=? e) && (e <=? 1074).

(** A value of [Math.random()]. *)
Record Float01 := {
  mantissa : Z;
  exponent : Z;
  float01_ok : is_float01 mantissa exponent = true;
}.

(** The number that the value stands for. *)
Definition float01_value (x : Float01) : Q :=
  mantissa x # Z.to_pos (2 ^ exponent x).

(** Rounding the integer [p >= 0] to 53 significant bits, to nearest with
    ties to even: the result [(q, t)] stands for [q * 2^t], where [t] is
    the number of bits dropped. *)
Definition round53 (p : Z) : Z * Z :=
  let t := Z.max 0 (Z.log2 p - 52) in
  let q := p / 2 ^ t in
  let r := p mod 2 ^ t in
  let half := 2 ^ (t - 1) in
  if (half <? r) || ((r =? half) && (0 <? t) && Z.odd q) then (q + 1, t) else (q, t).

(** [x * n] as binary64 arithmetic computes it, for an integer [n]: the
    exact product [mantissa * n / 2^exponent] rounded to 53 significant
    bits.  The result is a normal number whenever bits are dropped, and the
    lengths that the store multiplies with are far from the overflow
    threshold, so the rounding is that of 53 bits. *)
Definition b64_mul (x : Float01) (n : Z) : Q :=
  let '(q, t) := round53 (mantissa x * Z.abs n) in
  (Z.sgn n * q * 2 ^ t) # Z.to_pos (2 ^ exponent x).

(** [randInt(low, high)] of three's MathUtils at the value [random] of
    [Math.random()]: [low + Math.floor(random * (high - low + 1))]. *)
Definition randInt (low high : Z) (random : Float01) : Z :=
  low + Qfloor (b64_mul random (high - low + 1)).

(** ** three's Color *)

(** The color of the shared skin material. three's [Color] is created from
    a hexadecimal number and later [set] from style strings; [SkinStyle s]
    is the color that [Color.setStyle] derives from [s]. *)
Inductive SkinColor :=
| SkinHex (n : N)
| SkinStyle (s : string).

(** What the store needs to know of three's [Color.setStyle]: the style
    strings that it recognises (hex, rgb(), hsl() and the color names of
    the installed version). *)
Class Three := {
  setStyle_recognises : string -> bool;
}.

(** [color.set(v)]: a style string that [setStyle] recognises becomes the
    color; the color stays as it is for [undefined], for the empty string
    (no branch of [setStyle] applies to it) and for a string that
    [setStyle] does not recognise (it warns and returns). *)
Definition color_set `{Three} (c : SkinColor) (v : JSColor) : SkinColor :=
  match v with
  | ColorString s => if truthy s && setStyle_recognises s then SkinStyle s else c
  | ColorUndefined => c
  end.

(** ** The store *)

Inductive Completion :=
| Normal
| ThrowTypeError.

(** The state of the store. [customization] holds the own properties of
    the object of that name and [customization_proto] its prototype: [None]
    for [Object.prototype], which [{}] and an object literal give, and
    [Some e] for the entry [e] that an assignment to the key "__proto__"
    made the prototype. *)
Record Store := {
  categories : list Category.t;
  currentCategory : option Category.t;
  assets : list Asset.t;
  lockedGroups : gmap string (list LockEntry);
  skin : SkinColor;
  customization : JSObj.t Selection;
  customization_proto : option Selection;
}.

Definition initial_store : Store :=
  {| categories := []; currentCategory := None; assets := [];
     lockedGroups := ∅; skin := SkinHex 16107173;
     customization := []; customization_proto := None |}.

Definition set_customization (cust : JSObj.t Selection) (proto : option Selection)
    (s : Store) : Store :=
  {| categories := categories s; currentCategory := currentCategory s;
     assets := assets s; lockedGroups := lockedGroups s; skin := skin s;
     customization := cust; customization_proto := proto |}.

Definition set_lockedGroups (lg : gmap string (list LockEntry)) (s : Store) : Store :=
  {| categories := categories s; currentCategory := currentCategory s;
     assets := assets s; lockedGroups := lg; skin := skin s;
     customization := customization s; customization_proto := customization_proto s |}.

Definition set_skin (c : SkinColor) (s : Store) : Store :=
  {| categories := categories s; currentCategory := currentCategory s;
     assets := assets s; lockedGroups := lockedGroups s; skin := c;
     customization := customization s; customization_proto := customization_proto s |}.

(** [setCurrentCategory] *)
Definition setCurrentCategory (category : Category.t) (s : Store) : Store :=
  {| categories := categories s; currentCategory := Some category;
     assets := assets s; lockedGroups := lockedGroups s; skin := skin s;
     customization := customization s; customization_proto := customization_proto s |}.

(** What a read [customization[k]] yields: an entry; another value that is
    neither [undefined] nor [null], with its truthiness; or [undefined] or
    [null]. *)
Inductive CustRead :=
| ReadEntry (sel : Selection)
| ReadOther (is_truthy : bool)
| ReadNullish.

(** [customization[k]]: the own property, or what the prototype chain
    has. Under "__proto__" the prototype itself is read. A prototype that
    is an entry shows its [asset] and its [color] under these two names (an
    asset record, a string, [null] or [undefined]) before
    [Object.prototype] shows its members. *)
Definition customization_read (k : string) (s : Store) : CustRead :=
  match JSObj.get k (customization s) with
  | Some sel => ReadEntry sel
  | None =>
      match customization_proto s with
      | Some e =>
          if decide (k = "__proto__") then ReadEntry e
          else if decide (k = "asset") then
            match asset e with
            | AssetObj _ => ReadOther true
            | _ => ReadNullish
            end
          else if decide (k = "color") then
            match color e with
            | ColorString x => ReadOther (truthy x)
            | ColorUndefined => ReadNullish
            end
          else if inherited k then ReadOther true else ReadNullish
      | None => if inherited k then ReadOther true else ReadNullish
      end
  end.

(** The [asset] and [color] that the spread [{...customization[k]}]
    copies, and that [customization[k]?.asset] reads: those of an entry;
    any other value has no such own property. *)
Definition selection_at (k : string) (s : Store) : Selection :=
  match customization_read k s with
  | ReadEntry sel => sel
  | _ => empty_selection
  end.

(** ** applyLockedAssets *)

(** [categories.find((category) => category.id === group)] *)
Definition find_category (cats : list Category.t) (group : string) : option Category.t :=
  List.find (fun c => bool_decide (Category.id c = group)) cats.

(** Is [lockedGroups[k]] truthy? An own property holds an array; an
    inherited member is truthy as well. *)
Definition locked_truthy (lg : gmap string (list LockEntry)) (k : string) : bool :=
  bool_decide (is_Some (lg !! k)) || inherited k.

(** No own property of the map has a name that [Object.prototype] has. *)
Definition own_names_only (lg : gmap string (list LockEntry)) : Prop :=
  forall k, is_Some (lg !! k) -> inherited k = false.

(** The body of the inner [forEach], for one locked group of the asset [a].
    Either [find] may return [undefined], whose [.name] throws; and when
    [lockedGroups[categoryName]] is an inherited member, no array is
    created and the call of its [push] throws. *)
Definition lock_group (cats : list Category.t) (a : Asset.t)
    (lg : gmap string (list LockEntry)) (group : string)
    : option (gmap string (list LockEntry)) :=
  match find_category cats group with
  | None => None
  | Some c =>
      let categoryName := Category.name c in
      let lg1 := if locked_truthy lg categoryName then lg
                 else <[categoryName := []]> lg in
      match find_category cats (Asset.group a) with
      | None => None
      | Some owner =>
          let entry := {| lock_name := Asset.name a;
                          lock_categoryName := Category.name owner |} in
          match lg1 !! categoryName with
          | Some l => Some (<[categoryName := l ++ [entry]]> lg1)
          | None => None
          end
      end
  end.

(** [forEach] whose body can throw: the first throw ends the loop. *)
Fixpoint forEach_throw {A S : Type} (f : S -> A -> option S) (l : list A) (st : S) : option S :=
  match l with
  | [] => Some st
  | x :: l' =>
      match f st x with
      | None => None
      | Some st' => forEach_throw f l' st'
      end
  end.

(** The body of the outer [forEach], for one entry of [customization]. *)
Definition lock_selection (cats : list Category.t)
    (lg : gmap string (list LockEntry)) (category : Selection)
    : option (gmap string (list LockEntry)) :=
  match asset category with
  | AssetObj a =>
      match Asset.lockedGroups a with
      | Some groups => forEach_throw (lock_group cats a) groups lg
      | None => Some lg
      end
  | _ => Some lg
  end.

(** The map that [applyLockedAssets] builds, [None] when it throws. *)
Definition compute_lockedGroups (cats : list Category.t) (cust : JSObj.t Selection)
    : option (gmap string (list LockEntry)) :=
  forEach_throw (lock_selection cats) (JSObj.values cust) ∅.

Definition applyLockedAssets (s : Store) : Store * Completion :=
  match compute_lockedGroups (categories s) (customization s) with
  | Some lg => (set_lockedGroups lg s, Normal)
  | None => (s, ThrowTypeError)
  end.

(** ** updateSkin, updateColor, changeAsset *)

(** [updateSkin(color)]: [get().skin.color.set(color)] *)
Definition updateSkin `{Three} (v : JSColor) (s : Store) : Store :=
  set_skin (color_set (skin s) v) s.

(** [updateColor(color)]: acts on [state.currentCategory]; the new
    [customization] is an object literal, whose prototype is
    [Object.prototype]. *)
Definition updateColor `{Three} (v : JSColor) (s : Store) : Store * Completion :=
  match currentCategory s with
  | None => (s, ThrowTypeError)
  | Some cur =>
      let k := Category.name cur in
      let s1 :=
        set_customization
          (JSObj.set k (with_color (selection_at k s) v) (customization s)) None s in
      if decide (Category.name cur = "Head")
      then (updateSkin v s1, Normal)
      else (s1, Normal)
  end.

(** The [set] call of [changeAsset]: [category] is the key, a category
    name. *)
Definition changeAsset_set (category : string) (a : AssetRef) (s : Store) : Store :=
  set_customization
    (JSObj.set category (with_asset (selection_at category s) a) (customization s))
    None s.

(** [changeAsset(category, asset)] *)
Definition changeAsset (category : string) (a : AssetRef) (s : Store) : Store * Completion :=
  applyLockedAssets (changeAsset_set category a s).

(** ** fetchCategories *)

(** [category.assets = assets.filter((asset) => asset.group === category.id)] *)
Definition attach_assets (fetched_assets : list Asset.t) (category : Category.t) : Category.t :=
  Category.with_assets category
    (List.filter (fun a => bool_decide (Asset.group a = Category.id category)) fetched_assets).

(** [category.expand?.colorPalette?.colors?.[0] || ""] *)
Definition first_color (category : Category.t) : string :=
  match Category.colors category with
  | Some (c :: _) => c
  | _ => ""
  end.

(** [category.assets.find((asset) => asset.id === category.startingAsset)] *)
Definition find_starting_asset (category : Category.t) : AssetRef :=
  match List.find (fun a => bool_decide (Asset.id a = Category.startingAsset category))
          (Category.assets category) with
  | Some a => AssetObj a
  | None => AssetUndefined
  end.

(** The object [customization] while a loop builds it: its own properties
    and its prototype. *)
Definition CustObj : Type := JSObj.t Selection * option Selection.

(** The entry that [customization[k]] reads on such an object: the own
    property, or the prototype under "__proto__" when an entry was made
    the prototype. *)
Definition entry_of (k : string) (o : CustObj) : option Selection :=
  match JSObj.get k (fst o) with
  | Some sel => Some sel
  | None => if decide (k = "__proto__") then snd o else None
  end.

(** [customization[k] = v]: defines or overwrites the own property [k];
    for the key "__proto__" on an object that has no own property of that
    name, the setter of [Object.prototype] makes [v] the prototype and no
    property is created. *)
Definition assign_entry (k : string) (v : Selection) (o : CustObj) : CustObj :=
  if bool_decide (k = "__proto__") && negb (JSObj.has k (fst o))
  then (fst o, Some v)
  else (JSObj.set k v (fst o), snd o).

(** [customization[k].asset = a], on the object that [customization[k]]
    reads after [customization[k]] was assigned: the own property, or the
    prototype under "__proto__". *)
Definition assign_asset (k : string) (a : AssetRef) (o : CustObj) : CustObj :=
  match JSObj.get k (fst o) with
  | Some sel => (JSObj.set k (with_asset sel a) (fst o), snd o)
  | None =>
      if decide (k = "__proto__")
      then (fst o, (fun e => with_asset e a) <$> snd o)
      else o
  end.

(** The loop body of [fetchCategories] on [customization], for a category
    that already carries its assets. *)
Definition seed_selection (o : CustObj) (category : Category.t) : CustObj :=
  let k := Category.name category in
  let o1 :=
    assign_entry k {| asset := AssetUndefined; color := ColorString (first_color category) |} o in
  if decide (Category.startingAsset category = "")
  then o1
  else assign_asset k (find_starting_asset category) o1.

(** The [set] call of [fetchCategories], from the two record lists that the
    backend returned. *)
Definition fetchCategories_set (fetched_categories : list Category.t)
    (fetched_assets : list Asset.t) (s : Store) : Store :=
  let cats := map (attach_assets fetched_assets) fetched_categories in
  let o := foldl seed_selection ([], None) cats in
  {| categories := cats;
     currentCategory := List.head cats;
     assets := fetched_assets;
     lockedGroups := lockedGroups s;
     skin := skin s;
     customization := fst o;
     customization_proto := snd o |}.

(** [fetchCategories], once both lists have arrived. *)
Definition fetchCategories (fetched_categories : list Category.t)
    (fetched_assets : list Asset.t) (s : Store) : Store * Completion :=
  applyLockedAssets (fetchCategories_set fetched_categories fetched_assets s).

(** ** randomize *)

(** [category.assets[i]] *)
Definition asset_at (category : Category.t) (i : Z) : AssetRef :=
  match js_index (Category.assets category) i with
  | Some a => AssetObj a
  | None => AssetUndefined
  end.

(** [if (j === 0) randomAsset = null] *)
Definition removable_override (randomAsset : AssetRef) (j : Z) : AssetRef :=
  if decide (j = 0) then AssetNull else randomAsset.

(** [colors[i]] *)
Definition color_at (cs : list string) (i : Z) : JSColor :=
  match js_index cs i with
  | Some c => ColorString c
  | None => ColorUndefined
  end.

(** The asset of one category, drawing from position [n] of the stream;
    returns the next position. *)
Definition random_asset (rnd : nat -> Float01) (n : nat) (category : Category.t)
    : AssetRef * nat :=
  let len := Z.of_nat (length (Category.assets category)) in
  let randomAsset := asset_at category (randInt 0 (len - 1) (rnd n)) in
  if Category.removable category
  then (removable_override randomAsset (randInt 0 (len - 1) (rnd (S n))), S (S n))
  else (randomAsset, S n).

(** The color of one category; the index expression is only evaluated when
    the optional chain reaches [colors]. *)
Definition random_color (rnd : nat -> Float01) (n : nat) (category : Category.t)
    : JSColor * nat :=
  match Category.colors category with
  | None => (ColorUndefined, n)
  | Some cs =>
      (color_at cs (randInt 0 (Z.of_nat (length cs) - 1) (rnd n)), S n)
  end.

(** The loop body of [randomize]: the new [customization], the skin that
    [updateSkin] mutates on the way, and the stream position. *)
Definition randomize_category `{Three} (rnd : nat -> Float01)
    (st : CustObj * SkinColor * nat) (category : Category.t)
    : CustObj * SkinColor * nat :=
  let '(o, sk, n) := st in
  let '(randomAsset, n1) := random_asset rnd n category in
  let '(randomColor, n2) := random_color rnd n1 category in
  let o' :=
    assign_entry (Category.name category)
      {| asset := randomAsset; color := randomColor |} o in
  let sk' :=
    if decide (Category.name category = "Head") then color_set sk randomColor else sk in
  (o', sk', n2).

(** The loop of [randomize] over a list of categories. *)
Definition randomize_loop `{Three} (rnd : nat -> Float01) (cats : list Category.t)
    (st : CustObj * SkinColor * nat) : CustObj * SkinColor * nat :=
  foldl (randomize_category rnd) st cats.

(** The store once the loop has run and [customization] is [set]. *)
Definition randomize_set `{Three} (rnd : nat -> Float01) (s : Store) : Store :=
  let '(o, sk, _) := randomize_loop rnd (categories s) (([], None), skin s, 0%nat) in
  set_customization (fst o) (snd o) (set_skin sk s).

Definition randomize `{Three} (rnd : nat -> Float01) (s : Store) : Store * Completion :=
  applyLockedAssets (randomize_set rnd s).

(** ** The operations of the specification *)

(** [setAsset] and [setColor] as the interface issues them: the asset
    buttons call [changeAsset(currentCategory.name, asset)], and a color is
    set on the category that [setCurrentCategory] made current. *)
Definition setAsset (c : Category.t) (a : AssetRef) (s : Store) : Store * Completion :=
  changeAsset (Category.name c) a s.

Definition setColor `{Three} (c : Category.t) (v : string) (s : Store) : Store * Completion :=
  updateColor (ColorString v) (setCurrentCategory c s).

Inductive Op :=
| OpSetAsset (c : Category.t) (a : AssetRef)
| OpSetColor (c : Category.t) (v : string).

Definition op_category (o : Op) : Category.t :=
  match o with
  | OpSetAsset c _ => c
  | OpSetColor c _ => c
  end.

(** The store that an operation leaves behind, whether it completed or
    threw. *)
Definition run_op `{Three} (s : Store) (o : Op) : Store :=
  match o with
  | OpSetAsset c a => fst (setAsset c a s)
  | OpSetColor c v => fst (setColor c v s)
  end.

Definition run_ops `{Three} (ops : list Op) (s : Store) : Store := foldl run_op s ops.

(** The store after the initial load. *)
Definition load (fetched_categories : list Category.t) (fetched_assets : list Asset.t) : Store :=
  fst (fetchCategories fetched_categories fetched_assets initial_store).

(** ** The suppression map of the specification *)

(** The category that the id [g] names: the first loaded category with
    that id. *)
Definition names_category (cats : list Category.t) (g : string) (c : Category.t) : Prop :=
  exists pre post,
    cats = pre ++ c :: post /\ Category.id c = g /\
    forall c', c' ∈ pre -> Category.id c' ≠ g.

(** The same as a function. *)
Fixpoint category_of (cats : list Category.t) (g : string) : option Category.t :=
  match cats with
  | [] => None
  | c :: cats' => if decide (Category.id c = g) then Some c else category_of cats' g
  end.

(** What one locked group [g] of the asset [a] contributes: the name of the
    locked category with the entry [{assetName, ownerCategoryName}].
    Nothing is contributed under a name that [Object.prototype] has. *)
Definition lock_push (cats : list Category.t) (a : Asset.t) (g : string)
    : option (string * LockEntry) :=
  match category_of cats g, category_of cats (Asset.group a) with
  | Some c, Some owner =>
      if inherited (Category.name c) then None
      else Some (Category.name c,
                 {| lock_name := Asset.name a; lock_categoryName := Category.name owner |})
  | _, _ => None
  end.

(** What one selection contributes: one entry for each locked group of its
    asset. *)
Definition asset_locks (cats : list Category.t) (sel : Selection) : list (string * LockEntry) :=
  match asset sel with
  | AssetObj a =>
      match Asset.lockedGroups a with
      | Some groups => omap (lock_push cats a) groups
      | None => []
      end
  | _ => []
  end.

(** Appending entries to their suppression lists, one after the other. *)
Definition push_entry (lg : gmap string (list LockEntry)) (p : string * LockEntry)
    : gmap string (list LockEntry) :=
  <[fst p := default [] (lg !! fst p) ++ [snd p]]> lg.

Definition push_all (ps : list (string * LockEntry)) (lg : gmap string (list LockEntry))
    : gmap string (list LockEntry) :=
  foldl push_entry lg ps.


(** The suppression list of the category named [n]: the entries of all
    selections in iteration order, none merged. *)
Definition suppression_list (cats : list Category.t) (cust : JSObj.t Selection) (n : string)
    : list LockEntry :=
  map snd (List.filter (fun p => bool_decide (fst p = n))
             (concat (map (asset_locks cats) (JSObj.values cust)))).

(** Every locked group of the asset contributes: each id and the asset's
    own group name a loaded category, and no locked category has a name
    that [Object.prototype] has. *)
Definition asset_refs_resolve (cats : list Category.t) (a : Asset.t) : bool :=
  match Asset.lockedGroups a with
  | Some groups =>
      forallb (fun g => bool_decide (is_Some (lock_push cats a g))) groups
  | None => true
  end.

Definition selection_refs_resolve (cats : list Category.t) (sel : Selection) : bool :=
  match asset sel with
  | AssetObj a => asset_refs_resolve cats a
  | _ => true
  end.

Definition refs_resolve (cats : list Category.t) (cust : JSObj.t Selection) : bool :=
  forallb (selection_refs_resolve cats) (JSObj.values cust).

(** A locked group [g] of a selected asset [a]. *)
Definition selected_lock (cust : JSObj.t Selection) (a : Asset.t) (g : string) : Prop :=
  exists sel groups,
    sel ∈ JSObj.values cust /\ asset sel = AssetObj a /\
    Asset.lockedGroups a = Some groups /\ g ∈ groups.

(** A selected asset with a locked group such that the group, or the asset's
    own group, matches no loaded category. *)
Definition dangling (cats : list Category.t) (cust : JSObj.t Selection) : Prop :=
  exists a g,
    selected_lock cust a g /\
    ((forall c, c ∈ cats -> Category.id c ≠ g) \/
     (forall c, c ∈ cats -> Category.id c ≠ Asset.group a)).

(** A selected asset that locks a category whose name [Object.prototype]
    has. *)
Definition locks_inherited_name (cats : list Category.t) (cust : JSObj.t Selection) : Prop :=
  exists a g c,
    selected_lock cust a g /\ names_category cats g c /\
    Category.name c ∈ Object_prototype_names.

(** The same for every asset that a category offers. *)
Definition catalog_refs_resolve (cats : list Category.t) : bool :=
  forallb (fun c => forallb (asset_refs_resolve cats) (Category.assets c)) cats.

(** ** Outcomes of the random draws *)

(** The values of [randInt(low, high)]: [low .. high], and [low] alone when
    the range is empty. *)
Definition randInt_outcomes (low high : Z) : list Z :=
  seqZ low (Z.max 1 (high - low + 1)).

(** The results of the asset choice of one category, one per combination
    of indices. *)
Definition asset_outcomes (category : Category.t) : list AssetRef :=
  let len := Z.of_nat (length (Category.assets category)) in
  if Category.removable category
  then i ← randInt_outcomes 0 (len - 1);
       j ← randInt_outcomes 0 (len - 1);
       [removable_override (asset_at category i) j]
  else i ← randInt_outcomes 0 (len - 1); [asset_at category i].

Definition is_none (a : AssetRef) : bool :=
  match a with
  | AssetObj _ => false
  | _ => true
  end.

(** The probability of an event over equally likely outcomes. *)
Definition probability {A : Type} (event : A -> bool) (outcomes : list A) : Q :=
  (Z.of_nat (length (List.filter event outcomes)) # Pos.of_nat (List.length outcomes))%Q.

(** The number of draws that the loop body makes for a category: one for
    the asset, one more when the category is removable, one for the color
    when there is a palette. *)
Definition draw_count (category : Category.t) : nat :=
  ((if Category.removable category then 2 else 1)
   + (match Category.colors category with Some _ => 1 | None => 0 end))%nat.

(** The stream position at which the category after [pre] draws. *)
Definition draws_before (pre : list Category.t) : nat :=
  foldr (fun c n => (draw_count c + n)%nat) 0%nat pre.

(** The stream position of the color draw of a category that starts to draw
    at position [n]. *)
Definition color_draw (n : nat) (category : Category.t) : nat :=
  (n + (if Category.removable category then 2 else 1))%nat.

(** The selection that [randomize] computes for a category drawing from
    position [n]. *)
Definition random_selection (rnd : nat -> Float01) (n : nat) (category : Category.t) : Selection :=
  let '(randomAsset, n1) := random_asset rnd n category in
  {| asset := randomAsset; color := fst (random_color rnd n1 category) |}.

(** Two streams of draws that agree on the positions from [n] up to [m]. *)
Definition agree_between (n m : nat) (rnd rnd' : nat -> Float01) : Prop :=
  forall i, (n <= i < m)%nat -> rnd i = rnd' i.

(** ** Sample catalogs *)

Module Sample.
(** A parser that recognises the styles of the sample palettes. *)
Definition styles : Three :=
  {| setStyle_recognises :=
       fun s => bool_decide (s ∈ ["red"; "blue"; "black"; "green"; "#112233"]) |}.

(** Values of [Math.random()]: 0, the binary64 numbers that print as 0.4,
    0.3333333333333333 and 0.6666666666666666, and the largest one. *)
Definition zero : Float01 :=
  {| mantissa := 0; exponent := 0; float01_ok := eq_refl |}.
Definition two_fifths : Float01 :=
  {| mantissa := 7205759403792794; exponent := 54; float01_ok := eq_refl |}.
Definition third : Float01 :=
  {| mantissa := 6004799503160661; exponent := 54; float01_ok := eq_refl |}.
Definition two_thirds : Float01 :=
  {| mantissa := 6004799503160661; exponent := 53; float01_ok := eq_refl |}.
Definition almost_one : Float01 :=
  {| mantissa := 9007199254740991; exponent := 53; float01_ok := eq_refl |}.

Definition cap : Asset.t :=
  {| Asset.id := "a_cap"; Asset.group := "g_hat"; Asset.name := "Cap";
     Asset.thumbnail := "cap.png"; Asset.url := "cap.glb";
     Asset.lockedGroups := Some ["g_head"] |}.
Definition face : Asset.t :=
  {| Asset.id := "a_face"; Asset.group := "g_head"; Asset.name := "Face";
     Asset.thumbnail := "face.png"; Asset.url := "face.glb";
     Asset.lockedGroups := None |}.
Definition head : Category.t :=
  {| Category.id := "g_head"; Category.name := "Head"; Category.position := 1;
     Category.removable := false; Category.startingAsset := "a_face";
     Category.colors := None; Category.assets := [] |}.
Definition hat : Category.t :=
  {| Category.id := "g_hat"; Category.name := "Hat"; Category.position := 2;
     Category.removable := true; Category.startingAsset := "";
     Category.colors := Some ["red"; "blue"]; Category.assets := [] |}.

(** Head (no palette, not removable) and Hat (removable, two colors) whose
    only asset locks Head. *)
Definition loaded : Store := load [head; hat] [cap; face].
Definition loaded_head : Category.t := attach_assets [cap; face] head.
Definition loaded_hat : Category.t := attach_assets [cap; face] hat.

(** The store with the cap selected. *)
Definition with_cap : Store := fst (changeAsset "Hat" (AssetObj cap) loaded).

(** A removable category with three assets and no palette, one of which
    locks Head as the cap does, and a category without assets. *)
Definition shirt : Asset.t :=
  {| Asset.id := "a_shirt"; Asset.group := "g_top"; Asset.name := "Shirt";
     Asset.thumbnail := "shirt.png"; Asset.url := "shirt.glb";
     Asset.lockedGroups := Some [] |}.
Definition coat : Asset.t :=
  {| Asset.id := "a_coat"; Asset.group := "g_top"; Asset.name := "Coat";
     Asset.thumbnail := "coat.png"; Asset.url := "coat.glb";
     Asset.lockedGroups := None |}.
Definition vest : Asset.t :=
  {| Asset.id := "a_vest"; Asset.group := "g_top"; Asset.name := "Vest";
     Asset.thumbnail := "vest.png"; Asset.url := "vest.glb";
     Asset.lockedGroups := Some ["g_head"] |}.
Definition top : Category.t :=
  {| Category.id := "g_top"; Category.name := "Top"; Category.position := 3;
     Category.removable := true; Category.startingAsset := "a_coat";
     Category.colors := None; Category.assets := [] |}.
Definition glasses : Category.t :=
  {| Category.id := "g_glasses"; Category.name := "Glasses"; Category.position := 4;
     Category.removable := false; Category.startingAsset := "";
     Category.colors := Some ["black"]; Category.assets := [] |}.

Definition wardrobe_assets : list Asset.t := [cap; face; shirt; coat; vest].
Definition wardrobe : Store := load [head; hat; top; glasses] wardrobe_assets.
Definition wardrobe_head : Category.t := attach_assets wardrobe_assets head.
Definition wardrobe_hat : Category.t := attach_assets wardrobe_assets hat.
Definition wardrobe_top : Category.t := attach_assets wardrobe_assets top.
Definition wardrobe_glasses : Category.t := attach_assets wardrobe_assets glasses.



(** An asset that locks a group that is not loaded, and a catalog with it. *)
Definition stray : Asset.t :=
  {| Asset.id := "a_stray"; Asset.group := "g_hat"; Asset.name := "Stray";
     Asset.thumbnail := "stray.png"; Asset.url := "stray.glb";
     Asset.lockedGroups := Some ["g_missing"] |}.
Definition astray : Store := load [head; hat] [cap; stray; face].

(** A top that locks a group that is not loaded. With it selected, the
    cap is selected in the category Hat. *)
Definition rogue : Asset.t :=
  {| Asset.id := "a_rogue"; Asset.group := "g_top"; Asset.name := "Rogue";
     Asset.thumbnail := "rogue.png"; Asset.url := "rogue.glb";
     Asset.lockedGroups := Some ["g_missing"] |}.
Definition tangle : Store := load [head; hat; top] [cap; face; rogue].

(** A category whose name is a member of [Object.prototype], and a hat that
    locks it. *)
Definition badge : Category.t :=
  {| Category.id := "g_badge"; Category.name := "constructor"; Category.position := 3;
     Category.removable := true; Category.startingAsset := "";
     Category.colors := None; Category.assets := [] |}.
Definition wig : Asset.t :=
  {| Asset.id := "a_wig"; Asset.group := "g_hat"; Asset.name := "Wig";
     Asset.thumbnail := "wig.png"; Asset.url := "wig.glb";
     Asset.lockedGroups := Some ["g_badge"] |}.
Definition heirloom : Store := load [head; hat; badge] [cap; wig; face].

(** A category named "__proto__" with a palette and one asset, which locks
    Head. *)
Definition aura : Category.t :=
  {| Category.id := "g_aura"; Category.name := "__proto__"; Category.position := 2;
     Category.removable := true; Category.startingAsset := "a_halo";
     Category.colors := Some ["green"]; Category.assets := [] |}.
Definition halo : Asset.t :=
  {| Asset.id := "a_halo"; Asset.group := "g_aura"; Asset.name := "Halo";
     Asset.thumbnail := "halo.png"; Asset.url := "halo.glb";
     Asset.lockedGroups := Some ["g_head"] |}.
Definition shrine : Store := load [head; aura] [face; halo].
Definition shrine_aura : Category.t := attach_assets [face; halo] aura.

(** Two categories of the same name, the first without assets. *)
Definition bag_empty : Category.t :=
  {| Category.id := "g_bag1"; Category.name := "Bag"; Category.position := 1;
     Category.removable := false; Category.startingAsset := "";
     Category.colors := None; Category.assets := [] |}.
Definition bag_full : Category.t :=
  {| Category.id := "g_bag2"; Category.name := "Bag"; Category.position := 2;
     Category.removable := false; Category.startingAsset := "";
     Category.colors := None; Category.assets := [] |}.
Definition tote : Asset.t :=
  {| Asset.id := "a_tote"; Asset.group := "g_bag2"; Asset.name := "Tote";
     Asset.thumbnail := "tote.png"; Asset.url := "tote.glb";
     Asset.lockedGroups := None |}.
Definition luggage : Store := load [bag_empty; bag_full] [tote].
End Sample.

(** Closing a decidable goal by evaluation. *)
Ltac by_compute := apply (bool_decide_unpack _); vm_compute; exact I.

(** * The rest of the store and its callers *)

(** ** Mode and pose *)

(** [UI_MODES] and [PHOTO_POSES] *)
Definition UI_MODES_PHOTO : string := "photo".
Definition UI_MODES_CUSTOMIZE : string := "customize".

Definition PHOTO_POSES : list (string * string) :=
  [("IDLE", "Idle"); ("CHILL", "Chill"); ("COOL", "Cool"); ("PUNCH", "Punch");
   ("NINJA", "Ninja"); ("KING", "King"); ("BUSY", "Busy")].

Definition PHOTO_POSES_IDLE : string := "Idle".

(** The fields [mode] and [pose] of the store; no other action reads or
    writes them. *)
Record Presentation := {
  mode : string;
  pose : string;
}.

Definition initial_presentation : Presentation :=
  {| mode := UI_MODES_CUSTOMIZE; pose := PHOTO_POSES_IDLE |}.

(** [setMode(mode)] *)
Definition setMode (m : string) (p : Presentation) : Presentation :=
  let p1 := {| mode := m; pose := pose p |} in
  if decide (m = UI_MODES_CUSTOMIZE)
  then {| mode := mode p1; pose := PHOTO_POSES_IDLE |}
  else p1.

(** [setPose(pose)] *)
Definition setPose (x : string) (p : Presentation) : Presentation :=
  {| mode := mode p; pose := x |}.

(** ** What the avatar shows *)

(** The [Asset] elements that [Avatar] creates: one for each key of
    [customization] whose entry holds an asset with a [url], in the order
    of [Object.keys]; the element gets the key as [categoryName]. *)
Definition avatar_assets (s : Store) : list (string * Asset.t) :=
  omap (fun key =>
          match asset (selection_at key s) with
          | AssetObj a => if truthy (Asset.url a) then Some (key, a) else None
          | _ => None
          end)
       (JSObj.keys (customization s)).

(** What a call of the component [Asset] does: it throws, returns [null],
    or returns its meshes. *)
Inductive Rendered :=
| RenderThrows
| RenderNull
| RenderMeshes.

#[global] Instance Rendered_eq_dec : EqDecision Rendered.
Proof. solve_decision. Defined.

Section Rendering.
(** [pb.files.getUrl(record, filename)] of the backend's client, and
    whether the armature that [Avatar] loads has [nodes.Plane.skeleton]. *)
Variable getUrl : Asset.t -> string -> string.
Variable skeleton : bool.

(** [Asset({ url, categoryName, skeleton })]: the three validations, the
    read of [customization[categoryName].color], and the test of
    [lockedGroups[categoryName]]. Loading the model file is left out. *)
Definition Asset_render (s : Store) (url categoryName : string) : Rendered :=
  if negb (truthy url) then RenderThrows
  else if negb (truthy categoryName) then RenderThrows
  else if negb skeleton then RenderThrows
  else match customization_read categoryName s with
       | ReadNullish => RenderThrows
       | _ => if locked_truthy (lockedGroups s) categoryName then RenderNull
              else RenderMeshes
       end.

(** The elements of [Avatar] with what each renders. *)
Definition avatar_render (s : Store) : list (string * Asset.t * Rendered) :=
  map (fun p => (p, Asset_render s (getUrl (snd p) (Asset.url (snd p))) (fst p)))
      (avatar_assets s).

(** The assets whose meshes are drawn; [None] when an element throws, which
    takes the whole tree down. *)
Definition displayed (s : Store) : option (list (string * Asset.t)) :=
  if existsb (fun e => bool_decide (snd e = RenderThrows)) (avatar_render s)
  then None
  else Some (map fst (List.filter (fun e => bool_decide (snd e = RenderMeshes))
                        (avatar_render s))).
End Rendering.

(** The color that [Asset] sets on the materials named "Color_..." *)
Definition assetColor (s : Store) (categoryName : string) : JSColor :=
  color (selection_at categoryName s).

(** ** The panels of the interface *)

(** [Array.prototype.join] *)
Fixpoint join (sep : string) (l : list string) : string :=
  match l with
  | [] => ""
  | [x] => x
  | x :: l' => x +:+ sep +:+ join sep l'
  end.

(** The notice of [AssetsBox]: nothing, the text after "Asset is hidden
    by ", or a throw. *)
Inductive Notice :=
| NoNotice
| NoticeText (text : string)
| NoticeThrows.

(** [lockedGroups[currentCategory?.name] && lockedGroups[currentCategory.name].map(...).join(", ")]:
    without current category the key of the test is "undefined", and the
    read of [currentCategory.name] throws when the test passes; an
    inherited member passes the test and has no [map]. *)
Definition hidden_by (s : Store) : Notice :=
  match currentCategory s with
  | None => if locked_truthy (lockedGroups s) "undefined" then NoticeThrows else NoNotice
  | Some cur =>
      match lockedGroups s !! Category.name cur with
      | Some l =>
          NoticeText
            (join ", " (map (fun e => lock_name e +:+ " (" +:+ lock_categoryName e +:+ ")") l))
      | None => if inherited (Category.name cur) then NoticeThrows else NoNotice
      end
  end.

(** Is the button of the asset [a] marked as selected?
    [customization[currentCategory.name]?.asset?.id === asset.id] *)
Definition asset_marked (s : Store) (cur : Category.t) (a : Asset.t) : bool :=
  match asset (selection_at (Category.name cur) s) with
  | AssetObj b => bool_decide (Asset.id b = Asset.id a)
  | _ => false
  end.

(** Is the remove button marked? [!customization[currentCategory.name].asset],
    which throws when the read of [customization] is [undefined] or
    [null]. *)
Definition remove_marked (s : Store) (cur : Category.t) : option bool :=
  match customization_read (Category.name cur) s with
  | ReadEntry sel => Some (is_none (asset sel))
  | ReadOther _ => Some true
  | ReadNullish => None
  end.

(** Truthiness of [customization[k]]. *)
Definition read_truthy (r : CustRead) : bool :=
  match r with
  | ReadEntry _ => true
  | ReadOther b => b
  | ReadNullish => false
  end.

(** The store with its presentation fields. *)
Record App := {
  store : Store;
  presentation : Presentation;
}.

Definition initial_app : App :=
  {| store := initial_store; presentation := initial_presentation |}.

Definition with_store (app : App) (s : Store) : App :=
  {| store := s; presentation := presentation app |}.

(** What can happen to the mounted interface. A fetch that [AssetsBox]
    issued when it was mounted arrives with the two record lists; the model
    does not track which fetches are under way, so an arrival is possible
    at any time. The other events are clicks on buttons. A render that
    throws leaves no button behind; the model keeps the buttons, so it
    allows every run of the interface and more. *)
Inductive Event :=
| FetchDone (fetched_categories : list Category.t) (fetched_assets : list Asset.t)
| ClickCategory (category : Category.t)
| ClickRemove
| ClickAsset (a : Asset.t)
| ClickColor (v : string)
| ClickRandomize (rnd : nat -> Float01)
| ClickMode (m : string)
| ClickPose (key : string).

Section Interface.
Context `{Three}.
(** The field [colorPalette] of a category record, the id of its palette
    (empty when it has none); the record type above keeps the expanded
    palette only. *)
Variable colorPalette : Category.t -> string.

Definition customizing (app : App) : bool :=
  bool_decide (mode (presentation app) = UI_MODES_CUSTOMIZE).

(** Is the button of the event in the rendered tree? *)
Definition enabled (app : App) (e : Event) : bool :=
  let s := store app in
  match e with
  | FetchDone _ _ => true
  | ClickCategory c => customizing app && bool_decide (c ∈ categories s)
  | ClickRemove =>
      customizing app &&
      match currentCategory s with
      | Some cur => Category.removable cur
      | None => false
      end
  | ClickAsset a =>
      customizing app &&
      match currentCategory s with
      | Some cur => bool_decide (a ∈ Category.assets cur)
      | None => false
      end
  | ClickColor v =>
      customizing app &&
      match currentCategory s with
      | Some cur =>
          truthy (colorPalette cur)
          && read_truthy (customization_read (Category.name cur) s)
          && negb (is_none (asset (selection_at (Category.name cur) s)))
          && bool_decide (v ∈ default [] (Category.colors cur))
      | None => false
      end
  | ClickRandomize _ => true
  | ClickMode m => bool_decide (m = UI_MODES_CUSTOMIZE \/ m = UI_MODES_PHOTO)
  | ClickPose key =>
      bool_decide (mode (presentation app) = UI_MODES_PHOTO)
      && bool_decide (key ∈ map fst PHOTO_POSES)
  end.

(** The handler of the event; the store keeps what the handler set when
    the handler throws. The buttons that read [currentCategory.name] or
    [PHOTO_POSES[pose]] exist only when these are there. *)
Definition handle (app : App) (e : Event) : App :=
  let s := store app in
  match e with
  | FetchDone fc fa => with_store app (fst (fetchCategories fc fa s))
  | ClickCategory c => with_store app (setCurrentCategory c s)
  | ClickRemove =>
      match currentCategory s with
      | Some cur => with_store app (fst (changeAsset (Category.name cur) AssetNull s))
      | None => app
      end
  | ClickAsset a =>
      match currentCategory s with
      | Some cur => with_store app (fst (changeAsset (Category.name cur) (AssetObj a) s))
      | None => app
      end
  | ClickColor v => with_store app (fst (updateColor (ColorString v) s))
  | ClickRandomize rnd => with_store app (fst (randomize rnd s))
  | ClickMode m => {| store := s; presentation := setMode m (presentation app) |}
  | ClickPose key =>
      match List.find (fun p => bool_decide (fst p = key)) PHOTO_POSES with
      | Some p => {| store := s; presentation := setPose (snd p) (presentation app) |}
      | None => app
      end
  end.

Definition ui_step (app : App) (e : Event) : App :=
  if enabled app e then handle app e else app.

Definition ui_run (events : list Event) (app : App) : App := foldl ui_step app events.
End Interface.

(** A short session on the catalog of Head and Hat. *)
Module Session.
Definition palette_id (c : Category.t) : string :=
  match Category.colors c with
  | Some _ => "p_" +:+ Category.id c
  | None => ""
  end.

Definition cap_on : list Event :=
  [FetchDone [Sample.head; Sample.hat] [Sample.cap; Sample.face];
   ClickCategory Sample.loaded_hat;
   ClickAsset Sample.cap;
   ClickColor "blue"].

Definition cap_off : list Event := cap_on ++ [ClickRemove].

Definition posing : list Event := cap_on ++ [ClickMode "photo"; ClickPose "KING"].

(** On a catalog with a category named "__proto__": its color button. *)
Definition halo_green : list Event :=
  [FetchDone [Sample.head; Sample.aura] [Sample.face; Sample.halo];
   ClickCategory Sample.shrine_aura;
   ClickColor "green"].

(** The interface with the sample parser. *)
Definition run (events : list Event) : App :=
  @ui_run Sample.styles palette_id events initial_app.
End Session.

(** The fetches of a run bring catalogs in which every asset contributes
    all its locks: its ids name loaded categories, none of them under a
    name that [Object.prototype] has. *)
Definition fetch_resolves (e : Event) : Prop :=
  match e with
  | FetchDone fc fa => catalog_refs_resolve (map (attach_assets fa) fc) = true
  | _ => True
  end.

(** The fetches of a run bring no category named "__proto__". *)
Definition fetch_plain (e : Event) : Prop :=
  match e with
  | FetchDone fc _ => "__proto__" ∉ map Category.name fc
  | _ => True
  end.

(** An entry of [customization] under the key [k] that fits the catalog: its
    asset is offered by a category named [k]; it is [null] only if such a
    category is removable; its color is empty or in the palette of such a
    category. *)
Definition entry_ok (cats : list Category.t) (k : string) (sel : Selection) : Prop :=
  (forall a, asset sel = AssetObj a ->
     exists c, c ∈ cats /\ Category.name c = k /\ a ∈ Category.assets c) /\
  (asset sel = AssetNull ->
     exists c, c ∈ cats /\ Category.name c = k /\ Category.removable c = true) /\
  (forall x, color sel = ColorString x ->
     x = "" \/
     exists c cs, c ∈ cats /\ Category.name c = k /\ Category.colors c = Some cs /\ x ∈ cs).

(** The object [customization], own properties and prototype, fits the
    catalog. *)
Definition object_ok (cats : list Category.t) (o : CustObj) : Prop :=
  (forall k sel, (k, sel) ∈ fst o -> entry_ok cats k sel) /\
  (forall e, snd o = Some e -> entry_ok cats "__proto__" e).

(** A store that fits its catalog. *)
Definition store_ok (s : Store) : Prop :=
  NoDup (JSObj.keys (customization s)) /\
  (forall n, n ∈ JSObj.keys (customization s) ->
             exists c, c ∈ categories s /\ Category.name c = n) /\
  (forall c, c ∈ categories s -> Category.name c ≠ "__proto__" ->
             Category.name c ∈ JSObj.keys (customization s)) /\
  (forall cur, currentCategory s = Some cur -> cur ∈ categories s) /\
  (forall c a, c ∈ categories s -> a ∈ Category.assets c -> Asset.group a = Category.id c) /\
  object_ok (categories s) (customization s, customization_proto s).

(** The mode is one of the two modes, the pose one of the poses, and the
    pose is the idle one in customize mode. *)
Definition presentation_ok (p : Presentation) : Prop :=
  (mode p = UI_MODES_CUSTOMIZE \/ mode p = UI_MODES_PHOTO) /\
  (mode p = UI_MODES_CUSTOMIZE -> pose p = PHOTO_POSES_IDLE) /\
  pose p ∈ map snd PHOTO_POSES.

(** The suppression map of the store is the one of its customization, the
    assets of its catalog contribute all their locks, and no category is
    named "__proto__". *)
Definition store_sync (s : Store) : Prop :=
  catalog_refs_resolve (categories s) = true /\
  ("__proto__" ∉ map Category.name (categories s)) /\
  compute_lockedGroups (categories s) (customization s) = Some (lockedGroups s).

(** * Properties *)

(** ** Objects *)

Section JSObjFacts.
Context {V : Type}.
Implicit Types (o : JSObj.t V) (k : string) (v : V).

Lemma get_nil k : JSObj.get k ([] : JSObj.t V) = None.
Proof. reflexivity. Qed.

Lemma get_cons k k' v o :
  JSObj.get k ((k', v) :: o) = if decide (k' = k) then Some v else JSObj.get k o.
Proof.
  unfold JSObj.get. simpl. destruct (decide (k' = k)) as [->|Hne].
  - rewrite bool_decide_eq_true_2; done.
  - rewrite bool_decide_eq_false_2; done.
Qed.

Lemma get_None_keys k o : JSObj.get k o = None <-> k ∉ JSObj.keys o.
Proof.
  induction o as [|[k' v'] o IH]; simpl.
  - split; [intros _; apply not_elem_of_nil | done].
  - rewrite get_cons, not_elem_of_cons. destruct (decide (k' = k)) as [->|Hne].
    + split; [done | intros [? _]; done].
    + rewrite IH. split; [intros ?; split; [congruence | done] | intros [_ ?]; done].
Qed.

Lemma get_Some_elem k v o : JSObj.get k o = Some v -> (k, v) ∈ o.
Proof.
  induction o as [|[k' v'] o IH]; [done|].
  rewrite get_cons. destruct (decide (k' = k)) as [->|Hne].
  - intros [= ->]. apply list_elem_of_here.
  - intros H. apply list_elem_of_further, IH, H.
Qed.


Lemma has_true k o : JSObj.has k o = true <-> k ∈ JSObj.keys o.
Proof.
  unfold JSObj.has. rewrite bool_decide_eq_true.
  destruct (JSObj.get k o) as [v|] eqn:E.
  - split; [intros _ | by eauto].
    destruct (decide (k ∈ JSObj.keys o)) as [|Hn]; [done|].
    apply get_None_keys in Hn. congruence.
  - split; [intros [? ?]; done|]. intros Hin. by apply get_None_keys in E.
Qed.

Lemma has_false k o : JSObj.has k o = false <-> k ∉ JSObj.keys o.
Proof. rewrite <- has_true. destruct (JSObj.has k o); split; congruence. Qed.

Lemma keys_replace k v o : JSObj.keys (JSObj.replace k v o) = JSObj.keys o.
Proof.
  induction o as [|[k' v'] o IH]; [done|]. simpl.
  destruct (decide (k' = k)) as [->|Hne]; simpl; [done | by rewrite IH].
Qed.

Lemma get_replace_eq k v o :
  k ∈ JSObj.keys o -> JSObj.get k (JSObj.replace k v o) = Some v.
Proof.
  induction o as [|[k' v'] o IH]; simpl; intros Hin.
  - by apply elem_of_nil in Hin.
  - destruct (decide (k' = k)) as [->|Hne].
    + by rewrite get_cons, decide_True.
    + rewrite get_cons, decide_False by done. apply IH.
      apply elem_of_cons in Hin as [->|Hin]; done.
Qed.

Lemma get_replace_ne k k' v o :
  k ≠ k' -> JSObj.get k' (JSObj.replace k v o) = JSObj.get k' o.
Proof.
  intros Hne. induction o as [|[k0 v0] o IH]; [done|]. simpl.
  destruct (decide (k0 = k)) as [->|Hne0].
  - by rewrite !get_cons, !decide_False.
  - rewrite !get_cons. by rewrite IH.
Qed.

Lemma elem_keys_add k k' v o :
  k' ∈ JSObj.keys (JSObj.add k v o) <-> k' = k \/ k' ∈ JSObj.keys o.
Proof.
  induction o as [|[k0 v0] o IH]; simpl.
  - rewrite elem_of_cons. done.
  - destruct (JSObj.key_precedes k0 k); simpl.
    + rewrite !elem_of_cons, IH. tauto.
    + rewrite !elem_of_cons. tauto.
Qed.

Lemma get_add_eq k v o :
  k ∉ JSObj.keys o -> JSObj.get k (JSObj.add k v o) = Some v.
Proof.
  induction o as [|[k0 v0] o IH]; simpl; intros Hnin.
  - by rewrite get_cons, decide_True.
  - apply not_elem_of_cons in Hnin as [Hne Hnin].
    destruct (JSObj.key_precedes k0 k).
    + rewrite get_cons, decide_False by done. by apply IH.
    + by rewrite get_cons, decide_True.
Qed.

Lemma get_add_ne k k' v o :
  k ≠ k' -> JSObj.get k' (JSObj.add k v o) = JSObj.get k' o.
Proof.
  intros Hne. induction o as [|[k0 v0] o IH]; simpl.
  - by rewrite get_cons, decide_False.
  - destruct (JSObj.key_precedes k0 k).
    + rewrite !get_cons. by rewrite IH.
    + by rewrite (get_cons k' k), decide_False.
Qed.

Lemma NoDup_keys_add k v o :
  k ∉ JSObj.keys o -> NoDup (JSObj.keys o) -> NoDup (JSObj.keys (JSObj.add k v o)).
Proof.
  induction o as [|[k0 v0] o IH]; simpl; intros Hnin Hnd.
  - apply NoDup_singleton.
  - apply not_elem_of_cons in Hnin as [Hne Hnin].
    apply NoDup_cons in Hnd as [Hk0 Hnd].
    destruct (JSObj.key_precedes k0 k); simpl.
    + apply NoDup_cons. split; [|by apply IH].
      rewrite elem_keys_add. intros [->|?]; done.
    + apply NoDup_cons. split.
      * rewrite not_elem_of_cons. done.
      * apply NoDup_cons. done.
Qed.

Lemma replace_add k v v' o :
  k ∉ JSObj.keys o -> JSObj.replace k v (JSObj.add k v' o) = JSObj.add k v o.
Proof.
  induction o as [|[k0 v0] o IH]; simpl; intros Hnin.
  - by rewrite decide_True.
  - apply not_elem_of_cons in Hnin as [Hne Hnin].
    destruct (JSObj.key_precedes k0 k); simpl.
    + rewrite decide_False by done. by rewrite IH.
    + by rewrite decide_True.
Qed.

Lemma replace_replace k v v' o :
  JSObj.replace k v (JSObj.replace k v' o) = JSObj.replace k v o.
Proof.
  induction o as [|[k0 v0] o IH]; [done|]. simpl.
  destruct (decide (k0 = k)) as [->|Hne]; simpl.
  - by rewrite decide_True.
  - rewrite decide_False by done. by rewrite IH.
Qed.

(** *** [set] *)

(** Array-index keys come first, in ascending order; the other keys follow
    in creation order; an existing key keeps its place. *)
Example set_property_order :
  JSObj.keys (JSObj.set "b" 5 (JSObj.set "2" 4 (JSObj.set "a" 3
                (JSObj.set "10" 2 (JSObj.set "b" 1 (JSObj.set "01" 0 []))))))
  = ["2"; "10"; "01"; "b"; "a"].
Proof. reflexivity. Qed.

Lemma get_set_eq k v o : JSObj.get k (JSObj.set k v o) = Some v.
Proof.
  unfold JSObj.set. destruct (JSObj.has k o) eqn:E.
  - apply get_replace_eq, has_true, E.
  - apply get_add_eq, has_false, E.
Qed.

Lemma get_set_ne k k' v o : k ≠ k' -> JSObj.get k' (JSObj.set k v o) = JSObj.get k' o.
Proof.
  intros Hne. unfold JSObj.set. destruct (JSObj.has k o).
  - by apply get_replace_ne.
  - by apply get_add_ne.
Qed.

Lemma keys_set_present k v o :
  k ∈ JSObj.keys o -> JSObj.keys (JSObj.set k v o) = JSObj.keys o.
Proof.
  intros Hin. unfold JSObj.set. apply has_true in Hin. rewrite Hin. apply keys_replace.
Qed.

Lemma elem_keys_set k k' v o :
  k' ∈ JSObj.keys (JSObj.set k v o) <-> k' = k \/ k' ∈ JSObj.keys o.
Proof.
  unfold JSObj.set. destruct (JSObj.has k o) eqn:E.
  - rewrite keys_replace. apply has_true in E. split; [tauto | intros [->|?]; done].
  - apply elem_keys_add.
Qed.

Lemma NoDup_keys_set k v o :
  NoDup (JSObj.keys o) -> NoDup (JSObj.keys (JSObj.set k v o)).
Proof.
  intros Hnd. unfold JSObj.set. destruct (JSObj.has k o) eqn:E.
  - by rewrite keys_replace.
  - apply NoDup_keys_add; [by apply has_false | done].
Qed.

Lemma set_set k v v' o : JSObj.set k v (JSObj.set k v' o) = JSObj.set k v o.
Proof.
  unfold JSObj.set at 1.
  assert (JSObj.has k (JSObj.set k v' o) = true) as ->.
  { apply has_true, elem_keys_set. by left. }
  unfold JSObj.set. destruct (JSObj.has k o) eqn:E.
  - apply replace_replace.
  - apply replace_add, has_false, E.
Qed.
End JSObjFacts.

(** ** Binary64 products and randInt *)

Lemma float01_bounds (x : Float01) :
  0 <= mantissa x < 2 ^ 53 /\ mantissa x < 2 ^ exponent x /\ 0 <= exponent x <= 1074.
Proof.
  pose proof (float01_ok x) as H. unfold is_float01 in H.
  repeat (apply andb_true_iff in H as [H ?]).
  repeat match goal with
         | H : (_ <=? _) = true |- _ => apply Z.leb_le in H
         | H : (_ <? _) = true |- _ => apply Z.ltb_lt in H
         end.
  lia.
Qed.

(** The rounded integer is within half a unit of the last kept bit, and
    when [p < 2^53 * n] so few bits are dropped that this half unit is
    below [n]. *)
Lemma round53_bounds (p n : Z) :
  0 <= p -> p < 2 ^ 53 * n ->
  0 <= fst (round53 p) * 2 ^ snd (round53 p) < p + n.
Proof.
  intros Hp Hn. unfold round53.
  set (t := Z.max 0 (Z.log2 p - 52)).
  assert (Ht : 0 <= t) by lia.
  assert (Hpow : 0 < 2 ^ t) by (apply Z.pow_pos_nonneg; lia).
  pose proof (Z.div_mod p (2 ^ t) ltac:(lia)) as Hdm.
  pose proof (Z.mod_pos_bound p (2 ^ t) Hpow) as Hr.
  set (q := p / 2 ^ t) in *. set (r := p mod 2 ^ t) in *.
  assert (Hq : 0 <= q) by (apply Z.div_pos; lia).
  destruct (decide (t = 0)) as [E|E].
  - rewrite E in *. simpl in *.
    replace r with 0 in * by lia. simpl.
    assert (q = p) by lia. subst q. simpl. lia.
  - assert (Ht1 : 1 <= t) by lia.
    assert (Hlog : Z.log2 p = t + 52) by lia.
    assert (Hp0 : 0 < p).
    { destruct (decide (p = 0)) as [->|]; [simpl in Hlog; lia | lia]. }
    pose proof (Z.log2_spec p Hp0) as [Hlo _]. rewrite Hlog in Hlo.
    assert (Hsplit : 2 ^ (t + 52) = 2 ^ (t - 1) * 2 ^ 53).
    { rewrite <- Z.pow_add_r by lia. f_equal. lia. }
    assert (Hdouble : 2 ^ t = 2 * 2 ^ (t - 1)).
    { replace t with (1 + (t - 1)) at 1 by lia. rewrite Z.pow_add_r by lia. done. }
    set (half := 2 ^ (t - 1)) in *.
    assert (Hhalf : 0 < half) by (apply Z.pow_pos_nonneg; lia).
    assert (Hhn : half < n) by nia.
    destruct ((half <? r) || ((r =? half) && (0 <? t) && Z.odd q)) eqn:Eup; simpl.
    + assert (Hge : half <= r).
      { apply orb_true_iff in Eup as [H|H].
        - apply Z.ltb_lt in H. lia.
        - apply andb_true_iff in H as [H _]. apply andb_true_iff in H as [H _].
          apply Z.eqb_eq in H. lia. }
      split; nia.
    + split; nia.
Qed.

(** An integer below [2^53] is a binary64 number: nothing is rounded. *)
Lemma round53_exact (p : Z) : 0 <= p < 2 ^ 53 -> round53 p = (p, 0).
Proof.
  intros Hp. unfold round53.
  assert (Hlog : Z.log2 p - 52 <= 0).
  { destruct (decide (p = 0)) as [->|Hne]; [simpl; lia|].
    assert (Z.log2 p < 53) by (apply Z.log2_lt_pow2; lia). lia. }
  rewrite Z.max_l by lia. simpl. rewrite Z.div_1_r, Z.mod_1_r. done.
Qed.

Lemma Qfloor_eq (x : Q) (i : Z) :
  Qfloor x = i <-> (inject_Z i <= x)%Q /\ (x < inject_Z (i + 1))%Q.
Proof.
  split.
  - intros <-. split; [apply Qfloor_le | apply Qlt_floor].
  - intros [Hle Hlt].
    assert (H1 : i <= Qfloor x).
    { rewrite <- (Qfloor_Z i). by apply Qfloor_resp_le. }
    assert (H2 : Qfloor x < i + 1).
    { rewrite Zlt_Qlt. eapply Qle_lt_trans; [apply Qfloor_le | done]. }
    lia.
Qed.

(** The draw hits [i] exactly when the binary64 product [random * n] lies
    in [[i, i+1)]. *)
Lemma randInt_eq (n : Z) (x : Float01) (i : Z) :
  randInt 0 (n - 1) x = i
  <-> (inject_Z i <= b64_mul x n)%Q /\ (b64_mul x n < inject_Z (i + 1))%Q.
Proof.
  unfold randInt. replace (n - 1 - 0 + 1) with n by lia.
  rewrite Z.add_0_l. apply Qfloor_eq.
Qed.

Lemma randInt_floor (n : Z) (x : Float01) :
  0 <= n ->
  randInt 0 (n - 1) x
  = (fst (round53 (mantissa x * n)) * 2 ^ snd (round53 (mantissa x * n)))
    / 2 ^ exponent x.
Proof.
  intros Hn. unfold randInt, b64_mul. replace (n - 1 - 0 + 1) with n by lia.
  rewrite Z.abs_eq by done.
  destruct (float01_bounds x) as (_ & _ & He).
  assert (Hpow : 0 < 2 ^ exponent x) by (apply Z.pow_pos_nonneg; lia).
  destruct (round53 (mantissa x * n)) as [q t] eqn:E. cbn [fst snd].
  unfold Qfloor. rewrite Z2Pos.id by done. rewrite Z.add_0_l.
  destruct (decide (n = 0)) as [->|Hne].
  - rewrite Z.mul_0_r in E. injection E as <- <-. done.
  - rewrite Z.sgn_pos by lia. f_equal. lia.
Qed.

(** Every value of [Math.random()] gives an index of the range: the
    binary64 product never rounds up to [n]. *)
Lemma randInt_range (n : Z) (x : Float01) :
  1 <= n -> 0 <= randInt 0 (n - 1) x < n.
Proof.
  intros Hn. rewrite randInt_floor by lia.
  destruct (float01_bounds x) as (Hm & Hme & He).
  assert (Hpow : 0 < 2 ^ exponent x) by (apply Z.pow_pos_nonneg; lia).
  destruct (round53_bounds (mantissa x * n) n) as (Hlo & Hhi); [nia | nia |].
  split.
  - apply Z.div_pos; lia.
  - apply Z.div_lt_upper_bound; [done|]. nia.
Qed.

(** With an empty range the draw is [0], whatever [Math.random()] returns. *)
Lemma randInt_empty (x : Float01) : randInt 0 (0 - 1) x = 0.
Proof. rewrite (randInt_floor 0) by lia. rewrite Z.mul_0_r. done. Qed.

(** With a range of one value the draw is that value. *)
Lemma randInt_single (x : Float01) : randInt 0 (1 - 1) x = 0.
Proof. pose proof (randInt_range 1 x ltac:(lia)). lia. Qed.

(** The product is rounded as binary64 arithmetic rounds it, not computed
    exactly: three times 0.3333333333333333 is 1, and three times
    0.6666666666666666 is 2. *)
Example randInt_rounds :
  (float01_value Sample.third * 3 < 1)%Q /\ (b64_mul Sample.third 3 == 1)%Q /\
  randInt 0 2 Sample.third = 1 /\
  (float01_value Sample.two_thirds * 3 < 2)%Q /\ (b64_mul Sample.two_thirds 3 == 2)%Q /\
  randInt 0 2 Sample.two_thirds = 2 /\
  randInt 0 2 Sample.almost_one = 2.
Proof. vm_compute. repeat split. Qed.

Lemma randInt_in_outcomes (n : Z) (x : Float01) :
  0 <= n -> randInt 0 (n - 1) x ∈ randInt_outcomes 0 (n - 1).
Proof.
  intros Hn. unfold randInt_outcomes. apply elem_of_seqZ.
  destruct (decide (n = 0)) as [->|Hne].
  - rewrite randInt_empty. lia.
  - pose proof (randInt_range n x ltac:(lia)). lia.
Qed.

(** Every index of the range is drawn by some value of [Math.random()]
    (shown for ranges of fewer than [2^26] values, where a value with an
    exact product exists). *)
Lemma randInt_onto (n i : Z) :
  1 <= n < 2 ^ 26 -> 0 <= i < n -> exists x : Float01, randInt 0 (n - 1) x = i.
Proof.
  intros Hn Hi.
  set (m := (i * 2 ^ 26 + n - 1) / n).
  assert (Hlo : i * 2 ^ 26 <= m * n).
  { pose proof (Z.div_mod (i * 2 ^ 26 + n - 1) n ltac:(lia)) as Hdm.
    pose proof (Z.mod_pos_bound (i * 2 ^ 26 + n - 1) n ltac:(lia)) as Hr.
    fold m in Hdm. lia. }
  assert (Hhi : m * n <= i * 2 ^ 26 + n - 1).
  { pose proof (Z.div_mod (i * 2 ^ 26 + n - 1) n ltac:(lia)) as Hdm.
    pose proof (Z.mod_pos_bound (i * 2 ^ 26 + n - 1) n ltac:(lia)) as Hr.
    fold m in Hdm. lia. }
  assert (Hm0 : 0 <= m) by (apply Z.div_pos; lia).
  assert (Hm : m < 2 ^ 26) by nia.
  assert (Hok : is_float01 m 26 = true).
  { unfold is_float01. rewrite !andb_true_iff.
    repeat split; try (apply Z.leb_le; lia); apply Z.ltb_lt; lia. }
  exists {| mantissa := m; exponent := 26; float01_ok := Hok |}.
  rewrite randInt_floor by lia. cbn [mantissa exponent].
  rewrite round53_exact by nia. cbn [fst snd]. rewrite Z.mul_1_r.
  symmetry. apply Z.div_unique with (r := m * n - i * 2 ^ 26); lia.
Qed.

(** ** The category that an id names *)

(** [find] returns the first category with the id. *)
Lemma find_category_category_of (cats : list Category.t) (g : string) :
  find_category cats g = category_of cats g.
Proof.
  unfold find_category. induction cats as [|c cats IH]; [done|]. simpl.
  destruct (decide (Category.id c = g)) as [E|E].
  - by rewrite bool_decide_eq_true_2.
  - by rewrite bool_decide_eq_false_2.
Qed.

Lemma category_of_Some (cats : list Category.t) (g : string) (c : Category.t) :
  category_of cats g = Some c <-> names_category cats g c.
Proof.
  unfold names_category. split.
  - induction cats as [|c0 cats IH]; [done|]. simpl.
    destruct (decide (Category.id c0 = g)) as [E|E].
    + intros [= <-]. exists [], cats. split; [done|]. split; [done|].
      intros c' Hc'. by apply elem_of_nil in Hc'.
    + intros H. destruct (IH H) as (pre & post & -> & Hid & Hpre).
      exists (c0 :: pre), post. split; [done|]. split; [done|].
      intros c' Hc'. apply elem_of_cons in Hc' as [->|Hc']; [done | by apply Hpre].
  - intros (pre & post & -> & Hid & Hpre).
    induction pre as [|c0 pre IH]; simpl.
    + by rewrite decide_True.
    + rewrite decide_False by apply Hpre, list_elem_of_here.
      apply IH. intros c' Hc'. by apply Hpre, list_elem_of_further.
Qed.

Lemma category_of_None (cats : list Category.t) (g : string) :
  category_of cats g = None <-> forall c, c ∈ cats -> Category.id c ≠ g.
Proof.
  induction cats as [|c0 cats IH]; simpl.
  - split; [|done]. intros _ c Hc. by apply elem_of_nil in Hc.
  - destruct (decide (Category.id c0 = g)) as [E|E].
    + split; [done|]. intros H. exfalso.
      apply (H c0); [apply list_elem_of_here | done].
    + rewrite IH. split.
      * intros H c Hc. apply elem_of_cons in Hc as [->|Hc]; [done | by apply H].
      * intros H c Hc. by apply H, list_elem_of_further.
Qed.

Lemma category_of_elem (cats : list Category.t) (g : string) (c : Category.t) :
  category_of cats g = Some c -> c ∈ cats /\ Category.id c = g.
Proof.
  intros H. apply category_of_Some in H as (pre & post & -> & Hid & _).
  split; [|done]. apply elem_of_app. right. apply list_elem_of_here.
Qed.

Lemma names_category_unique (cats : list Category.t) (g : string) (c c' : Category.t) :
  names_category cats g c -> names_category cats g c' -> c = c'.
Proof. rewrite <- !category_of_Some. congruence. Qed.

Lemma inherited_true (k : string) : inherited k = true <-> k ∈ Object_prototype_names.
Proof. unfold inherited. apply bool_decide_eq_true. Qed.

Lemma inherited_false (k : string) : inherited k = false <-> k ∉ Object_prototype_names.
Proof. unfold inherited. apply bool_decide_eq_false. Qed.

(** ** The suppression map *)

Section LockFacts.
Variable cats : list Category.t.
Implicit Types (lg : gmap string (list LockEntry)) (a : Asset.t) (sel : Selection).

Lemma lock_push_Some a g n e :
  lock_push cats a g = Some (n, e) <->
  exists c owner,
    names_category cats g c /\ names_category cats (Asset.group a) owner /\
    inherited (Category.name c) = false /\ n = Category.name c /\
    e = {| lock_name := Asset.name a; lock_categoryName := Category.name owner |}.
Proof.
  unfold lock_push. split.
  - destruct (category_of cats g) as [c|] eqn:Ec; [|done].
    destruct (category_of cats (Asset.group a)) as [owner|] eqn:Eo; [|done].
    destruct (inherited (Category.name c)) eqn:Ei; [done|].
    intros [= <- <-]. exists c, owner. by rewrite <- !category_of_Some.
  - intros (c & owner & Hc & Ho & Hi & -> & ->).
    apply category_of_Some in Hc, Ho. by rewrite Hc, Ho, Hi.
Qed.

Lemma lock_push_None a g :
  lock_push cats a g = None <->
  (forall c, c ∈ cats -> Category.id c ≠ g) \/
  (forall c, c ∈ cats -> Category.id c ≠ Asset.group a) \/
  (exists c, names_category cats g c /\ Category.name c ∈ Object_prototype_names).
Proof.
  unfold lock_push. rewrite <- !category_of_None.
  destruct (category_of cats g) as [c|] eqn:Ec.
  - destruct (category_of cats (Asset.group a)) as [owner|] eqn:Eo.
    + destruct (inherited (Category.name c)) eqn:Ei.
      * split; [|done]. intros _. right. right. exists c.
        split; [by apply category_of_Some | by apply inherited_true].
      * split; [done|]. intros [?|[?|(c' & Hc' & Hn)]]; try done.
        apply category_of_Some in Hc'. rewrite Ec in Hc'. injection Hc' as <-.
        apply inherited_true in Hn. congruence.
    + split; [intros _; right; by left | done].
  - split; [intros _; by left | done].
Qed.

Lemma push_entry_own_names lg n e :
  own_names_only lg -> inherited n = false -> own_names_only (push_entry lg (n, e)).
Proof.
  intros Hlg Hn k Hk. unfold push_entry in Hk. simpl in Hk.
  destruct (decide (n = k)) as [<-|Hne]; [done|].
  rewrite lookup_insert_ne in Hk by done. by apply Hlg.
Qed.

(** One pass of the inner loop body is one [push_entry], or a throw. *)
Lemma lock_group_push a lg g :
  own_names_only lg ->
  lock_group cats a lg g = (fun p => push_entry lg p) <$> lock_push cats a g.
Proof.
  intros Hlg. unfold lock_group, lock_push, push_entry.
  rewrite !find_category_category_of.
  destruct (category_of cats g) as [c|]; [|done].
  destruct (category_of cats (Asset.group a)) as [owner|]; [|done].
  unfold locked_truthy. destruct (inherited (Category.name c)) eqn:Ei.
  - rewrite orb_true_r.
    destruct (lg !! Category.name c) as [l|] eqn:E; [|done].
    assert (inherited (Category.name c) = false) by (apply Hlg; by eexists). congruence.
  - rewrite orb_false_r. simpl. destruct (lg !! Category.name c) as [l|] eqn:E.
    + rewrite bool_decide_eq_true_2 by (by eexists). by rewrite E.
    + rewrite bool_decide_eq_false_2 by (by intros [? ?]).
      rewrite lookup_insert_eq. simpl. by rewrite insert_insert_eq.
Qed.

Lemma push_all_own_names ps lg :
  own_names_only lg -> (forall p, p ∈ ps -> inherited (fst p) = false) ->
  own_names_only (push_all ps lg).
Proof.
  revert lg. induction ps as [|[n e] ps IH]; intros lg Hlg Hps; [done|].
  unfold push_all in *. simpl. apply IH.
  - apply push_entry_own_names; [done|]. apply (Hps (n, e)), list_elem_of_here.
  - intros p Hp. by apply Hps, list_elem_of_further.
Qed.

Lemma lock_push_name a g n e : lock_push cats a g = Some (n, e) -> inherited n = false.
Proof. intros H. apply lock_push_Some in H as (c & owner & _ & _ & Hi & -> & _). done. Qed.

Lemma lock_groups_spec a groups lg :
  own_names_only lg ->
  forEach_throw (lock_group cats a) groups lg
  = if forallb (fun g => bool_decide (is_Some (lock_push cats a g))) groups
    then Some (push_all (omap (lock_push cats a) groups) lg) else None.
Proof.
  revert lg. induction groups as [|g groups IH]; intros lg Hlg; [done|].
  simpl. rewrite lock_group_push by done.
  destruct (lock_push cats a g) as [[n e]|] eqn:Hp; simpl.
  - apply IH. apply push_entry_own_names; [done | by eapply lock_push_name].
  - done.
Qed.

Lemma asset_locks_names sel p : p ∈ asset_locks cats sel -> inherited (fst p) = false.
Proof.
  unfold asset_locks. destruct (asset sel) as [| |a]; try (intros H; by apply elem_of_nil in H).
  destruct (Asset.lockedGroups a) as [groups|]; [|intros H; by apply elem_of_nil in H].
  intros H. apply list_elem_of_omap in H as (g & _ & Hp). destruct p as [n e].
  by eapply lock_push_name.
Qed.

Lemma lock_selection_spec lg sel :
  own_names_only lg ->
  lock_selection cats lg sel
  = if selection_refs_resolve cats sel
    then Some (push_all (asset_locks cats sel) lg) else None.
Proof.
  intros Hlg.
  unfold lock_selection, selection_refs_resolve, asset_refs_resolve, asset_locks.
  destruct (asset sel) as [| |a]; try done.
  destruct (Asset.lockedGroups a) as [groups|]; [|done].
  by apply lock_groups_spec.
Qed.

Lemma push_all_app ps qs lg : push_all (ps ++ qs) lg = push_all qs (push_all ps lg).
Proof. apply foldl_app. Qed.

Lemma lock_selections_spec sels lg :
  own_names_only lg ->
  forEach_throw (lock_selection cats) sels lg
  = if forallb (selection_refs_resolve cats) sels
    then Some (push_all (concat (map (asset_locks cats) sels)) lg) else None.
Proof.
  revert lg. induction sels as [|sel sels IH]; intros lg Hlg; [done|].
  simpl. rewrite lock_selection_spec by done.
  destruct (selection_refs_resolve cats sel); [|done]. simpl.
  rewrite IH.
  - destruct (forallb _ sels); [|done]. by rewrite push_all_app.
  - apply push_all_own_names; [done|]. intros p. apply asset_locks_names.
Qed.

(** [applyLockedAssets] computes the pushes of the specification when
    every locked group of every selected asset contributes, and throws
    otherwise. *)
Lemma compute_lockedGroups_spec (cust : JSObj.t Selection) :
  compute_lockedGroups cats cust
  = if refs_resolve cats cust
    then Some (push_all (concat (map (asset_locks cats) (JSObj.values cust))) ∅)
    else None.
Proof. apply lock_selections_spec. intros k [l Hl]. by rewrite lookup_empty in Hl. Qed.

(** The list under a name after pushing: the old list followed by the
    pushed entries of that name; the key exists once something is pushed. *)
Lemma push_all_lookup ps lg n :
  push_all ps lg !! n
  = match map snd (List.filter (fun p => bool_decide (fst p = n)) ps) with
    | [] => lg !! n
    | l => Some (default [] (lg !! n) ++ l)
    end.
Proof.
  revert lg. induction ps as [|[m e] ps IH]; intros lg; [done|].
  unfold push_all in *. simpl. rewrite IH. clear IH.
  unfold push_entry. simpl.
  destruct (decide (m = n)) as [->|Hne].
  - rewrite bool_decide_eq_true_2 by done. simpl. rewrite lookup_insert_eq. simpl.
    destruct (map snd _) as [|e' l]; [done|]. by rewrite <- app_assoc.
  - rewrite bool_decide_eq_false_2 by done. by rewrite lookup_insert_ne.
Qed.

Lemma compute_lockedGroups_lookup (cust : JSObj.t Selection) lg n :
  compute_lockedGroups cats cust = Some lg ->
  lg !! n = match suppression_list cats cust n with
            | [] => None
            | l => Some l
            end.
Proof.
  rewrite compute_lockedGroups_spec. destruct (refs_resolve cats cust); [|done].
  intros [= <-]. rewrite push_all_lookup. unfold suppression_list.
  destruct (map snd _); [apply lookup_empty | by rewrite lookup_empty].
Qed.
End LockFacts.

Lemma elem_values {V : Type} (k : string) (v : V) (o : JSObj.t V) :
  (k, v) ∈ o -> v ∈ JSObj.values o.
Proof. intros Hin. apply list_elem_of_fmap. by exists (k, v). Qed.

Lemma forallb_false {A : Type} (f : A -> bool) (l : list A) :
  forallb f l = false <-> exists x, x ∈ l /\ f x = false.
Proof.
  induction l as [|y l IH]; simpl.
  - split; [done | intros (x & Hin & _); by apply elem_of_nil in Hin].
  - rewrite andb_false_iff, IH. split.
    + intros [Hy|(x & Hin & Hx)].
      * exists y. split; [apply list_elem_of_here | done].
      * exists x. split; [by apply list_elem_of_further | done].
    + intros (x & Hin & Hx). apply elem_of_cons in Hin as [->|Hin]; [by left|].
      right. by exists x.
Qed.

Lemma forallb_true {A : Type} (f : A -> bool) (l : list A) :
  forallb f l = true <-> forall x, x ∈ l -> f x = true.
Proof.
  rewrite forallb_forall. split; intros H x Hin; apply H; by apply list_elem_of_In.
Qed.

Lemma asset_refs_resolve_false (cats : list Category.t) (a : Asset.t) :
  asset_refs_resolve cats a = false <->
  exists groups g, Asset.lockedGroups a = Some groups /\ g ∈ groups /\
    lock_push cats a g = None.
Proof.
  unfold asset_refs_resolve. destruct (Asset.lockedGroups a) as [groups|].
  - rewrite forallb_false. split.
    + intros (g & Hin & Hg). exists groups, g. split; [done|]. split; [done|].
      apply bool_decide_eq_false in Hg.
      destruct (lock_push cats a g); [|done]. exfalso. apply Hg. by eexists.
    + intros (groups' & g & [= <-] & Hin & Hg). exists g. split; [done|].
      rewrite Hg. apply bool_decide_eq_false. by intros [? ?].
  - split; [done | intros (? & ? & ? & _); done].
Qed.

(** The recomputation fails exactly on a dangling reference or on a locked
    category named like a member of [Object.prototype]. *)
Lemma refs_resolve_false (cats : list Category.t) (cust : JSObj.t Selection) :
  refs_resolve cats cust = false <-> dangling cats cust \/ locks_inherited_name cats cust.
Proof.
  unfold refs_resolve, dangling, locks_inherited_name, selected_lock.
  rewrite forallb_false. split.
  - intros (sel & Hin & Hsel). unfold selection_refs_resolve in Hsel.
    destruct (asset sel) as [| |a] eqn:Ea; try done.
    apply asset_refs_resolve_false in Hsel as (groups & g & HL & Hg & Hd).
    apply lock_push_None in Hd as [Hd|[Hd|(c & Hc & Hn)]].
    + left. exists a, g. split; [by exists sel, groups | by left].
    + left. exists a, g. split; [by exists sel, groups | by right].
    + right. exists a, g, c. split; [by exists sel, groups | done].
  - intros [(a & g & (sel & groups & Hin & Ea & HL & Hg) & Hd)
           |(a & g & c & (sel & groups & Hin & Ea & HL & Hg) & Hc & Hn)];
      (exists sel; split; [done|]; unfold selection_refs_resolve; rewrite Ea;
       apply asset_refs_resolve_false; exists groups, g; split; [done|]; split; [done|];
       apply lock_push_None).
    + destruct Hd as [Hd|Hd]; [by left | right; by left].
    + right. right. by exists c.
Qed.

Lemma refs_resolve_true (cats : list Category.t) (cust : JSObj.t Selection) :
  refs_resolve cats cust = true <->
  ~ dangling cats cust /\ ~ locks_inherited_name cats cust.
Proof.
  split.
  - intros Ht. split; intros Hd.
    + assert (refs_resolve cats cust = false) by (apply refs_resolve_false; by left).
      congruence.
    + assert (refs_resolve cats cust = false) by (apply refs_resolve_false; by right).
      congruence.
  - intros [H1 H2]. destruct (refs_resolve cats cust) eqn:E; [done|].
    apply refs_resolve_false in E as [?|?]; done.
Qed.

(** What [applyLockedAssets] leaves untouched, whether it throws or not. *)
Lemma applyLockedAssets_frame (s : Store) :
  let s' := fst (applyLockedAssets s) in
  categories s' = categories s /\ currentCategory s' = currentCategory s /\
  assets s' = assets s /\ skin s' = skin s /\ customization s' = customization s /\
  customization_proto s' = customization_proto s.
Proof.
  unfold applyLockedAssets. destruct (compute_lockedGroups _ _); simpl; done.
Qed.

Lemma applyLockedAssets_throws (s : Store) :
  snd (applyLockedAssets s) = ThrowTypeError <->
  refs_resolve (categories s) (customization s) = false.
Proof.
  unfold applyLockedAssets. rewrite compute_lockedGroups_spec.
  destruct (refs_resolve _ _); simpl; split; congruence.
Qed.

Lemma applyLockedAssets_normal (s : Store) :
  snd (applyLockedAssets s) = Normal <-> refs_resolve (categories s) (customization s) = true.
Proof.
  unfold applyLockedAssets. rewrite compute_lockedGroups_spec.
  destruct (refs_resolve _ _); simpl; split; congruence.
Qed.

Lemma applyLockedAssets_resolved (s : Store) :
  refs_resolve (categories s) (customization s) = true ->
  exists lg,
    compute_lockedGroups (categories s) (customization s) = Some lg /\
    applyLockedAssets s = (set_lockedGroups lg s, Normal).
Proof.
  intros Hres. unfold applyLockedAssets. rewrite compute_lockedGroups_spec, Hres.
  eexists. split; reflexivity.
Qed.

Lemma applyLockedAssets_Some (s : Store) (lg : gmap string (list LockEntry)) :
  compute_lockedGroups (categories s) (customization s) = Some lg ->
  applyLockedAssets s = (set_lockedGroups lg s, Normal).
Proof. intros E. unfold applyLockedAssets. by rewrite E. Qed.

Lemma applyLockedAssets_None (s : Store) :
  compute_lockedGroups (categories s) (customization s) = None ->
  applyLockedAssets s = (s, ThrowTypeError).
Proof. intros E. unfold applyLockedAssets. by rewrite E. Qed.

Lemma applyLockedAssets_again (s : Store) (lg : gmap string (list LockEntry)) :
  compute_lockedGroups (categories s) (customization s) = Some lg ->
  applyLockedAssets (set_lockedGroups lg s) = (set_lockedGroups lg s, Normal).
Proof. intros E. unfold applyLockedAssets. simpl. by rewrite E. Qed.



Lemma suppression_list_inv (cats : list Category.t) (cust : JSObj.t Selection)
    (n : string) (e : LockEntry) :
  e ∈ suppression_list cats cust n ->
  exists k sel a groups g c owner,
    (k, sel) ∈ cust /\ asset sel = AssetObj a /\
    Asset.lockedGroups a = Some groups /\ g ∈ groups /\
    names_category cats g c /\ Category.name c = n /\
    names_category cats (Asset.group a) owner /\
    e = {| lock_name := Asset.name a; lock_categoryName := Category.name owner |}.
Proof.
  unfold suppression_list. intros He.
  apply list_elem_of_fmap in He as ([m e'] & -> & Hin). simpl.
  apply list_elem_of_In, filter_In in Hin as [Hin Hm].
  apply bool_decide_eq_true in Hm. simpl in Hm. subst m.
  apply in_concat in Hin as (l & Hl & Hin).
  apply list_elem_of_In, list_elem_of_fmap in Hl as (sel & -> & Hsel).
  apply list_elem_of_fmap in Hsel as ([k sel'] & -> & Hsel). simpl in Hin.
  unfold asset_locks in Hin.
  destruct (asset sel') as [| |a] eqn:Ea; try by apply list_elem_of_In, elem_of_nil in Hin.
  destruct (Asset.lockedGroups a) as [groups|] eqn:EL;
    [|by apply list_elem_of_In, elem_of_nil in Hin].
  apply list_elem_of_In, list_elem_of_omap in Hin as (g & Hg & Hpush).
  apply lock_push_Some in Hpush as (c & owner & Hc & Ho & _ & -> & ->).
  by exists k, sel', a, groups, g, c, owner.
Qed.

(** ** Reading customization *)

Lemma selection_at_spec (k : string) (s : Store) :
  selection_at k s
  = match JSObj.get k (customization s) with
    | Some sel => sel
    | None =>
        if decide (k = "__proto__")
        then default empty_selection (customization_proto s)
        else empty_selection
    end.
Proof.
  unfold selection_at, customization_read.
  destruct (JSObj.get k (customization s)) as [sel|]; [done|].
  destruct (customization_proto s) as [e|]; simpl.
  - destruct (decide (k = "__proto__")); [done|].
    destruct (decide (k = "asset")); [by destruct (asset e)|].
    destruct (decide (k = "color")); [by destruct (color e)|].
    by destruct (inherited k).
  - destruct (inherited k); by destruct (decide (k = "__proto__")).
Qed.

Lemma selection_at_own (k : string) (s : Store) (sel : Selection) :
  JSObj.get k (customization s) = Some sel -> selection_at k s = sel.
Proof. intros H. by rewrite selection_at_spec, H. Qed.


Lemma customization_read_own (k : string) (s : Store) (sel : Selection) :
  JSObj.get k (customization s) = Some sel -> customization_read k s = ReadEntry sel.
Proof. intros H. unfold customization_read. by rewrite H. Qed.




(** Two selected assets that lock Head: both are recorded, in the order of
    the entries of [customization]. *)
Example two_locks_on_head :
  lockedGroups (fst (changeAsset "Top" (AssetObj Sample.vest)
                       (fst (changeAsset "Hat" (AssetObj Sample.cap) Sample.wardrobe))))
  !! "Head"
  = Some [{| lock_name := "Cap"; lock_categoryName := "Hat" |};
          {| lock_name := "Vest"; lock_categoryName := "Top" |}].
Proof. vm_compute. reflexivity. Qed.

(** The scenario of the specification: selecting the hat's asset suppresses
    Head under the hat's name; deselecting it leaves the empty map. *)
Example scenario_hat_locks_head :
  lockedGroups (fst (changeAsset "Hat" (AssetObj Sample.cap) Sample.loaded))
  = {[ "Head" := [{| lock_name := "Cap"; lock_categoryName := "Hat" |}] ]} /\
  lockedGroups (fst (changeAsset "Hat" AssetNull Sample.with_cap)) = ∅.
Proof. split; vm_compute; reflexivity. Qed.




(** Selecting a hat that locks the category named "constructor": every id
    names a loaded category, and the recomputation throws all the same,
    because [lockedGroups["constructor"]] is a function without [push]. *)
Example changeAsset_inherited_name_throws :
  let s := changeAsset_set "Hat" (AssetObj Sample.wig) Sample.heirloom in
  ~ dangling (categories s) (customization s) /\
  changeAsset "Hat" (AssetObj Sample.wig) Sample.heirloom = (s, ThrowTypeError) /\
  lockedGroups s = lockedGroups Sample.heirloom.
Proof.
  split; [|split; vm_compute; reflexivity].
  intros (a & g & (sel & groups & Hsel & Ha & HL & Hg) & Hd).
  assert (Hwig : a = Sample.wig \/ Asset.lockedGroups a = None).
  { vm_compute in Hsel. repeat (apply elem_of_cons in Hsel as [->|Hsel]);
      try (by apply elem_of_nil in Hsel); simpl in Ha; try done;
      injection Ha as <-; auto. }
  destruct Hwig as [->|Hnone]; [|congruence].
  injection HL as <-. apply list_elem_of_singleton in Hg as ->.
  destruct Hd as [Hd|Hd].
  - apply (Hd (attach_assets [Sample.cap; Sample.wig; Sample.face] Sample.badge));
      [by_compute | done].
  - apply (Hd (attach_assets [Sample.cap; Sample.wig; Sample.face] Sample.hat));
      [by_compute | done].
Qed.

Section Actions.
Context `{Three}.

Lemma randomize_set_categories (rnd : nat -> Float01) (s : Store) :
  categories (randomize_set rnd s) = categories s.
Proof. unfold randomize_set. by destruct (randomize_loop _ _ _) as [[o sk] n]. Qed.

End Actions.

(** Selecting an asset that locks a group that is not loaded: the action
    throws after the selection is stored, and the map stays as it was. *)
Example changeAsset_stray_throws :
  snd (changeAsset "Hat" (AssetObj Sample.stray) Sample.astray) = ThrowTypeError /\
  JSObj.get "Hat" (customization (fst (changeAsset "Hat" (AssetObj Sample.stray) Sample.astray)))
  = Some {| asset := AssetObj Sample.stray; color := ColorString "red" |} /\
  lockedGroups (fst (changeAsset "Hat" (AssetObj Sample.stray) Sample.astray))
  = lockedGroups Sample.astray.
Proof. vm_compute. done. Qed.

(** ** changeAsset *)

Lemma changeAsset_set_customization (k : string) (a : AssetRef) (s : Store) :
  customization (changeAsset_set k a s)
  = JSObj.set k (with_asset (selection_at k s) a) (customization s).
Proof. reflexivity. Qed.

Lemma changeAsset_customization (k : string) (a : AssetRef) (s : Store) :
  customization (fst (changeAsset k a s))
  = JSObj.set k (with_asset (selection_at k s) a) (customization s).
Proof.
  unfold changeAsset.
  by destruct (applyLockedAssets_frame (changeAsset_set k a s)) as (_ & _ & _ & _ & -> & _).
Qed.

Lemma changeAsset_proto (k : string) (a : AssetRef) (s : Store) :
  customization_proto (fst (changeAsset k a s)) = None.
Proof.
  unfold changeAsset.
  by destruct (applyLockedAssets_frame (changeAsset_set k a s)) as (_ & _ & _ & _ & _ & ->).
Qed.

Lemma selection_at_set (k : string) (sel : Selection) (p : option Selection) (s : Store) :
  selection_at k (set_customization (JSObj.set k sel (customization s)) p s) = sel.
Proof. apply selection_at_own. simpl. apply get_set_eq. Qed.

Lemma changeAsset_set_twice (k : string) (a : AssetRef) (s : Store) :
  changeAsset_set k a (changeAsset_set k a s) = changeAsset_set k a s.
Proof.
  unfold changeAsset_set at 1.
  rewrite (selection_at_own k (changeAsset_set k a s)
             (with_asset (selection_at k s) a)) by apply get_set_eq.
  rewrite changeAsset_set_customization, set_set. reflexivity.
Qed.

Lemma changeAsset_set_lockedGroups (k : string) (a : AssetRef) (s : Store)
    (lg : gmap string (list LockEntry)) :
  changeAsset_set k a (set_lockedGroups lg s) = set_lockedGroups lg (changeAsset_set k a s).
Proof. reflexivity. Qed.

(** C9. Idempotence of [setAsset]: calling [changeAsset] a second time with
    the same key and asset leaves the same store (customization, suppression
    map and all other fields) and the same completion as the first call. *)
Theorem setAsset_idempotent (s : Store) (k : string) (a : AssetRef) :
  changeAsset k a (fst (changeAsset k a s)) = changeAsset k a s /\
  (forall c, setAsset c a (fst (setAsset c a s)) = setAsset c a s).
Proof.
  assert (H : forall k, changeAsset k a (fst (changeAsset k a s)) = changeAsset k a s).
  { clear k. intros k. unfold changeAsset.
    destruct (compute_lockedGroups (categories (changeAsset_set k a s))
                (customization (changeAsset_set k a s))) as [lg|] eqn:E.
    - rewrite (applyLockedAssets_Some _ _ E). simpl.
      rewrite changeAsset_set_lockedGroups, changeAsset_set_twice.
      apply applyLockedAssets_again, E.
    - rewrite (applyLockedAssets_None _ E). simpl.
      rewrite changeAsset_set_twice. apply applyLockedAssets_None, E. }
  split; [apply H|]. intros c. apply H.
Qed.

Lemma elem_replace_inv {V : Type} (k k' : string) (v v' : V) (o : JSObj.t V) :
  (k', v') ∈ JSObj.replace k v o -> (k' = k /\ v' = v) \/ (k', v') ∈ o.
Proof.
  induction o as [|[k0 v0] o IH]; simpl; [by right|].
  destruct (decide (k0 = k)) as [->|Hne]; rewrite !elem_of_cons.
  - intros [[= -> ->]|Hin]; [by left | right; by right].
  - intros [Heq|Hin]; [right; by left|].
    destruct (IH Hin) as [?|?]; [by left | right; by right].
Qed.

Lemma elem_add_inv {V : Type} (k k' : string) (v v' : V) (o : JSObj.t V) :
  (k', v') ∈ JSObj.add k v o -> (k' = k /\ v' = v) \/ (k', v') ∈ o.
Proof.
  induction o as [|[k0 v0] o IH]; simpl.
  - rewrite elem_of_cons. intros [[= -> ->]|Hin]; [by left | by right].
  - destruct (JSObj.key_precedes k0 k); rewrite !elem_of_cons.
    + intros [Heq|Hin]; [right; by left|].
      destruct (IH Hin) as [?|?]; [by left | right; by right].
    + intros [[= -> ->]|Hin]; [by left | by right].
Qed.

Lemma elem_set_inv {V : Type} (k k' : string) (v v' : V) (o : JSObj.t V) :
  (k', v') ∈ JSObj.set k v o -> (k' = k /\ v' = v) \/ (k', v') ∈ o.
Proof.
  unfold JSObj.set. destruct (JSObj.has k o); [apply elem_replace_inv | apply elem_add_inv].
Qed.

Lemma refs_resolve_set (cats : list Category.t) (cust : JSObj.t Selection)
    (k : string) (sel : Selection) :
  selection_refs_resolve cats sel = true ->
  refs_resolve cats cust = true -> refs_resolve cats (JSObj.set k sel cust) = true.
Proof.
  unfold refs_resolve. rewrite !forallb_true. intros Hsel Hres x Hin.
  apply list_elem_of_fmap in Hin as ([k' sel'] & -> & Hin).
  apply elem_set_inv in Hin as [[_ ->]|Hin]; [done|].
  apply Hres. by eapply elem_values.
Qed.




(** ** updateColor *)

Section UpdateColor.
Context `{Three}.

Lemma updateColor_Some (v : JSColor) (s : Store) (cur : Category.t) :
  currentCategory s = Some cur ->
  updateColor v s
  = (set_skin (if decide (Category.name cur = "Head") then color_set (skin s) v else skin s)
       (set_customization
          (JSObj.set (Category.name cur)
             (with_color (selection_at (Category.name cur) s) v)
             (customization s)) None s), Normal).
Proof.
  intros E. unfold updateColor. rewrite E.
  destruct (decide (Category.name cur = "Head")); [done|].
  by destruct s.
Qed.

(** C7, as the code has it. Skin frame condition: [setColor(C, v)]
    completes, stores [v] as the color of [C]'s entry without touching its
    asset, and leaves the skin material as it was unless [C] is named
    "Head" and [v] is a non-empty style that three's [Color.set]
    recognises, in which case the skin's color becomes that of [v]. *)
Theorem setColor_skin (s : Store) (c : Category.t) (v : string) :
  let r := setColor c v s in
  snd r = Normal /\
  skin (fst r)
  = (if decide (Category.name c = "Head")
     then (if truthy v && setStyle_recognises v then SkinStyle v else skin s)
     else skin s) /\
  JSObj.get (Category.name c) (customization (fst r))
  = Some {| asset := asset (selection_at (Category.name c) s); color := ColorString v |} /\
  lockedGroups (fst r) = lockedGroups s.
Proof.
  unfold setColor. rewrite (updateColor_Some _ (setCurrentCategory c s) c eq_refl). cbn [fst snd].
  split; [done|]. split; [done|]. split; [apply get_set_eq | done].
Qed.
End UpdateColor.

(** C7, at the empty string: [setColor("Head", "")] stores the empty color
    in Head's entry, and the skin material keeps the color it had; it does
    not become the color of the empty style, whatever styles three's
    parser recognises. *)
Lemma setColor_skin_empty_style :
  let s := fst (@setColor Sample.styles Sample.loaded_head "" Sample.loaded) in
  Category.name Sample.loaded_head = "Head" /\
  color <$> JSObj.get "Head" (customization s) = Some (ColorString "") /\
  skin s = skin Sample.loaded /\
  skin s = SkinHex 16107173 /\
  skin s ≠ SkinStyle "" /\
  (forall parser : Three,
     skin (fst (@setColor parser Sample.loaded_head "" Sample.loaded))
     = skin Sample.loaded).
Proof.
  split; [reflexivity|]. split; [vm_compute; reflexivity|].
  split; [vm_compute; reflexivity|]. split; [vm_compute; reflexivity|].
  split; [vm_compute; done|]. intros parser. reflexivity.
Qed.

(** The scenario of the specification: [setColor("Head", "#112233")] updates
    the Head entry and the skin material, with a parser that recognises the
    style. *)
Example scenario_head_color :
  let s := fst (@setColor Sample.styles Sample.loaded_head "#112233" Sample.loaded) in
  color <$> JSObj.get "Head" (customization s) = Some (ColorString "#112233") /\
  skin s = SkinStyle "#112233" /\
  skin (fst (@setColor Sample.styles Sample.loaded_hat "blue" Sample.loaded))
  = skin Sample.loaded.
Proof. vm_compute. done. Qed.

(** ** The shape of the customization state *)

Lemma keys_assign_entry (k : string) (v : Selection) (o : CustObj) (n : string) :
  n ∈ JSObj.keys (fst (assign_entry k v o))
  <-> (n = k /\ k ≠ "__proto__") \/ n ∈ JSObj.keys (fst o).
Proof.
  unfold assign_entry. destruct (decide (k = "__proto__")) as [E|E].
  - rewrite bool_decide_eq_true_2 by done. destruct (JSObj.has k (fst o)) eqn:Eh; simpl.
    + rewrite elem_keys_set. apply has_true in Eh.
      split; [intros [->|?]; by right | intros [[? ?]|?]; [done | by right]].
    + split; [by right | intros [[? ?]|?]; done].
  - rewrite bool_decide_eq_false_2 by done. simpl. rewrite elem_keys_set.
    split; [intros [->|?]; [by left | by right] | intros [[-> _]|?]; [by left | by right]].
Qed.

Lemma NoDup_assign_entry (k : string) (v : Selection) (o : CustObj) :
  NoDup (JSObj.keys (fst o)) -> NoDup (JSObj.keys (fst (assign_entry k v o))).
Proof.
  intros Hnd. unfold assign_entry.
  destruct (bool_decide (k = "__proto__") && negb (JSObj.has k (fst o))); simpl;
    [done | by apply NoDup_keys_set].
Qed.

Lemma keys_assign_asset (k : string) (a : AssetRef) (o : CustObj) :
  JSObj.keys (fst (assign_asset k a o)) = JSObj.keys (fst o).
Proof.
  unfold assign_asset. destruct (JSObj.get k (fst o)) as [sel|] eqn:E; simpl.
  - apply keys_set_present. destruct (decide (k ∈ JSObj.keys (fst o))) as [|Hn]; [done|].
    apply get_None_keys in Hn. congruence.
  - by destruct (decide (k = "__proto__")).
Qed.

Lemma keys_seed_selection (o : CustObj) (c : Category.t) (n : string) :
  n ∈ JSObj.keys (fst (seed_selection o c))
  <-> (n = Category.name c /\ n ≠ "__proto__") \/ n ∈ JSObj.keys (fst o).
Proof.
  unfold seed_selection. destruct (decide (Category.startingAsset c = "")).
  - rewrite keys_assign_entry. split; (intros [[-> ?]|?]; [by left | by right]).
  - rewrite keys_assign_asset, keys_assign_entry.
    split; (intros [[-> ?]|?]; [by left | by right]).
Qed.

Lemma NoDup_seed_selection (o : CustObj) (c : Category.t) :
  NoDup (JSObj.keys (fst o)) -> NoDup (JSObj.keys (fst (seed_selection o c))).
Proof.
  intros Hnd. unfold seed_selection. destruct (decide (Category.startingAsset c = "")).
  - by apply NoDup_assign_entry.
  - rewrite keys_assign_asset. by apply NoDup_assign_entry.
Qed.

Lemma keys_seed_all (cats : list Category.t) (o : CustObj) (n : string) :
  n ∈ JSObj.keys (fst (foldl seed_selection o cats))
  <-> (n ≠ "__proto__" /\ exists c, c ∈ cats /\ Category.name c = n)
      \/ n ∈ JSObj.keys (fst o).
Proof.
  revert o. induction cats as [|c cats IH]; intros o; simpl.
  - split; [by right | intros [(_ & c & Hin & _)|?]; [by apply elem_of_nil in Hin | done]].
  - rewrite IH, keys_seed_selection. split.
    + intros [(Hp & c' & Hin & Hn)|[[-> Hp]|Hin]].
      * left. split; [done|]. exists c'. split; [by apply list_elem_of_further | done].
      * left. split; [done|]. exists c. split; [apply list_elem_of_here | done].
      * by right.
    + intros [(Hp & c' & Hin & Hn)|Hin].
      * apply elem_of_cons in Hin as [->|Hin]; [right; by left|].
        left. split; [done|]. by exists c'.
      * right. by right.
Qed.

Lemma NoDup_seed_all (cats : list Category.t) (o : CustObj) :
  NoDup (JSObj.keys (fst o)) -> NoDup (JSObj.keys (fst (foldl seed_selection o cats))).
Proof.
  revert o. induction cats as [|c cats IH]; intros o Hnd; [done|].
  simpl. by apply IH, NoDup_seed_selection.
Qed.

Lemma fetchCategories_customization (fc : list Category.t) (fa : list Asset.t) (s : Store) :
  customization (fst (fetchCategories fc fa s))
  = fst (foldl seed_selection ([], None) (map (attach_assets fa) fc)).
Proof.
  unfold fetchCategories.
  by destruct (applyLockedAssets_frame (fetchCategories_set fc fa s))
    as (_ & _ & _ & _ & -> & _).
Qed.

Lemma fetchCategories_proto (fc : list Category.t) (fa : list Asset.t) (s : Store) :
  customization_proto (fst (fetchCategories fc fa s))
  = snd (foldl seed_selection ([], None) (map (attach_assets fa) fc)).
Proof.
  unfold fetchCategories.
  by destruct (applyLockedAssets_frame (fetchCategories_set fc fa s))
    as (_ & _ & _ & _ & _ & ->).
Qed.

Lemma fetchCategories_fields (fc : list Category.t) (fa : list Asset.t) (s : Store) :
  let s' := fst (fetchCategories fc fa s) in
  categories s' = map (attach_assets fa) fc /\
  currentCategory s' = List.head (map (attach_assets fa) fc) /\
  assets s' = fa /\ skin s' = skin s.
Proof.
  unfold fetchCategories.
  destruct (applyLockedAssets_frame (fetchCategories_set fc fa s))
    as (-> & -> & -> & -> & _).
  done.
Qed.

Lemma load_categories (fc : list Category.t) (fa : list Asset.t) :
  categories (load fc fa) = map (attach_assets fa) fc.
Proof. apply (fetchCategories_fields fc fa initial_store). Qed.

Lemma load_customization (fc : list Category.t) (fa : list Asset.t) :
  customization (load fc fa)
  = fst (foldl seed_selection ([], None) (map (attach_assets fa) fc)).
Proof. apply fetchCategories_customization. Qed.

Lemma attach_assets_names (fa : list Asset.t) (cats : list Category.t) :
  map Category.name (map (attach_assets fa) cats) = map Category.name cats.
Proof. rewrite map_map. done. Qed.

Lemma one_entry_per_key {V : Type} (k : string) (o : JSObj.t V) :
  NoDup (JSObj.keys o) -> k ∈ JSObj.keys o ->
  length (List.filter (fun p => bool_decide (fst p = k)) o) = 1%nat.
Proof.
  induction o as [|[k0 v0] o IH]; simpl; intros Hnd Hin.
  - by apply elem_of_nil in Hin.
  - apply NoDup_cons in Hnd as [Hk0 Hnd].
    destruct (decide (k0 = k)) as [->|Hne].
    + rewrite bool_decide_eq_true_2 by done. simpl. f_equal.
      clear IH Hin Hnd. induction o as [|[k1 v1] o IH]; [done|]. simpl in *.
      apply not_elem_of_cons in Hk0 as [Hne Hk0].
      rewrite bool_decide_eq_false_2 by done. by apply IH.
    + rewrite bool_decide_eq_false_2 by done. apply IH; [done|].
      apply elem_of_cons in Hin as [->|Hin]; done.
Qed.

Section Shape.
Context `{Three}.

Lemma run_op_shape (s : Store) (o : Op) :
  Category.name (op_category o) ∈ JSObj.keys (customization s) ->
  categories (run_op s o) = categories s /\
  JSObj.keys (customization (run_op s o)) = JSObj.keys (customization s).
Proof.
  intros Hin. destruct o as [c a|c v]; simpl in *.
  - unfold setAsset. rewrite changeAsset_customization. unfold changeAsset.
    destruct (applyLockedAssets_frame (changeAsset_set (Category.name c) a s))
      as (-> & _).
    split; [done|]. by apply keys_set_present.
  - unfold setColor. rewrite (updateColor_Some _ (setCurrentCategory c s) c eq_refl).
    simpl. split; [done | by apply keys_set_present].
Qed.

Lemma run_ops_shape (ops : list Op) (s : Store) :
  Forall (fun o => Category.name (op_category o) ∈ JSObj.keys (customization s)) ops ->
  categories (run_ops ops s) = categories s /\
  JSObj.keys (customization (run_ops ops s)) = JSObj.keys (customization s).
Proof.
  revert s. induction ops as [|o ops IH]; intros s Hall; [done|].
  apply Forall_cons in Hall as [Ho Hall].
  destruct (run_op_shape s o Ho) as [Hc Hk].
  unfold run_ops in *. simpl. destruct (IH (run_op s o)) as [Hc' Hk'].
  - by rewrite Hk.
  - by rewrite Hc', Hk', Hc, Hk.
Qed.

(** C6, as the code has it. State shape: when no loaded category is named
    "__proto__", then after the initial load and any sequence of
    [setAsset] and [setColor] on categories of the catalog, the categories
    are those loaded and the customization has the keys it had after the
    load: no key twice, the name of every loaded category, exactly one
    entry under each such name, and no other key. *)
Theorem state_shape (fc : list Category.t) (fa : list Asset.t) (ops : list Op) :
  "__proto__" ∉ map Category.name fc ->
  Forall (fun o => Category.name (op_category o)
                   ∈ map Category.name (categories (load fc fa))) ops ->
  let s := run_ops ops (load fc fa) in
  categories s = categories (load fc fa) /\
  JSObj.keys (customization s) = JSObj.keys (customization (load fc fa)) /\
  NoDup (JSObj.keys (customization s)) /\
  (forall n, n ∈ JSObj.keys (customization s)
             <-> exists c, c ∈ categories (load fc fa) /\ Category.name c = n) /\
  (forall c, c ∈ categories (load fc fa) ->
     length (List.filter (fun p => bool_decide (fst p = Category.name c)) (customization s))
     = 1%nat).
Proof.
  intros Hproto Hops s.
  assert (Hkeys : forall n, n ∈ JSObj.keys (customization (load fc fa))
                            <-> exists c, c ∈ categories (load fc fa) /\ Category.name c = n).
  { intros n. rewrite load_customization, load_categories, keys_seed_all. split.
    - intros [[_ ?]|Hin]; [done | by apply elem_of_nil in Hin].
    - intros (c & Hc & Hn). left. split; [|by exists c].
      intros ->. apply Hproto. rewrite <- (attach_assets_names fa).
      apply list_elem_of_fmap. by exists c. }
  assert (Hnd : NoDup (JSObj.keys (customization (load fc fa)))).
  { rewrite load_customization. apply NoDup_seed_all, NoDup_nil_2. }
  destruct (run_ops_shape ops (load fc fa)) as [Hc Hk].
  { eapply Forall_impl; [exact Hops|]. simpl. intros o Ho.
    apply Hkeys. apply list_elem_of_fmap in Ho as (c & Hn & Hin). by exists c. }
  subst s. rewrite Hc, Hk. split; [done|]. split; [done|]. split; [done|].
  split; [done|]. intros c Hin. apply one_entry_per_key.
  - by rewrite Hk.
  - rewrite Hk. apply Hkeys. by exists c.
Qed.
End Shape.

Lemma state_shape_witness :
  let s := @run_ops Sample.styles
             [OpSetAsset Sample.loaded_hat (AssetObj Sample.cap);
              OpSetColor Sample.loaded_head "#112233";
              OpSetAsset Sample.loaded_hat AssetNull]
             (load [Sample.head; Sample.hat] [Sample.cap; Sample.face]) in
  categories s = categories Sample.loaded /\
  JSObj.keys (customization s) = JSObj.keys (customization Sample.loaded) /\
  NoDup (JSObj.keys (customization s)) /\
  (forall n, n ∈ JSObj.keys (customization s)
             <-> exists c, c ∈ categories Sample.loaded /\ Category.name c = n) /\
  (forall c, c ∈ categories Sample.loaded ->
     length (List.filter (fun p => bool_decide (fst p = Category.name c)) (customization s))
     = 1%nat).
Proof.
  apply (@state_shape Sample.styles [Sample.head; Sample.hat] [Sample.cap; Sample.face]).
  - by_compute.
  - repeat constructor; by_compute.
Defined.

(** C6, on a catalog with a category named "__proto__": the load assigns
    the entry of that category to [customization["__proto__"]], which makes
    it the prototype of the object and creates no entry; [setAsset] on
    that category then stores an entry under a computed key, so an entry
    appears. *)
Lemma state_shape_proto_category :
  let s0 := load [Sample.head; Sample.aura] [Sample.face; Sample.halo] in
  let s1 := @run_ops Sample.styles [OpSetAsset Sample.shrine_aura AssetNull] s0 in
  categories s0 = [attach_assets [Sample.face; Sample.halo] Sample.head; Sample.shrine_aura] /\
  Category.name Sample.shrine_aura = "__proto__" /\
  JSObj.keys (customization s0) = ["Head"] /\
  customization_proto s0
  = Some {| asset := AssetObj Sample.halo; color := ColorString "green" |} /\
  categories s1 = categories s0 /\
  customization s1
  = customization s0 ++ [("__proto__", {| asset := AssetNull; color := ColorString "green" |})] /\
  JSObj.keys (customization s1) ≠ JSObj.keys (customization s0).
Proof. vm_compute. repeat split; done. Qed.

(** ** Deselecting a locking asset *)


Lemma filter_none {A : Type} (f : A -> bool) (l : list A) :
  (forall x, x ∈ l -> f x = false) -> List.filter f l = [].
Proof.
  induction l as [|y l IH]; intros H; [done|]. simpl.
  rewrite (H y) by apply list_elem_of_here.
  apply IH. intros x Hin. by apply H, list_elem_of_further.
Qed.




(** C2, where the deselection throws: the cap on Hat suppresses Head, then
    Top gets an asset whose locked group is not loaded. Deselecting the cap
    throws in the recomputation, and the key of Head stays in the map. *)
Example deselect_throws_keeps_key :
  let s1 := fst (changeAsset "Hat" (AssetObj Sample.cap) Sample.tangle) in
  let s2 := fst (changeAsset "Top" (AssetObj Sample.rogue) s1) in
  let r := changeAsset "Hat" AssetNull s2 in
  snd r = ThrowTypeError /\
  asset <$> JSObj.get "Hat" (customization (fst r)) = Some AssetNull /\
  lockedGroups (fst r) !! "Head"
  = Some [{| lock_name := "Cap"; lock_categoryName := "Hat" |}].
Proof. vm_compute. done. Qed.



(** In the store of the witness the cap does suppress Head, and the
    deselection completes and removes the key. *)
Example lock_reversibility_cap :
  lockedGroups Sample.with_cap !! "Head"
  = Some [{| lock_name := "Cap"; lock_categoryName := "Hat" |}] /\
  snd (changeAsset "Hat" AssetNull Sample.with_cap) = Normal /\
  lockedGroups (fst (changeAsset "Hat" AssetNull Sample.with_cap)) !! "Head" = None.
Proof. vm_compute. done. Qed.

(** ** Entries while a loop builds the object *)

Lemma entry_of_read (k : string) (s : Store) (sel : Selection) :
  entry_of k (customization s, customization_proto s) = Some sel ->
  customization_read k s = ReadEntry sel.
Proof.
  unfold entry_of, customization_read. simpl.
  destruct (JSObj.get k (customization s)) as [sel'|]; [by intros [= ->]|].
  destruct (decide (k = "__proto__")); [|done]. by intros ->.
Qed.

Lemma entry_of_assign_eq (k : string) (v : Selection) (o : CustObj) :
  entry_of k (assign_entry k v o) = Some v.
Proof.
  unfold entry_of, assign_entry. destruct (decide (k = "__proto__")) as [E|E].
  - rewrite bool_decide_eq_true_2 by done. destruct (JSObj.has k (fst o)) eqn:Eh; simpl.
    + by rewrite get_set_eq.
    + apply has_false, get_None_keys in Eh. by rewrite Eh.
  - rewrite bool_decide_eq_false_2 by done. simpl. by rewrite get_set_eq.
Qed.

Lemma entry_of_assign_ne (k k' : string) (v : Selection) (o : CustObj) :
  k ≠ k' -> entry_of k' (assign_entry k v o) = entry_of k' o.
Proof.
  intros Hne. unfold entry_of, assign_entry.
  destruct (bool_decide (k = "__proto__") && negb (JSObj.has k (fst o))) eqn:E; simpl.
  - apply andb_true_iff in E as [E _]. apply bool_decide_eq_true in E. subst k.
    destruct (JSObj.get k' (fst o)); [done|].
    by rewrite !decide_False by (intros ->; done).
  - by rewrite get_set_ne.
Qed.

Lemma entry_of_assign_asset_eq (k : string) (a : AssetRef) (o : CustObj) (sel : Selection) :
  entry_of k o = Some sel -> entry_of k (assign_asset k a o) = Some (with_asset sel a).
Proof.
  unfold entry_of, assign_asset.
  destruct (JSObj.get k (fst o)) as [sel'|] eqn:E; simpl.
  - intros [= ->]. by rewrite get_set_eq.
  - destruct (decide (k = "__proto__")); [|done]. simpl. rewrite E. by intros ->.
Qed.


(** ** The loop of randomize *)

Section RandomizeLoop.
Context `{Three}.

Lemma randomize_category_spec (rnd : nat -> Float01) (o : CustObj)
    (sk : SkinColor) (n : nat) (c : Category.t) :
  randomize_category rnd (o, sk, n) c
  = (assign_entry (Category.name c) (random_selection rnd n c) o,
     if decide (Category.name c = "Head")
     then color_set sk (color (random_selection rnd n c)) else sk,
     (n + draw_count c)%nat).
Proof.
  unfold randomize_category, random_selection, random_asset, random_color, draw_count.
  destruct (Category.removable c), (Category.colors c); simpl;
    repeat f_equal; lia.
Qed.

Lemma randomize_loop_app (rnd : nat -> Float01) (pre post : list Category.t)
    (st : CustObj * SkinColor * nat) :
  randomize_loop rnd (pre ++ post) st = randomize_loop rnd post (randomize_loop rnd pre st).
Proof. apply foldl_app. Qed.

Lemma randomize_loop_cons (rnd : nat -> Float01) (c : Category.t) (cats : list Category.t)
    (st : CustObj * SkinColor * nat) :
  randomize_loop rnd (c :: cats) st = randomize_loop rnd cats (randomize_category rnd st c).
Proof. reflexivity. Qed.

Lemma randomize_loop_pos (rnd : nat -> Float01) (cats : list Category.t)
    (o : CustObj) (sk : SkinColor) (n : nat) :
  snd (randomize_loop rnd cats (o, sk, n)) = (n + draws_before cats)%nat.
Proof.
  revert o sk n. induction cats as [|c cats IH]; intros o sk n.
  - simpl. lia.
  - rewrite randomize_loop_cons, randomize_category_spec, IH. simpl. lia.
Qed.

Lemma randomize_loop_entry_other (rnd : nat -> Float01) (cats : list Category.t)
    (o : CustObj) (sk : SkinColor) (n : nat) (k : string) :
  k ∉ map Category.name cats ->
  entry_of k (fst (fst (randomize_loop rnd cats (o, sk, n)))) = entry_of k o.
Proof.
  revert o sk n. induction cats as [|c cats IH]; intros o sk n Hk; [done|].
  simpl in Hk. apply not_elem_of_cons in Hk as [Hne Hk].
  rewrite randomize_loop_cons, randomize_category_spec, IH by done.
  by apply entry_of_assign_ne.
Qed.

(** The entry of a category right after its iteration. *)
Lemma randomize_loop_entry_here (rnd : nat -> Float01) (pre : list Category.t)
    (c : Category.t) (o : CustObj) (sk : SkinColor) (n : nat) :
  entry_of (Category.name c) (fst (fst (randomize_loop rnd (pre ++ [c]) (o, sk, n))))
  = Some (random_selection rnd (n + draws_before pre) c).
Proof.
  rewrite randomize_loop_app.
  pose proof (randomize_loop_pos rnd pre o sk n) as Hpos.
  destruct (randomize_loop rnd pre (o, sk, n)) as [[o1 sk1] n1]. simpl in Hpos.
  subst n1. rewrite randomize_loop_cons, randomize_category_spec. simpl.
  apply entry_of_assign_eq.
Qed.

(** The entry of a category after the loop is the selection drawn for the
    last category of that name. *)
Lemma randomize_loop_entry (rnd : nat -> Float01) (pre post : list Category.t) (c : Category.t)
    (o : CustObj) (sk : SkinColor) (n : nat) :
  Category.name c ∉ map Category.name post ->
  entry_of (Category.name c)
    (fst (fst (randomize_loop rnd (pre ++ c :: post) (o, sk, n))))
  = Some (random_selection rnd (n + draws_before pre) c).
Proof.
  intros Hpost. change (pre ++ c :: post) with (pre ++ [c] ++ post).
  rewrite app_assoc, randomize_loop_app.
  pose proof (randomize_loop_entry_here rnd pre c o sk n) as Hhere.
  destruct (randomize_loop rnd (pre ++ [c]) (o, sk, n)) as [[o1 sk1] n1].
  rewrite randomize_loop_entry_other by done. exact Hhere.
Qed.

Lemma randomize_object (rnd : nat -> Float01) (s : Store) :
  (customization (fst (randomize rnd s)), customization_proto (fst (randomize rnd s)))
  = fst (fst (randomize_loop rnd (categories s) (([], None), skin s, 0%nat))).
Proof.
  unfold randomize.
  destruct (applyLockedAssets_frame (randomize_set rnd s)) as (_ & _ & _ & _ & -> & ->).
  unfold randomize_set. by destruct (randomize_loop _ _ _) as [[[own proto] sk] n].
Qed.

Lemma randomize_customization (rnd : nat -> Float01) (s : Store) :
  customization (fst (randomize rnd s))
  = fst (fst (fst (randomize_loop rnd (categories s) (([], None), skin s, 0%nat)))).
Proof. by rewrite <- randomize_object. Qed.

Lemma randomize_entry (rnd : nat -> Float01) (s : Store) (pre post : list Category.t)
    (c : Category.t) :
  categories s = pre ++ c :: post ->
  Category.name c ∉ map Category.name post ->
  customization_read (Category.name c) (fst (randomize rnd s))
  = ReadEntry (random_selection rnd (draws_before pre) c).
Proof.
  intros Hcats Hpost. apply entry_of_read. rewrite randomize_object, Hcats.
  by rewrite randomize_loop_entry.
Qed.

Lemma randomize_fields (rnd : nat -> Float01) (s : Store) :
  let s' := fst (randomize rnd s) in
  categories s' = categories s /\ currentCategory s' = currentCategory s /\
  assets s' = assets s.
Proof.
  unfold randomize.
  destruct (applyLockedAssets_frame (randomize_set rnd s)) as (-> & -> & -> & _).
  unfold randomize_set. by destruct (randomize_loop _ _ _) as [[o sk] n].
Qed.
End RandomizeLoop.

Lemma random_selection_asset (rnd : nat -> Float01) (n : nat) (c : Category.t) :
  asset (random_selection rnd n c) = fst (random_asset rnd n c).
Proof. unfold random_selection. by destruct (random_asset rnd n c). Qed.

Lemma random_selection_color (rnd : nat -> Float01) (n : nat) (c : Category.t) :
  color (random_selection rnd n c) = fst (random_color rnd (color_draw n c) c).
Proof.
  unfold random_selection, random_asset, color_draw.
  destruct (Category.removable c); simpl; do 2 f_equal; lia.
Qed.

Lemma asset_at_cases (c : Category.t) (i : Z) :
  asset_at c i = AssetUndefined
  \/ exists a, a ∈ Category.assets c /\ asset_at c i = AssetObj a.
Proof.
  unfold asset_at, js_index. destruct (decide (0 <= i)); [|by left].
  destruct (Category.assets c !! Z.to_nat i) as [a|] eqn:E; [|by left].
  right. exists a. split; [|done]. by eapply list_elem_of_lookup_2.
Qed.

Lemma random_asset_cases (rnd : nat -> Float01) (n : nat) (c : Category.t) :
  is_none (fst (random_asset rnd n c)) = true
  \/ exists a, a ∈ Category.assets c /\ fst (random_asset rnd n c) = AssetObj a.
Proof.
  unfold random_asset, removable_override.
  set (i := randInt _ _ (rnd n)).
  destruct (Category.removable c); simpl.
  - destruct (decide (_ = 0)); [by left|].
    destruct (asset_at_cases c i) as [->|(a & Hin & ->)]; [by left|]. right. by exists a.
  - destruct (asset_at_cases c i) as [->|(a & Hin & ->)]; [by left|]. right. by exists a.
Qed.

(** ** Counting outcomes *)

Lemma length_bind_const {A B : Type} (f : A -> list B) (l : list A) (m : nat) :
  (forall x, x ∈ l -> length (f x) = m) -> length (l ≫= f) = (length l * m)%nat.
Proof.
  induction l as [|x l IH]; intros H; [done|].
  rewrite bind_cons, length_app, IH, (H x).
  - simpl. lia.
  - apply list_elem_of_here.
  - intros y Hy. by apply H, list_elem_of_further.
Qed.

Lemma count_bind_const {A B : Type} (P : B -> bool) (f : A -> list B) (l : list A) (m : nat) :
  (forall x, x ∈ l -> length (List.filter P (f x)) = m) ->
  length (List.filter P (l ≫= f)) = (length l * m)%nat.
Proof.
  induction l as [|x l IH]; intros H; [done|].
  rewrite bind_cons, List.filter_app, length_app, IH, (H x).
  - simpl. lia.
  - apply list_elem_of_here.
  - intros y Hy. by apply H, list_elem_of_further.
Qed.

Lemma count_bind_singleton {A B : Type} (P : B -> bool) (g : A -> B) (l : list A) :
  length (List.filter P (l ≫= fun x => [g x])) = length (List.filter (fun x => P (g x)) l).
Proof.
  induction l as [|x l IH]; [done|].
  rewrite bind_cons. simpl. destruct (P (g x)); simpl; by rewrite IH.
Qed.

Lemma count_one {A : Type} `{EqDecision A} (j : A) (l : list A) :
  NoDup l -> j ∈ l -> length (List.filter (fun i => bool_decide (i = j)) l) = 1%nat.
Proof.
  induction l as [|x l IH]; simpl; intros Hnd Hin.
  - by apply elem_of_nil in Hin.
  - apply NoDup_cons in Hnd as [Hx Hnd].
    destruct (decide (x = j)) as [->|Hne].
    + rewrite bool_decide_eq_true_2 by done. simpl. f_equal.
      rewrite filter_none; [done|]. intros y Hy. apply bool_decide_eq_false.
      intros ->. done.
    + rewrite bool_decide_eq_false_2 by done. apply IH; [done|].
      apply elem_of_cons in Hin as [->|Hin]; done.
Qed.

Lemma filter_ext_elem {A : Type} (f g : A -> bool) (l : list A) :
  (forall x, x ∈ l -> f x = g x) -> List.filter f l = List.filter g l.
Proof.
  induction l as [|x l IH]; intros H; [done|]. simpl.
  rewrite (H x) by apply list_elem_of_here.
  rewrite IH; [done|]. intros y Hy. by apply H, list_elem_of_further.
Qed.

Lemma randInt_outcomes_length (n : nat) :
  (1 <= n)%nat -> length (randInt_outcomes 0 (Z.of_nat n - 1)) = n.
Proof. intros Hn. unfold randInt_outcomes. rewrite length_seqZ. lia. Qed.

Lemma randInt_outcomes_elem (n : nat) (i : Z) :
  (1 <= n)%nat -> i ∈ randInt_outcomes 0 (Z.of_nat n - 1) <-> 0 <= i < Z.of_nat n.
Proof. intros Hn. unfold randInt_outcomes. rewrite elem_of_seqZ. lia. Qed.

Lemma asset_at_in_range (c : Category.t) (i : Z) :
  0 <= i < Z.of_nat (length (Category.assets c)) ->
  exists a, Category.assets c !! Z.to_nat i = Some a /\ asset_at c i = AssetObj a.
Proof.
  intros Hi. unfold asset_at, js_index. rewrite decide_True by lia.
  destruct (lookup_lt_is_Some_2 (Category.assets c) (Z.to_nat i)) as [a Ha]; [lia|].
  exists a. by rewrite Ha.
Qed.

(** Of the [n * n] pairs of indices of a removable category with [n >= 1]
    assets, the [n] pairs whose second index is [0] give no asset. *)
Lemma removable_none_count (c : Category.t) :
  Category.removable c = true ->
  (1 <= length (Category.assets c))%nat ->
  let n := length (Category.assets c) in
  length (asset_outcomes c) = (n * n)%nat /\
  length (List.filter is_none (asset_outcomes c)) = n.
Proof.
  intros Hrem Hn n. unfold asset_outcomes. rewrite Hrem. fold n. split.
  - rewrite (length_bind_const _ _ n).
    + by rewrite randInt_outcomes_length.
    + intros i _. rewrite (length_bind_const _ _ 1%nat).
      * rewrite randInt_outcomes_length by done. lia.
      * done.
  - rewrite (count_bind_const _ _ _ 1%nat).
    { rewrite randInt_outcomes_length by done. lia. }
    intros i Hi. apply randInt_outcomes_elem in Hi; [|done].
    destruct (asset_at_in_range c i Hi) as (a & _ & ->).
    rewrite count_bind_singleton.
    rewrite (filter_ext_elem _ (fun j => bool_decide (j = 0))).
    + apply count_one; [apply NoDup_seqZ|].
      apply (proj2 (randInt_outcomes_elem n 0 Hn)). lia.
    + intros j _. unfold removable_override.
      destruct (decide (j = 0));
        [rewrite bool_decide_eq_true_2 by done | rewrite bool_decide_eq_false_2 by done];
        done.
Qed.

Lemma probability_one_in (n : nat) {A : Type} (event : A -> bool) (outcomes : list A) :
  (1 <= n)%nat ->
  length outcomes = (n * n)%nat -> length (List.filter event outcomes) = n ->
  (probability event outcomes == 1 # Pos.of_nat n)%Q.
Proof.
  intros Hn Hlen Hcount. unfold probability, Qeq. simpl. rewrite Hlen, Hcount.
  rewrite Nat2Pos.inj_mul, Pos2Z.inj_mul by lia.
  assert (H : Z.pos (Pos.of_nat n) = Z.of_nat n).
  { rewrite <- positive_nat_Z, Nat2Pos.id by lia. done. }
  rewrite H. lia.
Qed.

(** ** The randomizer, category by category *)

Lemma random_asset_removable (rnd : nat -> Float01) (k : nat) (c : Category.t) :
  Category.removable c = true ->
  let n := Z.of_nat (length (Category.assets c)) in
  fst (random_asset rnd k c)
  = removable_override (asset_at c (randInt 0 (n - 1) (rnd k)))
      (randInt 0 (n - 1) (rnd (S k))).
Proof. intros Hrem. unfold random_asset. by rewrite Hrem. Qed.

(** The index is [0] exactly when the binary64 product is below [1]. *)
Lemma randInt_zero (n : Z) (x : Float01) :
  1 <= n -> randInt 0 (n - 1) x = 0 <-> (b64_mul x n < 1)%Q.
Proof.
  intros Hn. rewrite randInt_eq. split; [by intros [_ ?]|].
  intros Hlt. split; [|done].
  pose proof (randInt_range n x Hn) as [Hlo _].
  destruct (proj1 (randInt_eq n x _) eq_refl) as [Hle _].
  eapply Qle_trans; [|exact Hle]. change (inject_Z 0 <= inject_Z (randInt 0 (n - 1) x))%Q.
  by rewrite <- Zle_Qle.
Qed.

(** With a single asset the second draw is always [0]: a removable category
    with one asset always ends up without asset. *)
Lemma single_asset_always_none (rnd : nat -> Float01) (k : nat) (c : Category.t) :
  Category.removable c = true ->
  length (Category.assets c) = 1%nat ->
  fst (random_asset rnd k c) = AssetNull.
Proof.
  intros Hrem Hlen. rewrite random_asset_removable by done. rewrite Hlen.
  change (Z.of_nat 1) with 1. by rewrite !randInt_single.
Qed.

Lemma color_at_in_range (cs : list string) (i : Z) :
  0 <= i < Z.of_nat (length cs) ->
  exists col, cs !! Z.to_nat i = Some col /\ color_at cs i = ColorString col.
Proof.
  intros Hi. unfold color_at, js_index. rewrite decide_True by lia.
  destruct (lookup_lt_is_Some_2 cs (Z.to_nat i)) as [col Hcol]; [lia|].
  exists col. by rewrite Hcol.
Qed.

Lemma color_at_nil (i : Z) : color_at [] i = ColorUndefined.
Proof. unfold color_at, js_index. by destruct (decide (0 <= i)). Qed.

Lemma seed_selection_color (o : CustObj) (c : Category.t) :
  color <$> entry_of (Category.name c) (seed_selection o c)
  = Some (ColorString (first_color c)).
Proof.
  unfold seed_selection. destruct (decide (Category.startingAsset c = "")).
  - by rewrite entry_of_assign_eq.
  - erewrite entry_of_assign_asset_eq by apply entry_of_assign_eq. done.
Qed.

Section RandomizeCompletion.
Context `{Three}.

Lemma refs_resolve_assign (cats : list Category.t) (o : CustObj)
    (k : string) (sel : Selection) :
  selection_refs_resolve cats sel = true ->
  refs_resolve cats (fst o) = true -> refs_resolve cats (fst (assign_entry k sel o)) = true.
Proof.
  intros Hsel Hres. unfold assign_entry.
  destruct (bool_decide (k = "__proto__") && negb (JSObj.has k (fst o))); simpl; [done|].
  by apply refs_resolve_set.
Qed.

Lemma randomize_loop_resolves (rnd : nat -> Float01) (cats all : list Category.t)
    (o : CustObj) (sk : SkinColor) (n : nat) :
  (forall c, c ∈ cats -> forallb (asset_refs_resolve all) (Category.assets c) = true) ->
  refs_resolve all (fst o) = true ->
  refs_resolve all (fst (fst (fst (randomize_loop rnd cats (o, sk, n))))) = true.
Proof.
  revert o sk n. induction cats as [|c cats IH]; intros o sk n Hcat Hres; [done|].
  rewrite randomize_loop_cons, randomize_category_spec. apply IH.
  - intros c' Hin. by apply Hcat, list_elem_of_further.
  - apply refs_resolve_assign; [|done].
    unfold selection_refs_resolve. rewrite random_selection_asset.
    destruct (random_asset_cases rnd n c) as [Hnone|(a & Hin & ->)].
    + by destruct (fst (random_asset rnd n c)).
    + specialize (Hcat c (list_elem_of_here _ _)). rewrite forallb_true in Hcat.
      by apply Hcat.
Qed.

Lemma randomize_completes (rnd : nat -> Float01) (s : Store) :
  catalog_refs_resolve (categories s) = true -> snd (randomize rnd s) = Normal.
Proof.
  intros Hcat. unfold randomize. apply applyLockedAssets_normal.
  rewrite randomize_set_categories.
  assert (customization (randomize_set rnd s)
          = fst (fst (fst (randomize_loop rnd (categories s) (([], None), skin s, 0%nat))))) as ->.
  { unfold randomize_set. by destruct (randomize_loop _ _ _) as [[[own proto] sk] n]. }
  apply randomize_loop_resolves; [|done].
  unfold catalog_refs_resolve in Hcat. rewrite forallb_true in Hcat. apply Hcat.
Qed.

(** [randomize] throws exactly when the recomputation of the map does, on
    the customization that the loop has built. *)
Lemma randomize_throws (rnd : nat -> Float01) (s : Store) :
  snd (randomize rnd s) = ThrowTypeError <->
  dangling (categories s) (customization (fst (randomize rnd s))) \/
  locks_inherited_name (categories s) (customization (fst (randomize rnd s))).
Proof.
  rewrite <- refs_resolve_false. unfold randomize.
  destruct (applyLockedAssets_frame (randomize_set rnd s)) as (_ & _ & _ & _ & -> & _).
  rewrite applyLockedAssets_throws. by rewrite randomize_set_categories.
Qed.

Lemma randomize_completion (rnd : nat -> Float01) (s : Store) :
  snd (randomize rnd s) = Normal \/ snd (randomize rnd s) = ThrowTypeError.
Proof. destruct (snd (randomize rnd s)); [by left | by right]. Qed.
End RandomizeCompletion.

(** * The randomizer *)

(** C4, on a removable category with three assets: the probability that
    [randomize] selects none is one third, not one half, and a second draw
    of 0.4, in the lower half, keeps the asset. On the removable category
    Hat with its single asset, [randomize] selects none whatever the
    draws. *)
Lemma randomize_removable_not_half :
  Category.removable Sample.wardrobe_top = true /\
  length (Category.assets Sample.wardrobe_top) = 3%nat /\
  (probability is_none (asset_outcomes Sample.wardrobe_top) == 1 # 3)%Q /\
  ~ (probability is_none (asset_outcomes Sample.wardrobe_top) == 1 # 2)%Q /\
  (float01_value Sample.two_fifths < 1 # 2)%Q /\
  customization_read "Top"
    (fst (@randomize Sample.styles (fun _ => Sample.two_fifths) Sample.wardrobe))
  = ReadEntry {| asset := AssetObj Sample.coat; color := ColorUndefined |} /\
  Category.removable Sample.loaded_hat = true /\
  length (Category.assets Sample.loaded_hat) = 1%nat /\
  (forall rnd, exists sel,
     customization_read "Hat" (fst (@randomize Sample.styles rnd Sample.loaded))
     = ReadEntry sel /\ asset sel = AssetNull).
Proof.
  split; [reflexivity|]. split; [reflexivity|].
  split; [vm_compute; reflexivity|].
  split; [intros E; vm_compute in E; discriminate|].
  split; [reflexivity|].
  split; [vm_compute; reflexivity|].
  split; [reflexivity|]. split; [reflexivity|].
  intros rnd. eexists. split.
  - change "Hat" with (Category.name Sample.loaded_hat).
    apply (@randomize_entry Sample.styles rnd Sample.loaded [Sample.loaded_head] []
             Sample.loaded_hat).
    + vm_compute. reflexivity.
    + by_compute.
  - rewrite random_selection_asset. by rewrite single_asset_always_none.
Qed.

Section Randomizer.
Context `{Three}.

(** C4, as the code has it. For a removable category with [n >= 1] assets
    that is the last of its name, [randomize] draws a first index [i] and a
    second index [j], each the floor of the binary64 product of a value of
    [Math.random()] and [n], both in [0 .. n-1]. It selects none exactly
    when [j] is [0], that is when the second product is below [1];
    otherwise it keeps the asset at [i]. Of the [n * n] pairs of indices,
    [n] give none: with equally likely pairs the probability of none is
    [1/n]. For [n] below [2^26] every index is the result of some value of
    [Math.random()]. *)
Theorem randomize_removable (rnd : nat -> Float01) (s : Store)
    (pre post : list Category.t) (c : Category.t) :
  categories s = pre ++ c :: post ->
  Category.name c ∉ map Category.name post ->
  Category.removable c = true ->
  (1 <= length (Category.assets c))%nat ->
  let n := Z.of_nat (length (Category.assets c)) in
  let x1 := rnd (draws_before pre) in
  let x2 := rnd (S (draws_before pre)) in
  let i := randInt 0 (n - 1) x1 in
  let j := randInt 0 (n - 1) x2 in
  exists sel,
    customization_read (Category.name c) (fst (randomize rnd s)) = ReadEntry sel /\
    (0 <= i < n /\ (inject_Z i <= b64_mul x1 n)%Q /\ (b64_mul x1 n < inject_Z (i + 1))%Q) /\
    (0 <= j < n /\ (inject_Z j <= b64_mul x2 n)%Q /\ (b64_mul x2 n < inject_Z (j + 1))%Q) /\
    (asset sel = AssetNull <-> j = 0) /\
    (asset sel = AssetNull <-> (b64_mul x2 n < 1)%Q) /\
    (asset sel ≠ AssetNull ->
     exists a, Category.assets c !! Z.to_nat i = Some a /\ asset sel = AssetObj a) /\
    asset sel ∈ asset_outcomes c /\
    (probability is_none (asset_outcomes c) == 1 # Pos.of_nat (length (Category.assets c)))%Q /\
    (n < 2 ^ 26 -> forall k, 0 <= k < n -> exists x, randInt 0 (n - 1) x = k).
Proof.
  intros Hcats Hpost Hrem Hn n x1 x2 i j.
  exists (random_selection rnd (draws_before pre) c).
  split; [by apply (randomize_entry rnd s pre post)|].
  rewrite random_selection_asset, random_asset_removable by done.
  fold n x1 x2 i j.
  assert (Hn1 : 1 <= n) by (subst n; lia).
  pose proof (randInt_range n x1 Hn1) as Hi.
  pose proof (randInt_range n x2 Hn1) as Hj.
  fold i in Hi. fold j in Hj.
  destruct (asset_at_in_range c i Hi) as (a & Ha & Hat).
  rewrite Hat. unfold removable_override.
  split; [split; [done|]; by apply randInt_eq|].
  split; [split; [done|]; by apply randInt_eq|].
  split; [destruct (decide (j = 0)); split; done|].
  split.
  { rewrite <- (randInt_zero n x2) by done. fold j.
    destruct (decide (j = 0)); split; done. }
  split.
  { destruct (decide (j = 0)); [done|]. intros _. by exists a. }
  split.
  { unfold asset_outcomes. rewrite Hrem. fold n.
    apply list_elem_of_bind. exists i. split; [|apply randInt_outcomes_elem; done].
    apply list_elem_of_bind. exists j. split; [|apply randInt_outcomes_elem; done].
    rewrite Hat. apply list_elem_of_here. }
  split.
  { destruct (removable_none_count c Hrem Hn) as [Hlen Hcount].
    by apply probability_one_in. }
  intros Hsmall k Hk. apply randInt_onto; lia.
Qed.

(** C5, as the code has it. After [randomize] the color of a category that
    is the last of its name and has a non-empty palette of [m] colors is the
    palette entry at the drawn index: the entry at [i] is chosen exactly
    when the binary64 product of [Math.random()] and [m] falls in
    [[i, i+1)]; every index is one of the [m] outcomes, and for [m] below
    [2^26] the result of some value of [Math.random()]. For a category
    without palette, or with an empty one, the color is [undefined]; the
    loop body of the initial load gives such a category the empty string
    instead. *)
Theorem randomize_color (rnd : nat -> Float01) (s : Store)
    (pre post : list Category.t) (c : Category.t) :
  categories s = pre ++ c :: post ->
  Category.name c ∉ map Category.name post ->
  exists sel,
    customization_read (Category.name c) (fst (randomize rnd s)) = ReadEntry sel /\
    match Category.colors c with
    | Some (c0 :: cs) =>
        let palette := c0 :: cs in
        let m := Z.of_nat (length palette) in
        let x := rnd (color_draw (draws_before pre) c) in
        (exists i col,
           0 <= i < m /\ palette !! Z.to_nat i = Some col /\
           color sel = ColorString col /\
           (inject_Z i <= b64_mul x m)%Q /\ (b64_mul x m < inject_Z (i + 1))%Q) /\
        (forall i, 0 <= i < m ->
           (probability (fun o => bool_decide (o = i)) (randInt_outcomes 0 (m - 1))
            == 1 # Pos.of_nat (length palette))%Q) /\
        (m < 2 ^ 26 -> forall i, 0 <= i < m -> exists x', randInt 0 (m - 1) x' = i)
    | _ =>
        color sel = ColorUndefined /\
        (forall o,
           color <$> entry_of (Category.name c) (seed_selection o c)
           = Some (ColorString ""))
    end.
Proof.
  intros Hcats Hpost.
  exists (random_selection rnd (draws_before pre) c).
  split; [by apply (randomize_entry rnd s pre post)|].
  rewrite random_selection_color. unfold random_color.
  pose proof (seed_selection_color) as Hseed. unfold first_color in Hseed.
  destruct (Category.colors c) as [[|c0 cs]|] eqn:Ecol.
  - split; [apply color_at_nil|].
    intros o. specialize (Hseed o c). by rewrite Ecol in Hseed.
  - simpl fst. set (m := Z.of_nat (length (c0 :: cs))).
    set (x := rnd (color_draw (draws_before pre) c)) in *.
    assert (Hm : 1 <= m) by (subst m; simpl; lia).
    pose proof (randInt_range m x Hm) as Hi.
    destruct (color_at_in_range (c0 :: cs) (randInt 0 (m - 1) x) Hi) as (col & Hcol & Hat).
    split; [|split].
    + exists (randInt 0 (m - 1) x), col. split; [done|]. split; [done|]. split; [done|].
      by apply randInt_eq.
    + intros i Hi'. unfold probability, Qeq. simpl Qnum. simpl Qden.
      rewrite count_one.
      * subst m. rewrite randInt_outcomes_length by (simpl; lia). simpl length. lia.
      * apply NoDup_seqZ.
      * subst m. apply randInt_outcomes_elem; [simpl; lia | done].
    + intros Hsmall i Hi'. apply randInt_onto; lia.
  - split; [done|]. intros o. specialize (Hseed o c). by rewrite Ecol in Hseed.
Qed.

(** C8, as the code has it. For a category without assets the index is [0]
    whatever [Math.random()] returns, [assets[0]] reads [undefined], and the
    selection that the loop stores under the name of the category holds no
    asset: [null] if the category is removable, [undefined] if not. It is
    the entry of that name after [randomize] when the category is the last
    of its name. [randomize] throws exactly when the recomputation of the
    map does, and completes on a catalog whose assets have locked groups
    that resolve. *)
Theorem randomize_zero_assets (rnd : nat -> Float01) (s : Store)
    (pre post : list Category.t) (c : Category.t) :
  categories s = pre ++ c :: post ->
  Category.assets c = [] ->
  let none := if Category.removable c then AssetNull else AssetUndefined in
  let r := randomize rnd s in
  (forall x, randInt 0 (Z.of_nat (length (Category.assets c)) - 1) x = 0) /\
  (forall i, asset_at c i = AssetUndefined) /\
  (exists sel,
     entry_of (Category.name c)
       (fst (fst (randomize_loop rnd (pre ++ [c]) (([], None), skin s, 0%nat))))
     = Some sel /\
     asset sel = none /\ is_none (asset sel) = true) /\
  (Category.name c ∉ map Category.name post ->
   exists sel,
     customization_read (Category.name c) (fst r) = ReadEntry sel /\
     asset sel = none /\ is_none (asset sel) = true) /\
  (snd r = ThrowTypeError <->
   dangling (categories s) (customization (fst r)) \/
   locks_inherited_name (categories s) (customization (fst r))) /\
  (snd r = Normal \/ snd r = ThrowTypeError) /\
  (catalog_refs_resolve (categories s) = true -> snd r = Normal).
Proof.
  intros Hcats Hempty none r.
  assert (Hsel : forall n, asset (random_selection rnd n c) = none /\
                           is_none (asset (random_selection rnd n c)) = true).
  { intros n. rewrite random_selection_asset. unfold random_asset, asset_at. rewrite Hempty.
    simpl length. change (Z.of_nat 0) with 0. rewrite !randInt_empty.
    subst none. destruct (Category.removable c); simpl; done. }
  split; [intros x; rewrite Hempty; apply randInt_empty|].
  split.
  { intros i. unfold asset_at, js_index. rewrite Hempty.
    destruct (decide (0 <= i)); [|done]. by rewrite lookup_nil. }
  split.
  { eexists. split; [apply randomize_loop_entry_here|]. apply Hsel. }
  split.
  { intros Hpost. eexists. split; [by apply (randomize_entry rnd s pre post)|]. apply Hsel. }
  split; [apply randomize_throws|].
  split; [apply randomize_completion|].
  apply randomize_completes.
Qed.
End Randomizer.

Lemma randomize_removable_witness :
  let n := Z.of_nat (length (Category.assets Sample.wardrobe_top)) in
  let rnd := fun _ : nat => Sample.two_fifths in
  let i := randInt 0 (n - 1) Sample.two_fifths in
  let j := randInt 0 (n - 1) Sample.two_fifths in
  exists sel,
    customization_read "Top" (fst (@randomize Sample.styles rnd Sample.wardrobe))
    = ReadEntry sel /\
    (0 <= i < n /\ (inject_Z i <= b64_mul Sample.two_fifths n)%Q /\
     (b64_mul Sample.two_fifths n < inject_Z (i + 1))%Q) /\
    (0 <= j < n /\ (inject_Z j <= b64_mul Sample.two_fifths n)%Q /\
     (b64_mul Sample.two_fifths n < inject_Z (j + 1))%Q) /\
    (asset sel = AssetNull <-> j = 0) /\
    (asset sel = AssetNull <-> (b64_mul Sample.two_fifths n < 1)%Q) /\
    (asset sel ≠ AssetNull ->
     exists a, Category.assets Sample.wardrobe_top !! Z.to_nat i = Some a /\
               asset sel = AssetObj a) /\
    asset sel ∈ asset_outcomes Sample.wardrobe_top /\
    (probability is_none (asset_outcomes Sample.wardrobe_top) == 1 # 3)%Q /\
    (n < 2 ^ 26 -> forall k, 0 <= k < n -> exists x, randInt 0 (n - 1) x = k).
Proof.
  apply (@randomize_removable Sample.styles (fun _ => Sample.two_fifths) Sample.wardrobe
           [Sample.wardrobe_head; Sample.wardrobe_hat] [Sample.wardrobe_glasses]
           Sample.wardrobe_top).
  - vm_compute. reflexivity.
  - by_compute.
  - reflexivity.
  - vm_compute. lia.
Defined.

(** C5, on the catalog of Head and Hat: Head has no palette; its color is
    the empty string after the initial load and [undefined] after
    [randomize], so the two do not match. *)
Lemma randomize_color_differs_from_initial :
  Category.colors Sample.loaded_head = None /\
  customization_read "Head" Sample.loaded
  = ReadEntry {| asset := AssetObj Sample.face; color := ColorString "" |} /\
  customization_read "Head"
    (fst (@randomize Sample.styles (fun _ => Sample.zero) Sample.loaded))
  = ReadEntry {| asset := AssetObj Sample.face; color := ColorUndefined |} /\
  ColorUndefined ≠ ColorString "".
Proof.
  split; [reflexivity|]. split; [vm_compute; reflexivity|].
  split; [vm_compute; reflexivity | done].
Qed.

Lemma randomize_color_witness :
  exists sel,
    customization_read "Hat"
      (fst (@randomize Sample.styles (fun _ => Sample.two_thirds) Sample.loaded))
    = ReadEntry sel /\
    (exists i col,
       0 <= i < 2 /\ ["red"; "blue"] !! Z.to_nat i = Some col /\
       color sel = ColorString col /\
       (inject_Z i <= b64_mul Sample.two_thirds 2)%Q /\
       (b64_mul Sample.two_thirds 2 < inject_Z (i + 1))%Q) /\
    (forall i, 0 <= i < 2 ->
       (probability (fun o => bool_decide (o = i)) (randInt_outcomes 0 (2 - 1)) == 1 # 2)%Q) /\
    (2 < 2 ^ 26 -> forall i, 0 <= i < 2 -> exists x', randInt 0 (2 - 1) x' = i).
Proof.
  apply (@randomize_color Sample.styles (fun _ => Sample.two_thirds) Sample.loaded
           [Sample.loaded_head] [] Sample.loaded_hat).
  - vm_compute. reflexivity.
  - by_compute.
Defined.

(** C8, on a catalog with two categories named Bag, the first without
    assets and the second with the single asset Tote: after [randomize] the
    selection under the name of the first category holds the Tote, whatever
    [Math.random()] returns. *)
Lemma randomize_zero_assets_overwritten :
  map Category.name (categories Sample.luggage) = ["Bag"; "Bag"] /\
  map Category.assets (categories Sample.luggage) = [[]; [Sample.tote]] /\
  (forall rnd, exists sel,
     customization_read "Bag" (fst (@randomize Sample.styles rnd Sample.luggage))
     = ReadEntry sel /\
     asset sel = AssetObj Sample.tote /\ is_none (asset sel) = false).
Proof.
  split; [reflexivity|]. split; [reflexivity|].
  intros rnd. eexists. split.
  - change "Bag" with (Category.name (attach_assets [Sample.tote] Sample.bag_full)).
    apply (@randomize_entry Sample.styles rnd Sample.luggage
             [attach_assets [Sample.tote] Sample.bag_empty] []
             (attach_assets [Sample.tote] Sample.bag_full)).
    + vm_compute. reflexivity.
    + by_compute.
  - rewrite random_selection_asset. unfold random_asset.
    change (Category.removable (attach_assets [Sample.tote] Sample.bag_full)) with false.
    change (Category.assets (attach_assets [Sample.tote] Sample.bag_full)) with [Sample.tote].
    cbn [length fst snd]. change (Z.of_nat 1) with 1. rewrite randInt_single.
    split; reflexivity.
Qed.

Lemma randomize_zero_assets_witness :
  let rnd := fun _ : nat => Sample.two_fifths in
  let r := @randomize Sample.styles rnd Sample.wardrobe in
  (forall x, randInt 0 (Z.of_nat (length (Category.assets Sample.wardrobe_glasses)) - 1) x = 0) /\
  (forall i, asset_at Sample.wardrobe_glasses i = AssetUndefined) /\
  (exists sel,
     entry_of "Glasses"
       (fst (fst (@randomize_loop Sample.styles rnd
                    ([Sample.wardrobe_head; Sample.wardrobe_hat; Sample.wardrobe_top]
                     ++ [Sample.wardrobe_glasses])
                    (([], None), skin Sample.wardrobe, 0%nat))))
     = Some sel /\
     asset sel = AssetUndefined /\ is_none (asset sel) = true) /\
  ("Glasses" ∉ map Category.name [] ->
   exists sel,
     customization_read "Glasses" (fst r) = ReadEntry sel /\
     asset sel = AssetUndefined /\ is_none (asset sel) = true) /\
  (snd r = ThrowTypeError <->
   dangling (categories Sample.wardrobe) (customization (fst r)) \/
   locks_inherited_name (categories Sample.wardrobe) (customization (fst r))) /\
  (snd r = Normal \/ snd r = ThrowTypeError) /\
  (catalog_refs_resolve (categories Sample.wardrobe) = true -> snd r = Normal).
Proof.
  apply (@randomize_zero_assets Sample.styles (fun _ => Sample.two_fifths) Sample.wardrobe
           [Sample.wardrobe_head; Sample.wardrobe_hat; Sample.wardrobe_top] []
           Sample.wardrobe_glasses).
  - vm_compute. reflexivity.
  - reflexivity.
Defined.

(** * Further properties of the store *)

(** ** What the suppression map holds *)

(** X1. Lock completeness: after [applyLockedAssets] has completed, every
    key of the map is the name of a loaded category, its list is not empty,
    and every entry of the list comes from a selected asset that names the
    id of such a category among its locked groups; the entry carries the
    name of that asset and of the category of the asset's group. *)
Theorem lock_completeness (s s' : Store) (n : string) (l : list LockEntry) :
  applyLockedAssets s = (s', Normal) ->
  lockedGroups s' !! n = Some l ->
  l ≠ [] /\
  (exists c, c ∈ categories s /\ Category.name c = n) /\
  forall e, e ∈ l ->
    exists k sel a groups g c owner,
      (k, sel) ∈ customization s /\ asset sel = AssetObj a /\
      Asset.lockedGroups a = Some groups /\ g ∈ groups /\
      names_category (categories s) g c /\ find_category (categories s) g = Some c /\
      Category.name c = n /\
      names_category (categories s) (Asset.group a) owner /\
      find_category (categories s) (Asset.group a) = Some owner /\
      e = {| lock_name := Asset.name a; lock_categoryName := Category.name owner |}.
Proof.
  unfold applyLockedAssets.
  destruct (compute_lockedGroups (categories s) (customization s)) as [lg|] eqn:E; [|done].
  intros [= <-] Hl. simpl in Hl.
  rewrite (compute_lockedGroups_lookup _ _ _ n E) in Hl.
  destruct (suppression_list (categories s) (customization s) n) as [|e0 l0] eqn:El; [done|].
  injection Hl as <-.
  assert (Hall : forall e, e ∈ e0 :: l0 ->
            exists k sel a groups g c owner,
              (k, sel) ∈ customization s /\ asset sel = AssetObj a /\
              Asset.lockedGroups a = Some groups /\ g ∈ groups /\
              names_category (categories s) g c /\ find_category (categories s) g = Some c /\
              Category.name c = n /\
              names_category (categories s) (Asset.group a) owner /\
              find_category (categories s) (Asset.group a) = Some owner /\
              e = {| lock_name := Asset.name a; lock_categoryName := Category.name owner |}).
  { intros e He. rewrite <- El in He. apply suppression_list_inv in He.
    destruct He as (k & sel & a & groups & g & c & owner & H1 & H2 & H3 & H4 & H5 & H6 & H7 & H8).
    exists k, sel, a, groups, g, c, owner.
    repeat (split; [done|]).
    split; [by rewrite find_category_category_of; apply category_of_Some|].
    split; [done|]. split; [done|].
    split; [by rewrite find_category_category_of; apply category_of_Some | done]. }
  split; [done|]. split; [|done].
  destruct (Hall e0 (list_elem_of_here _ _)) as (k & sel & a & groups & g & c & owner & H).
  destruct H as (_ & _ & _ & _ & Hc & _ & Hn & _).
  exists c. split; [|done]. apply category_of_Some in Hc. by apply category_of_elem in Hc as [? _].
Qed.

Lemma lock_completeness_witness :
  [{| lock_name := "Cap"; lock_categoryName := "Hat" |}] ≠ [] /\
  (exists c, c ∈ categories Sample.with_cap /\ Category.name c = "Head") /\
  forall e, e ∈ [{| lock_name := "Cap"; lock_categoryName := "Hat" |}] ->
    exists k sel a groups g c owner,
      (k, sel) ∈ customization Sample.with_cap /\ asset sel = AssetObj a /\
      Asset.lockedGroups a = Some groups /\ g ∈ groups /\
      names_category (categories Sample.with_cap) g c /\
      find_category (categories Sample.with_cap) g = Some c /\
      Category.name c = "Head" /\
      names_category (categories Sample.with_cap) (Asset.group a) owner /\
      find_category (categories Sample.with_cap) (Asset.group a) = Some owner /\
      e = {| lock_name := Asset.name a; lock_categoryName := Category.name owner |}.
Proof.
  apply (lock_completeness Sample.with_cap Sample.with_cap "Head").
  - vm_compute. reflexivity.
  - vm_compute. reflexivity.
Defined.

(** X2. Recomputing the suppression map a second time changes nothing: the
    store and the completion are those of the first recomputation. *)
Theorem applyLockedAssets_idempotent (s : Store) :
  applyLockedAssets (fst (applyLockedAssets s)) = applyLockedAssets s.
Proof.
  destruct (compute_lockedGroups (categories s) (customization s)) as [lg|] eqn:E.
  - rewrite (applyLockedAssets_Some _ _ E). simpl. by apply applyLockedAssets_again.
  - rewrite (applyLockedAssets_None _ E). simpl. by apply applyLockedAssets_None.
Qed.

(** ** updateColor and the suppression map *)

Lemma lock_selection_asset (cats : list Category.t) (lg : gmap string (list LockEntry))
    (sel sel' : Selection) :
  asset sel = asset sel' -> lock_selection cats lg sel = lock_selection cats lg sel'.
Proof. unfold lock_selection. by intros ->. Qed.

Lemma lock_selection_no_asset (cats : list Category.t) (lg : gmap string (list LockEntry))
    (sel : Selection) :
  (forall a, asset sel ≠ AssetObj a) -> lock_selection cats lg sel = Some lg.
Proof.
  intros Hno. unfold lock_selection. destruct (asset sel) as [| |a] eqn:E; try done.
  by destruct (Hno a).
Qed.

Lemma locks_replace_same_asset (cats : list Category.t) (k : string) (sel' : Selection)
    (o : JSObj.t Selection) (lg : gmap string (list LockEntry)) :
  (forall sel, JSObj.get k o = Some sel -> asset sel' = asset sel) ->
  forEach_throw (lock_selection cats) (JSObj.values (JSObj.replace k sel' o)) lg
  = forEach_throw (lock_selection cats) (JSObj.values o) lg.
Proof.
  revert lg. induction o as [|[k0 v0] o IH]; intros lg Hasset; [done|]. simpl.
  destruct (decide (k0 = k)) as [->|Hne]; simpl.
  - rewrite (lock_selection_asset cats lg sel' v0); [done|].
    apply Hasset. rewrite get_cons. by rewrite decide_True.
  - destruct (lock_selection cats lg v0); [|done]. apply IH.
    intros sel Hsel. apply Hasset. rewrite get_cons. by rewrite decide_False.
Qed.

Lemma locks_add_no_asset (cats : list Category.t) (k : string) (sel' : Selection)
    (o : JSObj.t Selection) (lg : gmap string (list LockEntry)) :
  (forall a, asset sel' ≠ AssetObj a) ->
  forEach_throw (lock_selection cats) (JSObj.values (JSObj.add k sel' o)) lg
  = forEach_throw (lock_selection cats) (JSObj.values o) lg.
Proof.
  intros Hasset. revert lg. induction o as [|[k0 v0] o IH]; intros lg; simpl.
  - by rewrite lock_selection_no_asset.
  - destruct (JSObj.key_precedes k0 k); simpl.
    + destruct (lock_selection cats lg v0); [|done]. apply IH.
    + by rewrite lock_selection_no_asset.
Qed.

(** Storing an entry with the asset that the key had, or without asset
    under a new key, does not change what [applyLockedAssets] computes. *)
Lemma compute_set_same_asset (cats : list Category.t) (k : string) (sel' : Selection)
    (o : JSObj.t Selection) :
  match JSObj.get k o with
  | Some sel => asset sel' = asset sel
  | None => forall a, asset sel' ≠ AssetObj a
  end ->
  compute_lockedGroups cats (JSObj.set k sel' o) = compute_lockedGroups cats o.
Proof.
  intros Hasset. unfold compute_lockedGroups, JSObj.set.
  destruct (JSObj.has k o) eqn:E.
  - apply locks_replace_same_asset. intros sel Hsel. by rewrite Hsel in Hasset.
  - apply locks_add_no_asset. apply has_false, get_None_keys in E. by rewrite E in Hasset.
Qed.

Section ColorFrame.
Context `{Three}.

(** X3. [updateColor] and the suppression map: [updateColor] throws and
    changes nothing when no category is current. Otherwise it completes and
    changes only the color of the current category's entry; it leaves
    [lockedGroups] alone, and rightly so when the entry is an own property
    of [customization] or holds no asset: the map that [applyLockedAssets]
    would compute from the new customization is the one it would compute
    from the old. *)
Theorem updateColor_frame (v : JSColor) (s : Store) :
  let r := updateColor v s in
  (snd r = Normal <-> is_Some (currentCategory s)) /\
  (currentCategory s = None -> r = (s, ThrowTypeError)) /\
  categories (fst r) = categories s /\
  currentCategory (fst r) = currentCategory s /\
  lockedGroups (fst r) = lockedGroups s /\
  (forall cur, currentCategory s = Some cur ->
     JSObj.get (Category.name cur) (customization (fst r))
     = Some {| asset := asset (selection_at (Category.name cur) s); color := v |} /\
     (forall k, k ≠ Category.name cur ->
        JSObj.get k (customization (fst r)) = JSObj.get k (customization s)) /\
     (Category.name cur ∈ JSObj.keys (customization s) \/
      (forall a, asset (selection_at (Category.name cur) s) ≠ AssetObj a) ->
      compute_lockedGroups (categories (fst r)) (customization (fst r))
      = compute_lockedGroups (categories s) (customization s))).
Proof.
  unfold updateColor. destruct (currentCategory s) as [cur|] eqn:Ecur.
  - assert (Hcomp : Category.name cur ∈ JSObj.keys (customization s) \/
                    (forall a, asset (selection_at (Category.name cur) s) ≠ AssetObj a) ->
              compute_lockedGroups (categories s)
                (JSObj.set (Category.name cur)
                   (with_color (selection_at (Category.name cur) s) v)
                   (customization s))
              = compute_lockedGroups (categories s) (customization s)).
    { intros Hown. apply compute_set_same_asset.
      destruct (JSObj.get (Category.name cur) (customization s)) as [sel|] eqn:E.
      - by rewrite (selection_at_own _ _ _ E).
      - destruct Hown as [Hk|Hno]; [by apply get_None_keys in E | done]. }
    destruct (decide (Category.name cur = "Head")); simpl;
      (split; [split; [by eauto | done]|]; split; [done|];
       split; [done|]; split; [done|]; split; [done|];
       intros cur' [= <-]; split; [apply get_set_eq|];
       split; [intros k Hk; by apply get_set_ne | exact Hcomp]).
  - simpl. split; [split; [done | by intros [? ?]]|]. split; [done|].
    do 3 (split; [done|]). intros cur' E. discriminate E.
Qed.
End ColorFrame.

(** [updateColor] on a category named "__proto__" whose entry the load made
    the prototype of [customization]: the call defines an own property
    that holds the asset of the prototype, the Halo, which locks Head. The
    map is not recomputed and has no key for Head. *)
Example updateColor_proto_entry :
  let s := setCurrentCategory Sample.shrine_aura Sample.shrine in
  let r := @updateColor Sample.styles (ColorString "green") s in
  JSObj.keys (customization s) = ["Head"] /\
  JSObj.keys (customization (fst r)) = ["Head"; "__proto__"] /\
  lockedGroups (fst r) = ∅ /\
  compute_lockedGroups (categories s) (customization s) = Some ∅ /\
  compute_lockedGroups (categories (fst r)) (customization (fst r))
  = Some {[ "Head" := [{| lock_name := "Halo"; lock_categoryName := "__proto__" |}] ]}.
Proof. vm_compute. done. Qed.

Lemma replace_comm {V : Type} (k n : string) (x y : V) (o : JSObj.t V) :
  k ≠ n ->
  JSObj.replace k x (JSObj.replace n y o) = JSObj.replace n y (JSObj.replace k x o).
Proof.
  intros Hne. induction o as [|[k0 v0] o IH]; [done|]. simpl.
  destruct (decide (k0 = n)) as [En|Hn], (decide (k0 = k)) as [Ek|Hk]; simpl.
  - congruence.
  - subst k0. repeat case_decide; congruence.
  - subst k0. repeat case_decide; congruence.
  - repeat case_decide; try congruence.
Qed.

Lemma set_comm_present {V : Type} (k n : string) (x y : V) (o : JSObj.t V) :
  k ≠ n -> k ∈ JSObj.keys o -> n ∈ JSObj.keys o ->
  JSObj.set k x (JSObj.set n y o) = JSObj.set n y (JSObj.set k x o).
Proof.
  intros Hne Hk Hn. unfold JSObj.set.
  rewrite (proj2 (has_true k o) Hk), (proj2 (has_true n o) Hn).
  rewrite (proj2 (has_true k _)) by (by rewrite keys_replace).
  rewrite (proj2 (has_true n _)) by (by rewrite keys_replace).
  by apply replace_comm.
Qed.

Lemma selection_at_set_ne (k n : string) (sel : Selection) (s : Store) :
  k ≠ n -> n ∈ JSObj.keys (customization s) ->
  selection_at n (set_customization (JSObj.set k sel (customization s)) None s)
  = selection_at n s.
Proof.
  intros Hne Hn. destruct (JSObj.get n (customization s)) as [x|] eqn:E.
  - rewrite (selection_at_own n s x E). apply selection_at_own. simpl.
    by rewrite get_set_ne.
  - by apply get_None_keys in E.
Qed.

Section Commute.
Context `{Three}.

(** X4. Setting the asset of one category and the color of another commute:
    when the current category and the key [k] are distinct keys of
    [customization], [changeAsset(k, a)] followed by [updateColor(v)] leaves
    the store that [updateColor(v)] followed by [changeAsset(k, a)] leaves,
    and [changeAsset] completes in the one order iff it does in the
    other. *)
Theorem changeAsset_updateColor_commute (s : Store) (cur : Category.t) (k : string)
    (a : AssetRef) (v : JSColor) :
  currentCategory s = Some cur ->
  k ≠ Category.name cur ->
  k ∈ JSObj.keys (customization s) ->
  Category.name cur ∈ JSObj.keys (customization s) ->
  fst (updateColor v (fst (changeAsset k a s)))
  = fst (changeAsset k a (fst (updateColor v s))) /\
  snd (updateColor v (fst (changeAsset k a s))) = Normal /\
  snd (changeAsset k a (fst (updateColor v s))) = snd (changeAsset k a s).
Proof.
  intros Ecur Hne Hk Hn.
  set (n := Category.name cur) in *.
  set (wa := with_asset (selection_at k s) a).
  set (wc := with_color (selection_at n s) v).
  assert (Hcust : JSObj.set n wc (JSObj.set k wa (customization s))
                  = JSObj.set k wa (JSObj.set n wc (customization s)))
    by (by apply set_comm_present).
  assert (Hcomp : compute_lockedGroups (categories s)
                    (JSObj.set k wa (JSObj.set n wc (customization s)))
                  = compute_lockedGroups (categories s) (JSObj.set k wa (customization s))).
  { rewrite <- Hcust. apply compute_set_same_asset. rewrite get_set_ne by done.
    destruct (JSObj.get n (customization s)) as [x|] eqn:E.
    - subst wc. by rewrite (selection_at_own n s x E).
    - by apply get_None_keys in E. }
  rewrite (updateColor_Some v s cur Ecur). fold n wc. cbn [fst].
  unfold changeAsset, changeAsset_set, applyLockedAssets.
  cbn [categories customization set_skin set_customization].
  assert (HselB : forall sk, selection_at k (set_skin sk
                    (set_customization (JSObj.set n wc (customization s)) None s))
                  = selection_at k s).
  { intros sk. rewrite <- (selection_at_set_ne n k wc s) by done.
    rewrite !selection_at_spec. done. }
  rewrite HselB. fold wa. rewrite Hcomp.
  destruct (compute_lockedGroups (categories s) (JSObj.set k wa (customization s)))
    as [lg|]; cbn [fst snd];
    (erewrite updateColor_Some by (simpl; exact Ecur)); cbn [fst snd]; fold n.
  - assert (HselA : selection_at n (set_lockedGroups lg
                      (set_customization (JSObj.set k wa (customization s)) None s))
                    = selection_at n s).
    { rewrite <- (selection_at_set_ne k n wa s) by done. rewrite !selection_at_spec. done. }
    rewrite HselA. fold wc. simpl. rewrite Hcust. done.
  - assert (HselA : selection_at n
                      (set_customization (JSObj.set k wa (customization s)) None s)
                    = selection_at n s) by (by apply selection_at_set_ne).
    rewrite HselA. fold wc. simpl. rewrite Hcust. done.
Qed.
End Commute.

Lemma changeAsset_updateColor_commute_witness :
  fst (@updateColor Sample.styles (ColorString "blue")
         (fst (changeAsset "Head" AssetUndefined
                 (setCurrentCategory Sample.loaded_hat Sample.with_cap))))
  = fst (changeAsset "Head" AssetUndefined
           (fst (@updateColor Sample.styles (ColorString "blue")
                   (setCurrentCategory Sample.loaded_hat Sample.with_cap)))) /\
  snd (@updateColor Sample.styles (ColorString "blue")
         (fst (changeAsset "Head" AssetUndefined
                 (setCurrentCategory Sample.loaded_hat Sample.with_cap)))) = Normal /\
  snd (changeAsset "Head" AssetUndefined
         (fst (@updateColor Sample.styles (ColorString "blue")
                 (setCurrentCategory Sample.loaded_hat Sample.with_cap))))
  = snd (changeAsset "Head" AssetUndefined
           (setCurrentCategory Sample.loaded_hat Sample.with_cap)).
Proof.
  apply (@changeAsset_updateColor_commute Sample.styles
           (setCurrentCategory Sample.loaded_hat Sample.with_cap) Sample.loaded_hat).
  - reflexivity.
  - by_compute.
  - by_compute.
  - by_compute.
Defined.

(** ** The initial load *)






Lemma find_starting_asset_Some (c : Category.t) (a : Asset.t) :
  find_starting_asset c = AssetObj a ->
  a ∈ Category.assets c /\ Asset.id a = Category.startingAsset c.
Proof.
  unfold find_starting_asset.
  destruct (List.find _ (Category.assets c)) as [b|] eqn:E; [|done].
  intros [= ->]. apply find_some in E as [Hin Hid].
  split; [by apply list_elem_of_In | by apply bool_decide_eq_true in Hid].
Qed.



Lemma attach_assets_elem (fa : list Asset.t) (c : Category.t) (a : Asset.t) :
  a ∈ Category.assets (attach_assets fa c) <-> a ∈ fa /\ Asset.group a = Category.id c.
Proof.
  unfold attach_assets. simpl. rewrite list_elem_of_In, filter_In, <- list_elem_of_In.
  by rewrite bool_decide_eq_true.
Qed.

Lemma fetchCategories_object (fc : list Category.t) (fa : list Asset.t) (s : Store) :
  (customization (fst (fetchCategories fc fa s)),
   customization_proto (fst (fetchCategories fc fa s)))
  = foldl seed_selection ([], None) (map (attach_assets fa) fc).
Proof.
  rewrite fetchCategories_customization, fetchCategories_proto.
  by destruct (foldl seed_selection _ _).
Qed.



(** The load of a category named "__proto__": its selection is what
    [customization["__proto__"]] reads, and no own property. *)
Example load_selection_proto :
  customization_read "__proto__" Sample.shrine
  = ReadEntry {| asset := AssetObj Sample.halo; color := ColorString "green" |} /\
  JSObj.get "__proto__" (customization Sample.shrine) = None.
Proof. vm_compute. done. Qed.

(** ** Stores that fit their catalog *)

Lemma entries_set {V : Type} (P : string -> V -> Prop) (k0 : string) (v0 : V)
    (o : JSObj.t V) :
  (forall k v, (k, v) ∈ o -> P k v) -> P k0 v0 ->
  forall k v, (k, v) ∈ JSObj.set k0 v0 o -> P k v.
Proof.
  intros Ho H0 k v Hin. apply elem_set_inv in Hin as [[-> ->]|Hin]; [done | by apply Ho].
Qed.

Lemma entry_ok_empty (cats : list Category.t) (k : string) :
  entry_ok cats k empty_selection.
Proof. unfold entry_ok. simpl. done. Qed.

Lemma entry_ok_with_asset (cats : list Category.t) (c : Category.t) (sel : Selection)
    (a : Asset.t) :
  c ∈ cats -> a ∈ Category.assets c -> entry_ok cats (Category.name c) sel ->
  entry_ok cats (Category.name c) (with_asset sel (AssetObj a)).
Proof.
  intros Hc Ha (_ & _ & Hcol). unfold entry_ok. simpl.
  split; [intros b [= <-]; by exists c|]. split; [done | exact Hcol].
Qed.

Lemma entry_ok_with_null (cats : list Category.t) (c : Category.t) (sel : Selection) :
  c ∈ cats -> Category.removable c = true -> entry_ok cats (Category.name c) sel ->
  entry_ok cats (Category.name c) (with_asset sel AssetNull).
Proof.
  intros Hc Hr (_ & _ & Hcol). unfold entry_ok. simpl.
  split; [done|]. split; [intros _; by exists c | exact Hcol].
Qed.

Lemma entry_ok_with_undefined (cats : list Category.t) (k : string) (sel : Selection) :
  entry_ok cats k sel -> entry_ok cats k (with_asset sel AssetUndefined).
Proof. intros (_ & _ & Hcol). unfold entry_ok. simpl. done. Qed.

Lemma entry_ok_with_color (cats : list Category.t) (c : Category.t) (sel : Selection)
    (cs : list string) (x : string) :
  c ∈ cats -> Category.colors c = Some cs -> x ∈ cs ->
  entry_ok cats (Category.name c) sel ->
  entry_ok cats (Category.name c) (with_color sel (ColorString x)).
Proof.
  intros Hc Hcs Hx (Ha & Hn & _). unfold entry_ok. simpl.
  split; [exact Ha|]. split; [exact Hn|]. intros y [= <-]. right. by exists c, cs.
Qed.

Lemma first_color_ok (cats : list Category.t) (c : Category.t) :
  c ∈ cats ->
  first_color c = "" \/
  exists c' cs, c' ∈ cats /\ Category.name c' = Category.name c /\
                Category.colors c' = Some cs /\ first_color c ∈ cs.
Proof.
  intros Hc. unfold first_color.
  destruct (Category.colors c) as [[|x cs]|] eqn:E; [by left | | by left].
  right. exists c, (x :: cs). split; [done|]. split; [done|]. split; [done|].
  apply list_elem_of_here.
Qed.

Lemma object_ok_empty (cats : list Category.t) : object_ok cats ([], None).
Proof. split; [intros k sel Hin; by apply elem_of_nil in Hin | done]. Qed.

Lemma object_ok_assign_entry (cats : list Category.t) (k : string) (v : Selection)
    (o : CustObj) :
  entry_ok cats k v -> object_ok cats o -> object_ok cats (assign_entry k v o).
Proof.
  intros Hv [Hown Hproto]. unfold assign_entry.
  destruct (bool_decide (k = "__proto__") && negb (JSObj.has k (fst o))) eqn:E.
  - apply andb_true_iff in E as [E _]. apply bool_decide_eq_true in E. subst k.
    split; [done|]. by intros e [= <-].
  - split; [|done]. simpl. by apply entries_set.
Qed.

Lemma object_ok_entry_of (cats : list Category.t) (k : string) (o : CustObj)
    (sel : Selection) :
  object_ok cats o -> entry_of k o = Some sel -> entry_ok cats k sel.
Proof.
  intros [Hown Hproto]. unfold entry_of.
  destruct (JSObj.get k (fst o)) as [x|] eqn:E.
  - intros [= <-]. by apply Hown, get_Some_elem.
  - destruct (decide (k = "__proto__")) as [->|]; [|done]. apply Hproto.
Qed.

Lemma object_ok_assign_asset (cats : list Category.t) (k : string) (a : AssetRef)
    (o : CustObj) :
  (forall sel, entry_of k o = Some sel -> entry_ok cats k (with_asset sel a)) ->
  object_ok cats o -> object_ok cats (assign_asset k a o).
Proof.
  intros Ha [Hown Hproto]. unfold assign_asset.
  destruct (JSObj.get k (fst o)) as [sel|] eqn:E.
  - split; [|done]. simpl. apply entries_set; [done|]. apply Ha.
    unfold entry_of. by rewrite E.
  - destruct (decide (k = "__proto__")) as [->|]; [|done]. split; [done|]. simpl.
    destruct (snd o) as [e|] eqn:Es; [|done]. intros e' [= <-]. apply Ha.
    unfold entry_of. rewrite E. by rewrite decide_True.
Qed.

Lemma seed_object_ok (all : list Category.t) (o : CustObj) (c : Category.t) :
  c ∈ all -> object_ok all o -> object_ok all (seed_selection o c).
Proof.
  intros Hc Ho.
  assert (Hseed : entry_ok all (Category.name c)
            {| asset := AssetUndefined; color := ColorString (first_color c) |}).
  { unfold entry_ok. simpl. split; [done|]. split; [done|].
    intros x [= <-]. by apply first_color_ok. }
  unfold seed_selection. destruct (decide (Category.startingAsset c = "")).
  - by apply object_ok_assign_entry.
  - apply object_ok_assign_asset; [|by apply object_ok_assign_entry].
    intros sel Hsel. rewrite entry_of_assign_eq in Hsel. injection Hsel as <-.
    destruct (find_starting_asset c) as [| |a] eqn:E.
    + by apply entry_ok_with_undefined.
    + unfold find_starting_asset in E. by destruct (List.find _ _).
    + apply find_starting_asset_Some in E as [Ha _]. by apply entry_ok_with_asset.
Qed.

Lemma seed_all_object_ok (all cats : list Category.t) (o : CustObj) :
  (forall c, c ∈ cats -> c ∈ all) ->
  object_ok all o -> object_ok all (foldl seed_selection o cats).
Proof.
  revert o. induction cats as [|c cats IH]; intros o Hsub Ho; [done|].
  simpl. apply IH.
  - intros c' Hc'. by apply Hsub, list_elem_of_further.
  - apply seed_object_ok; [apply Hsub, list_elem_of_here | done].
Qed.

Lemma store_ok_fetch (fc : list Category.t) (fa : list Asset.t) (s : Store) :
  store_ok (fst (fetchCategories fc fa s)).
Proof.
  destruct (fetchCategories_fields fc fa s) as (Hc & Hcur & _ & _).
  unfold store_ok. rewrite Hc, Hcur, fetchCategories_object, fetchCategories_customization.
  set (cats := map (attach_assets fa) fc).
  split; [apply NoDup_seed_all, NoDup_nil_2|]. split.
  { intros n Hn. apply keys_seed_all in Hn as [[_ ?]|Hin]; [done | by apply elem_of_nil in Hin]. }
  split.
  { intros c Hin Hp. apply keys_seed_all. left. split; [done|]. by exists c. }
  split.
  { intros cur Hhead. destruct cats as [|c0 cats']; [done|].
    injection Hhead as <-. apply list_elem_of_here. }
  split.
  { intros c a Hin Ha. apply list_elem_of_fmap in Hin as (c0 & -> & _).
    by apply attach_assets_elem in Ha as [_ ?]. }
  apply seed_all_object_ok; [done | apply object_ok_empty].
Qed.

(** A store that fits a catalog whose assets contribute all their locks has
    no reference that fails to resolve. *)
Lemma store_ok_resolves (s : Store) :
  store_ok s -> catalog_refs_resolve (categories s) = true ->
  refs_resolve (categories s) (customization s) = true.
Proof.
  intros (_ & _ & _ & _ & _ & Hent & _) Hcat. unfold refs_resolve. rewrite forallb_true.
  intros sel Hin. apply list_elem_of_fmap in Hin as ([k sel'] & -> & Hin). simpl.
  unfold selection_refs_resolve. destruct (asset sel') as [| |a] eqn:Ea; try done.
  destruct (Hent k sel' Hin) as (Ha & _). destruct (Ha a Ea) as (c & Hc & _ & Hac).
  unfold catalog_refs_resolve in Hcat. rewrite forallb_true in Hcat.
  specialize (Hcat c Hc). rewrite forallb_true in Hcat. by apply Hcat.
Qed.



(** The load of a catalog in which every id names a loaded category, and
    the starting asset of Hat locks a category named "constructor": the
    recomputation throws. *)
Example load_inherited_name_throws :
  forallb (fun a => bool_decide (is_Some (find_category (categories Sample.heirloom) (Asset.group a)))
                    && forallb (fun g => bool_decide (is_Some (find_category (categories Sample.heirloom) g)))
                         (default [] (Asset.lockedGroups a)))
          (assets Sample.heirloom) = true /\
  catalog_refs_resolve (categories Sample.heirloom) = false.
Proof. vm_compute. done. Qed.

(** ** More on randomize *)

Lemma random_asset_null (rnd : nat -> Float01) (n : nat) (c : Category.t) :
  fst (random_asset rnd n c) = AssetNull -> Category.removable c = true.
Proof.
  unfold random_asset. destruct (Category.removable c); [done|]. simpl.
  unfold asset_at. by destruct (js_index _ _).
Qed.

Lemma color_at_elem (cs : list string) (i : Z) (x : string) :
  color_at cs i = ColorString x -> x ∈ cs.
Proof.
  unfold color_at, js_index. destruct (decide (0 <= i)); [|done].
  destruct (cs !! Z.to_nat i) as [y|] eqn:E; [|done].
  intros [= <-]. by eapply list_elem_of_lookup_2.
Qed.

Lemma random_entry_ok (all : list Category.t) (rnd : nat -> Float01) (n : nat)
    (c : Category.t) :
  c ∈ all -> entry_ok all (Category.name c) (random_selection rnd n c).
Proof.
  intros Hc. unfold entry_ok.
  rewrite random_selection_asset, random_selection_color.
  split; [|split].
  - intros a Ha. destruct (random_asset_cases rnd n c) as [Hnone|(b & Hb & Hab)].
    + rewrite Ha in Hnone. done.
    + rewrite Ha in Hab. injection Hab as ->. by exists c.
  - intros Hnull. exists c. split; [done|]. split; [done|]. by eapply random_asset_null.
  - intros x Hx. unfold random_color in Hx.
    destruct (Category.colors c) as [cs|] eqn:E; [|done]. simpl in Hx.
    right. exists c, cs. split; [done|]. split; [done|]. split; [done|].
    by eapply color_at_elem.
Qed.

Lemma random_selection_agree (rnd rnd' : nat -> Float01) (n : nat) (c : Category.t) :
  agree_between n (n + draw_count c) rnd rnd' ->
  random_selection rnd n c = random_selection rnd' n c.
Proof.
  intros H. unfold agree_between, random_selection, random_asset, random_color, draw_count in *.
  destruct (Category.removable c), (Category.colors c) as [cs|]; simpl;
    repeat (rewrite (H n) by lia); repeat (rewrite (H (S n)) by lia);
    repeat (rewrite (H (S (S n))) by lia); done.
Qed.

(** The selection of a category in terms of the floors of the binary64
    products: the first draw gives the asset index, the draw after it the
    second index of a removable category, and the next one the color
    index. *)
Lemma random_selection_floors (rnd : nat -> Float01) (p : nat) (c : Category.t) :
  let n := Z.of_nat (length (Category.assets c)) in
  let i := Qfloor (b64_mul (rnd p) n) in
  let j := Qfloor (b64_mul (rnd (S p)) n) in
  let q := if Category.removable c then S (S p) else S p in
  random_selection rnd p c
  = {| asset := if Category.removable c
                then removable_override (asset_at c i) j else asset_at c i;
       color := match Category.colors c with
                | Some cs => color_at cs (Qfloor (b64_mul (rnd q) (Z.of_nat (length cs))))
                | None => ColorUndefined
                end |}.
Proof.
  intros n i j q. subst n i j q.
  unfold random_selection, random_asset, random_color, randInt.
  rewrite !Z.sub_0_r, !Z.sub_add, !Z.add_0_l.
  destruct (Category.removable c), (Category.colors c) as [cs|]; simpl;
    rewrite ?Z.sub_0_r, ?Z.sub_add, ?Z.add_0_l; done.
Qed.

Section RandomizeMore.
Context `{Three}.

Lemma randomize_loop_object_ok (all cats : list Category.t) (rnd : nat -> Float01)
    (o : CustObj) (sk : SkinColor) (n : nat) :
  (forall c, c ∈ cats -> c ∈ all) ->
  object_ok all o ->
  object_ok all (fst (fst (randomize_loop rnd cats (o, sk, n)))).
Proof.
  revert o sk n. induction cats as [|c cats IH]; intros o sk n Hsub Ho; [done|].
  rewrite randomize_loop_cons, randomize_category_spec. apply IH.
  - intros c' Hc'. by apply Hsub, list_elem_of_further.
  - apply object_ok_assign_entry; [|done]. apply random_entry_ok, Hsub, list_elem_of_here.
Qed.

Lemma randomize_loop_keys (cats : list Category.t) (rnd : nat -> Float01)
    (o : CustObj) (sk : SkinColor) (n : nat) :
  (NoDup (JSObj.keys (fst o)) ->
   NoDup (JSObj.keys (fst (fst (fst (randomize_loop rnd cats (o, sk, n))))))) /\
  forall m, m ∈ JSObj.keys (fst (fst (fst (randomize_loop rnd cats (o, sk, n)))))
            <-> (m ≠ "__proto__" /\ exists c, c ∈ cats /\ Category.name c = m)
                \/ m ∈ JSObj.keys (fst o).
Proof.
  revert o sk n. induction cats as [|c cats IH]; intros o sk n.
  - split; [done|]. intros m. simpl.
    split; [by right | intros [(_ & c & Hin & _)|?]; [by apply elem_of_nil in Hin | done]].
  - rewrite randomize_loop_cons, randomize_category_spec.
    destruct (IH (assign_entry (Category.name c) (random_selection rnd n c) o)
                (if decide (Category.name c = "Head")
                 then color_set sk (color (random_selection rnd n c)) else sk)
                (n + draw_count c)%nat) as [Hnd Hk].
    split; [intros Hn; by apply Hnd, NoDup_assign_entry|].
    intros m. rewrite Hk, keys_assign_entry. split.
    + intros [(Hp & c' & Hin & Hn)|[[-> Hp]|Hin]].
      * left. split; [done|]. exists c'. split; [by apply list_elem_of_further | done].
      * left. split; [done|]. exists c. split; [apply list_elem_of_here | done].
      * by right.
    + intros [(Hp & c' & Hin & Hn)|Hin].
      * apply elem_of_cons in Hin as [->|Hin]; [right; left; by subst m|].
        left. split; [done|]. by exists c'.
      * right. by right.
Qed.

Lemma store_ok_randomize (rnd : nat -> Float01) (s : Store) :
  store_ok s -> store_ok (fst (randomize rnd s)).
Proof.
  intros (_ & _ & _ & Hcur & Hatt & _).
  destruct (randomize_fields rnd s) as (Hc & Hcc & _).
  unfold store_ok. rewrite Hc, Hcc, randomize_object, randomize_customization.
  destruct (randomize_loop_keys (categories s) rnd ([], None) (skin s) 0%nat) as [Hnd Hk].
  split; [apply Hnd, NoDup_nil_2|]. split.
  { intros n Hn. apply Hk in Hn as [[_ ?]|Hin]; [done | by apply elem_of_nil in Hin]. }
  split.
  { intros c Hin Hp. apply Hk. left. split; [done|]. by exists c. }
  split; [done|]. split; [done|].
  apply randomize_loop_object_ok; [done | apply object_ok_empty].
Qed.

Lemma randomize_loop_agree (rnd rnd' : nat -> Float01) (cats : list Category.t)
    (o : CustObj) (sk : SkinColor) (n : nat) :
  agree_between n (n + draws_before cats) rnd rnd' ->
  randomize_loop rnd cats (o, sk, n) = randomize_loop rnd' cats (o, sk, n).
Proof.
  revert o sk n. induction cats as [|c cats IH]; intros o sk n Hag; [done|].
  rewrite !randomize_loop_cons, !randomize_category_spec.
  simpl in Hag.
  rewrite (random_selection_agree rnd rnd' n c) by (intros i Hi; apply Hag; lia).
  apply IH. intros i Hi. apply Hag. lia.
Qed.

(** X7. [randomize] reads exactly the first draws of [Math.random()], one
    per category, one more per removable category and one more per category
    with a palette: two streams that agree on that many values leave the
    same store and the same completion; the store that they leave does not
    depend on the customization that was there; the loop ends at that
    position of the stream; and the selection that the iteration of a
    category stores is made of the floors of the binary64 products of the
    draws at the category's positions with the number of assets and of
    colors. *)
Theorem randomize_reads_draws (rnd rnd' : nat -> Float01) (s : Store)
    (cust : JSObj.t Selection) (proto : option Selection) :
  agree_between 0 (draws_before (categories s)) rnd rnd' ->
  randomize rnd s = randomize rnd' s /\
  randomize rnd (set_customization cust proto s) = randomize rnd s /\
  snd (randomize_loop rnd (categories s) (([], None), skin s, 0%nat))
  = draws_before (categories s) /\
  (forall pre c post, categories s = pre ++ c :: post ->
     draws_before (pre ++ [c])
     = (draws_before pre + 1 + (if Category.removable c then 1 else 0)
        + (match Category.colors c with Some _ => 1 | None => 0 end))%nat /\
     let p := draws_before pre in
     let n := Z.of_nat (length (Category.assets c)) in
     let i := Qfloor (b64_mul (rnd p) n) in
     let j := Qfloor (b64_mul (rnd (S p)) n) in
     let q := if Category.removable c then S (S p) else S p in
     entry_of (Category.name c)
       (fst (fst (randomize_loop rnd (pre ++ [c]) (([], None), skin s, 0%nat))))
     = Some {| asset := if Category.removable c
                        then removable_override (asset_at c i) j else asset_at c i;
               color := match Category.colors c with
                        | Some cs =>
                            color_at cs (Qfloor (b64_mul (rnd q) (Z.of_nat (length cs))))
                        | None => ColorUndefined
                        end |}).
Proof.
  intros Hag. split; [|split; [reflexivity|split]].
  - unfold randomize, randomize_set.
    rewrite (randomize_loop_agree rnd rnd'); [done|].
    intros i Hi. apply Hag. lia.
  - by rewrite randomize_loop_pos.
  - intros pre c post Hcats. split.
    + unfold draws_before. rewrite foldr_app. simpl.
      change (foldr (fun c n => (draw_count c + n)%nat) 0%nat pre) with (draws_before pre).
      assert (Hcount : forall k l, foldr (fun c n => (draw_count c + n)%nat) k l
                                   = (draws_before l + k)%nat).
      { intros k l. induction l as [|x l IH]; simpl; [done|].
        rewrite IH. unfold draws_before. simpl. lia. }
      rewrite Hcount. unfold draw_count.
      destruct (Category.removable c), (Category.colors c); lia.
    + intros p n i j q. rewrite randomize_loop_entry_here.
      rewrite Nat.add_0_l. f_equal. apply random_selection_floors.
Qed.
End RandomizeMore.

Lemma randomize_reads_draws_witness :
  let rnd := fun i : nat => if (i <? 8)%nat then Sample.two_fifths else Sample.zero in
  @randomize Sample.styles rnd Sample.wardrobe
  = @randomize Sample.styles (fun _ => Sample.two_fifths) Sample.wardrobe /\
  @randomize Sample.styles rnd (set_customization [] None Sample.wardrobe)
  = @randomize Sample.styles rnd Sample.wardrobe /\
  snd (@randomize_loop Sample.styles rnd (categories Sample.wardrobe)
         (([], None), skin Sample.wardrobe, 0%nat))
  = draws_before (categories Sample.wardrobe) /\
  (forall pre c post, categories Sample.wardrobe = pre ++ c :: post ->
     draws_before (pre ++ [c])
     = (draws_before pre + 1 + (if Category.removable c then 1 else 0)
        + (match Category.colors c with Some _ => 1 | None => 0 end))%nat /\
     let p := draws_before pre in
     let n := Z.of_nat (length (Category.assets c)) in
     let i := Qfloor (b64_mul (rnd p) n) in
     let j := Qfloor (b64_mul (rnd (S p)) n) in
     let q := if Category.removable c then S (S p) else S p in
     entry_of (Category.name c)
       (fst (fst (@randomize_loop Sample.styles rnd (pre ++ [c])
                    (([], None), skin Sample.wardrobe, 0%nat))))
     = Some {| asset := if Category.removable c
                        then removable_override (asset_at c i) j else asset_at c i;
               color := match Category.colors c with
                        | Some cs =>
                            color_at cs (Qfloor (b64_mul (rnd q) (Z.of_nat (length cs))))
                        | None => ColorUndefined
                        end |}).
Proof.
  apply (@randomize_reads_draws Sample.styles
           (fun i => if (i <? 8)%nat then Sample.two_fifths else Sample.zero)
           (fun _ => Sample.two_fifths) Sample.wardrobe [] None).
  intros i Hi. change (draws_before (categories Sample.wardrobe)) with 8%nat in Hi.
  destruct Hi as [_ Hi]. apply Nat.ltb_lt in Hi. by rewrite Hi.
Defined.

(** The draws decide: on the wardrobe, draws of 0.4 give Head the face and
    Top the coat with no color, draws just below 1 give Top the vest. *)
Example randomize_draws_decide :
  customization_read "Top"
    (fst (@randomize Sample.styles (fun _ => Sample.two_fifths) Sample.wardrobe))
  = ReadEntry {| asset := AssetObj Sample.coat; color := ColorUndefined |} /\
  customization_read "Top"
    (fst (@randomize Sample.styles (fun _ => Sample.almost_one) Sample.wardrobe))
  = ReadEntry {| asset := AssetObj Sample.vest; color := ColorUndefined |} /\
  customization_read "Hat"
    (fst (@randomize Sample.styles (fun _ => Sample.almost_one) Sample.wardrobe))
  = ReadEntry {| asset := AssetNull; color := ColorString "blue" |}.
Proof. vm_compute. done. Qed.

Section RandomizeAssets.
Context `{Three}.

(** X8. A category that is not removable, offers at least one asset and is
    the last of its name never ends up without asset after [randomize]: its
    entry holds the asset of the category at the drawn index, the floor of
    the binary64 product of the draw and the number of assets. *)
Theorem randomize_keeps_asset (rnd : nat -> Float01) (s : Store)
    (pre post : list Category.t) (c : Category.t) :
  categories s = pre ++ c :: post ->
  Category.name c ∉ map Category.name post ->
  Category.removable c = false ->
  (1 <= length (Category.assets c))%nat ->
  let n := Z.of_nat (length (Category.assets c)) in
  let x := rnd (draws_before pre) in
  exists sel a i,
    customization_read (Category.name c) (fst (randomize rnd s)) = ReadEntry sel /\
    asset sel = AssetObj a /\
    a ∈ Category.assets c /\
    Category.assets c !! Z.to_nat i = Some a /\
    0 <= i < n /\ i = Qfloor (b64_mul x n) /\
    (inject_Z i <= b64_mul x n)%Q /\ (b64_mul x n < inject_Z (i + 1))%Q.
Proof.
  intros Hcats Hpost Hrem Hn n x.
  assert (Hn1 : 1 <= n) by (subst n; lia).
  pose proof (randInt_range n x Hn1) as Hi.
  destruct (asset_at_in_range c _ Hi) as (a & Ha & Hat).
  exists (random_selection rnd (draws_before pre) c), a, (randInt 0 (n - 1) x).
  split; [by apply (randomize_entry rnd s pre post)|].
  rewrite random_selection_asset. unfold random_asset. rewrite Hrem. simpl.
  split; [done|]. split; [by eapply list_elem_of_lookup_2|]. split; [done|].
  split; [done|]. split.
  - unfold randInt. by rewrite Z.sub_0_r, Z.sub_add, Z.add_0_l.
  - by apply randInt_eq.
Qed.

Lemma randomize_loop_skin_other (rnd : nat -> Float01) (cats : list Category.t)
    (o : CustObj) (sk : SkinColor) (n : nat) :
  (forall c, c ∈ cats -> Category.name c ≠ "Head") ->
  snd (fst (randomize_loop rnd cats (o, sk, n))) = sk.
Proof.
  revert o sk n. induction cats as [|c cats IH]; intros o sk n Hc; [done|].
  rewrite randomize_loop_cons, randomize_category_spec.
  rewrite decide_False by apply Hc, list_elem_of_here.
  apply IH. intros c' Hc'. by apply Hc, list_elem_of_further.
Qed.

Lemma randomize_skin_loop (rnd : nat -> Float01) (s : Store) :
  skin (fst (randomize rnd s))
  = snd (fst (randomize_loop rnd (categories s) (([], None), skin s, 0%nat))).
Proof.
  unfold randomize.
  destruct (applyLockedAssets_frame (randomize_set rnd s)) as (_ & _ & _ & -> & _).
  unfold randomize_set. by destruct (randomize_loop _ _ _) as [[o sk] n].
Qed.

Lemma names_not_elem (cats : list Category.t) (k : string) :
  k ∉ map Category.name cats -> forall c, c ∈ cats -> Category.name c ≠ k.
Proof.
  intros Hk c Hc Hn. apply Hk. apply list_elem_of_fmap. by exists c.
Qed.

(** X9. [randomize] and the skin material: without a category named
    "Head" the skin stays as it was. With one such category the skin takes
    the color that [randomize] gave to Head when that color is a non-empty
    style that three's [Color.set] recognises, and stays as it was
    otherwise, in particular when the color is [undefined] (Head has no
    palette). *)
Theorem randomize_skin (rnd : nat -> Float01) (s : Store) :
  ((forall c, c ∈ categories s -> Category.name c ≠ "Head") ->
   skin (fst (randomize rnd s)) = skin s) /\
  (forall pre c post,
     categories s = pre ++ c :: post ->
     Category.name c = "Head" ->
     "Head" ∉ map Category.name pre ->
     "Head" ∉ map Category.name post ->
     exists sel,
       customization_read "Head" (fst (randomize rnd s)) = ReadEntry sel /\
       JSObj.get "Head" (customization (fst (randomize rnd s))) = Some sel /\
       skin (fst (randomize rnd s))
       = match color sel with
         | ColorString x =>
             if truthy x && setStyle_recognises x then SkinStyle x else skin s
         | ColorUndefined => skin s
         end).
Proof.
  split.
  - intros Hno. rewrite randomize_skin_loop. by apply randomize_loop_skin_other.
  - intros pre c post Hcats Hname Hpre Hpost.
    exists (random_selection rnd (draws_before pre) c).
    assert (Hread : customization_read "Head" (fst (randomize rnd s))
                    = ReadEntry (random_selection rnd (draws_before pre) c)).
    { rewrite <- Hname. apply (randomize_entry rnd s pre post); [done|].
      by rewrite Hname. }
    split; [done|]. split.
    { unfold customization_read in Hread.
      destruct (JSObj.get "Head" (customization (fst (randomize rnd s)))) as [x|];
        [by injection Hread as -> | exfalso].
      destruct (customization_proto (fst (randomize rnd s))); discriminate Hread. }
    rewrite randomize_skin_loop, Hcats, randomize_loop_app.
    set (st := randomize_loop rnd pre _).
    assert (Hpos : snd st = draws_before pre)
      by apply (randomize_loop_pos rnd pre ([], None) (skin s) 0%nat).
    assert (Hsk : snd (fst st) = skin s)
      by apply (randomize_loop_skin_other rnd pre ([], None) (skin s) 0%nat
                  (names_not_elem pre "Head" Hpre)).
    clearbody st. destruct st as [[o1 sk1] n1]. simpl in Hpos, Hsk. subst n1 sk1.
    rewrite randomize_loop_cons, randomize_category_spec.
    rewrite randomize_loop_skin_other by (by apply names_not_elem).
    rewrite decide_True by done. unfold color_set.
    by destruct (color (random_selection rnd (draws_before pre) c)).
Qed.
End RandomizeAssets.

Lemma randomize_keeps_asset_witness :
  let n := Z.of_nat (length (Category.assets Sample.wardrobe_head)) in
  exists sel a i,
    customization_read "Head"
      (fst (@randomize Sample.styles (fun _ => Sample.two_fifths) Sample.wardrobe))
    = ReadEntry sel /\
    asset sel = AssetObj a /\
    a ∈ Category.assets Sample.wardrobe_head /\
    Category.assets Sample.wardrobe_head !! Z.to_nat i = Some a /\
    0 <= i < n /\ i = Qfloor (b64_mul Sample.two_fifths n) /\
    (inject_Z i <= b64_mul Sample.two_fifths n)%Q /\
    (b64_mul Sample.two_fifths n < inject_Z (i + 1))%Q.
Proof.
  apply (@randomize_keeps_asset Sample.styles (fun _ => Sample.two_fifths) Sample.wardrobe []
           [Sample.wardrobe_hat; Sample.wardrobe_top; Sample.wardrobe_glasses]
           Sample.wardrobe_head).
  - vm_compute. reflexivity.
  - by_compute.
  - reflexivity.
  - vm_compute. lia.
Defined.

(** ** What is drawn *)








Section Drawn.
Variable getUrl : Asset.t -> string -> string.
Variable skeleton : bool.



End Drawn.


(** With the cap on, the face of Head stays selected but only the cap is
    drawn; without the cap the face is drawn again. Without skeleton, or
    for an entry under the empty key, [Asset] throws. *)
Example displayed_cap :
  let getUrl := fun (_ : Asset.t) (u : string) => "files/" +:+ u in
  displayed getUrl true Sample.with_cap = Some [("Hat", Sample.cap)] /\
  avatar_assets Sample.with_cap = [("Head", Sample.face); ("Hat", Sample.cap)] /\
  displayed getUrl true (fst (changeAsset "Hat" AssetNull Sample.with_cap))
  = Some [("Head", Sample.face)] /\
  displayed getUrl false Sample.with_cap = None /\
  displayed getUrl true (fst (changeAsset "" (AssetObj Sample.cap) Sample.loaded)) = None.
Proof. vm_compute. done. Qed.

(** X11. The marks of the asset panel after [changeAsset] on the current
    category: with an asset, exactly the buttons of the assets with that id
    are marked and the remove button is not; with [null], the remove button
    is marked and no asset button is. In no store are both kinds marked. *)
Theorem selection_marks (s : Store) (cur : Category.t) :
  (forall a b,
     let s' := fst (changeAsset (Category.name cur) (AssetObj a) s) in
     asset_marked s' cur b = bool_decide (Asset.id a = Asset.id b) /\
     remove_marked s' cur = Some false) /\
  (forall b,
     let s' := fst (changeAsset (Category.name cur) AssetNull s) in
     asset_marked s' cur b = false /\ remove_marked s' cur = Some true) /\
  (forall b, remove_marked s cur = Some true -> asset_marked s cur b = false).
Proof.
  assert (Hget : forall x,
            JSObj.get (Category.name cur)
              (customization (fst (changeAsset (Category.name cur) x s)))
            = Some (with_asset (selection_at (Category.name cur) s) x)).
  { intros x. rewrite changeAsset_customization. apply get_set_eq. }
  split; [|split].
  - intros a b s'. subst s'. unfold asset_marked, remove_marked.
    by rewrite (selection_at_own _ _ _ (Hget _)), (customization_read_own _ _ _ (Hget _)).
  - intros b s'. subst s'. unfold asset_marked, remove_marked.
    by rewrite (selection_at_own _ _ _ (Hget _)), (customization_read_own _ _ _ (Hget _)).
  - intros b. unfold asset_marked, remove_marked, selection_at.
    destruct (customization_read (Category.name cur) s) as [sel|t|]; [|done|done].
    by destruct (asset sel).
Qed.

(** ** The notice of the asset panel *)



(** Two locks on Head; and the panel of a category named "constructor",
    which no asset locks, throws. *)
Example notice_two_locks :
  hidden_by (setCurrentCategory Sample.wardrobe_head
               (fst (changeAsset "Top" (AssetObj Sample.vest)
                       (fst (changeAsset "Hat" (AssetObj Sample.cap) Sample.wardrobe)))))
  = NoticeText "Cap (Hat), Vest (Top)" /\
  hidden_by (setCurrentCategory Sample.badge Sample.heirloom) = NoticeThrows /\
  lockedGroups Sample.heirloom = ∅.
Proof. vm_compute. done. Qed.

(** ** The interface *)

Lemma store_ok_selection (s : Store) (k : string) :
  store_ok s -> entry_ok (categories s) k (selection_at k s).
Proof.
  intros (_ & _ & _ & _ & _ & Hown & Hproto). rewrite selection_at_spec.
  destruct (JSObj.get k (customization s)) as [sel|] eqn:E.
  - by apply Hown, get_Some_elem.
  - destruct (decide (k = "__proto__")) as [->|]; [|apply entry_ok_empty].
    destruct (customization_proto s) as [e|] eqn:Ep; [by apply Hproto | apply entry_ok_empty].
Qed.

Lemma store_ok_set (s s' : Store) (k : string) (sel : Selection) :
  store_ok s ->
  (exists c, c ∈ categories s /\ Category.name c = k) ->
  entry_ok (categories s) k sel ->
  categories s' = categories s ->
  currentCategory s' = currentCategory s ->
  customization s' = JSObj.set k sel (customization s) ->
  customization_proto s' = None ->
  store_ok s'.
Proof.
  intros (Hnd & Hk & Hall & Hcur & Hatt & Hown & _) Hc Hnew Hcats Hcc Hcust Hproto.
  unfold store_ok. rewrite Hcats, Hcc, Hcust, Hproto.
  split; [by apply NoDup_keys_set|]. split.
  { intros n Hn. apply elem_keys_set in Hn as [->|Hn]; [done | by apply Hk]. }
  split.
  { intros c Hin Hp. apply elem_keys_set. right. by apply Hall. }
  split; [done|]. split; [done|].
  split; [|done]. simpl. by apply entries_set.
Qed.

Lemma store_ok_changeAsset (s : Store) (k : string) (a : AssetRef) :
  store_ok s ->
  (exists c, c ∈ categories s /\ Category.name c = k) ->
  entry_ok (categories s) k (with_asset (selection_at k s) a) ->
  store_ok (fst (changeAsset k a s)).
Proof.
  intros Hok Hc Hnew.
  apply (store_ok_set s _ k (with_asset (selection_at k s) a)); try done.
  - unfold changeAsset.
    by destruct (applyLockedAssets_frame (changeAsset_set k a s)) as (-> & _).
  - unfold changeAsset.
    by destruct (applyLockedAssets_frame (changeAsset_set k a s)) as (_ & -> & _).
  - apply changeAsset_customization.
  - apply changeAsset_proto.
Qed.

Lemma store_ok_setCurrentCategory (s : Store) (c : Category.t) :
  store_ok s -> c ∈ categories s -> store_ok (setCurrentCategory c s).
Proof.
  intros (Hnd & Hk & Hall & Hcur & Hatt & Hent) Hc. unfold store_ok. simpl.
  split; [done|]. split; [done|]. split; [done|]. split; [by intros cur [= <-]|]. done.
Qed.

Lemma store_ok_initial : store_ok initial_store.
Proof.
  unfold store_ok. simpl. split; [apply NoDup_nil_2|]. split.
  { intros n Hn. by apply elem_of_nil in Hn. }
  split; [intros c Hc; by apply elem_of_nil in Hc|].
  split; [done|]. split; [intros ? ? Hc; by apply elem_of_nil in Hc|].
  apply object_ok_empty.
Qed.

Section InterfaceFacts.
Context `{Three}.
Variable colorPalette : Category.t -> string.

Lemma store_ok_updateColor (s : Store) (cur : Category.t) (v : JSColor) :
  store_ok s ->
  currentCategory s = Some cur ->
  entry_ok (categories s) (Category.name cur)
    (with_color (selection_at (Category.name cur) s) v) ->
  store_ok (fst (updateColor v s)).
Proof.
  intros Hok Ecur Hnew.
  pose proof Hok as (_ & _ & _ & Hcur & _).
  rewrite (updateColor_Some v s cur Ecur).
  apply (store_ok_set s _ (Category.name cur)
           (with_color (selection_at (Category.name cur) s) v)); try done.
  exists cur. split; [by apply Hcur | done].
Qed.

Lemma ui_step_store_ok (app : App) (e : Event) :
  store_ok (store app) -> store_ok (store (ui_step colorPalette app e)).
Proof.
  intros Hok. unfold ui_step. destruct (enabled colorPalette app e) eqn:En; [|done].
  pose proof Hok as (Hnd & Hk & Hall & Hcur & Hatt & Hent).
  destruct e as [fc fa|c| |a|v|rnd|m|key]; simpl in *.
  - apply store_ok_fetch.
  - apply andb_true_iff in En as [_ Hc]. apply bool_decide_eq_true in Hc.
    by apply store_ok_setCurrentCategory.
  - apply andb_true_iff in En as [_ Hr].
    destruct (currentCategory (store app)) as [cur|] eqn:Ecur; [|done]. simpl.
    apply store_ok_changeAsset; [done | |].
    + exists cur. split; [by apply Hcur | done].
    + apply entry_ok_with_null; [by apply Hcur | done | by apply store_ok_selection].
  - apply andb_true_iff in En as [_ Ha].
    destruct (currentCategory (store app)) as [cur|] eqn:Ecur; [|done]. simpl.
    apply bool_decide_eq_true in Ha.
    apply store_ok_changeAsset; [done | |].
    + exists cur. split; [by apply Hcur | done].
    + apply entry_ok_with_asset; [by apply Hcur | done | by apply store_ok_selection].
  - apply andb_true_iff in En as [_ Hv].
    destruct (currentCategory (store app)) as [cur|] eqn:Ecur; [|done].
    apply andb_true_iff in Hv as [_ Hv]. apply bool_decide_eq_true in Hv.
    destruct (Category.colors cur) as [cs|] eqn:Ecs; [|by apply elem_of_nil in Hv].
    simpl in Hv. apply (store_ok_updateColor _ cur); [done | done |].
    apply (entry_ok_with_color _ cur _ cs); [by apply Hcur | done | done |].
    by apply store_ok_selection.
  - by apply store_ok_randomize.
  - done.
  - repeat case_bool_decide; done.
Qed.

Lemma ui_run_store_ok (events : list Event) (app : App) :
  store_ok (store app) -> store_ok (store (ui_run colorPalette events app)).
Proof.
  revert app. induction events as [|e events IH]; intros app Hok; [done|].
  unfold ui_run in *. simpl. by apply IH, ui_step_store_ok.
Qed.

(** X12. The shape of the customization under the interface: after any
    sequence of fetch arrivals and clicks (categories, assets, remove,
    colors, randomize, modes, poses) the keys of [customization] are names
    of categories of the last fetch, none twice; every category of the last
    fetch that is not named "__proto__" has its key; and the current
    category, when there is one, is one of these categories: the interface
    never calls [changeAsset] or [updateColor] for a key that is no
    category name. *)
Theorem ui_shape (events : list Event) :
  let s := store (ui_run colorPalette events initial_app) in
  NoDup (JSObj.keys (customization s)) /\
  (forall n, n ∈ JSObj.keys (customization s) ->
             exists c, c ∈ categories s /\ Category.name c = n) /\
  (forall c, c ∈ categories s -> Category.name c ≠ "__proto__" ->
             Category.name c ∈ JSObj.keys (customization s)) /\
  (forall n, n ≠ "__proto__" ->
             n ∈ JSObj.keys (customization s)
             <-> exists c, c ∈ categories s /\ Category.name c = n) /\
  (forall cur, currentCategory s = Some cur ->
     cur ∈ categories s /\
     (Category.name cur ≠ "__proto__" ->
      Category.name cur ∈ JSObj.keys (customization s))).
Proof.
  intros s. destruct (ui_run_store_ok events initial_app store_ok_initial)
    as (Hnd & Hk & Hall & Hcur & _).
  split; [done|]. split; [done|]. split; [done|]. split.
  - intros n Hn. split; [apply Hk|]. intros (c & Hc & <-). by apply Hall.
  - intros cur E. split; [by apply Hcur|]. intros Hp. apply Hall; [by apply Hcur | done].
Qed.

(** X13. Under the interface an asset is only ever selected in its own
    category: after any sequence of fetch arrivals and clicks, an asset held
    by the entry of a key is offered by a loaded category of that name, and
    its group is the id of that category. *)
Theorem ui_owning_category (events : list Event) (k : string) (sel : Selection)
    (a : Asset.t) :
  let s := store (ui_run colorPalette events initial_app) in
  (k, sel) ∈ customization s ->
  asset sel = AssetObj a ->
  exists c, c ∈ categories s /\ Category.name c = k /\
            a ∈ Category.assets c /\ Asset.group a = Category.id c.
Proof.
  intros s Hin Ha.
  destruct (ui_run_store_ok events initial_app store_ok_initial)
    as (_ & _ & _ & _ & Hatt & Hent & _).
  destruct (Hent k sel Hin) as (Hobj & _). destruct (Hobj a Ha) as (c & Hc & Hn & Hac).
  exists c. split; [done|]. split; [done|]. split; [done|]. by apply Hatt.
Qed.

(** X14. Under the interface only a removable category is emptied with
    [null]: after any sequence of fetch arrivals and clicks, an entry whose
    asset is [null] stands under the name of a removable category. *)
Theorem ui_null_only_removable (events : list Event) (k : string) (sel : Selection) :
  let s := store (ui_run colorPalette events initial_app) in
  (k, sel) ∈ customization s ->
  asset sel = AssetNull ->
  exists c, c ∈ categories s /\ Category.name c = k /\ Category.removable c = true.
Proof.
  intros s Hin Ha.
  destruct (ui_run_store_ok events initial_app store_ok_initial)
    as (_ & _ & _ & _ & _ & Hent & _).
  destruct (Hent k sel Hin) as (_ & Hnull & _). by apply Hnull.
Qed.

(** X15. Under the interface a color comes from the palette although
    [updateColor] checks nothing: after any sequence of fetch arrivals and
    clicks, the color of an entry is [undefined], the empty string, or a
    color of the palette of a loaded category of that name. *)
Theorem ui_color_from_palette (events : list Event) (k : string) (sel : Selection) :
  let s := store (ui_run colorPalette events initial_app) in
  (k, sel) ∈ customization s ->
  color sel = ColorUndefined \/ color sel = ColorString "" \/
  exists x c cs, color sel = ColorString x /\ c ∈ categories s /\ Category.name c = k /\
                 Category.colors c = Some cs /\ x ∈ cs.
Proof.
  intros s Hin.
  destruct (ui_run_store_ok events initial_app store_ok_initial)
    as (_ & _ & _ & _ & _ & Hent & _).
  destruct (Hent k sel Hin) as (_ & _ & Hcol).
  destruct (color sel) as [|x]; [by left|]. right.
  destruct (Hcol x eq_refl) as [->|(c & cs & ?)]; [by left|]. right. by exists x, c, cs.
Qed.

(** The same three facts for the entry that the load made the prototype of
    [customization], the entry of a category named "__proto__". *)
Lemma ui_proto_entry (events : list Event) (e : Selection) :
  let s := store (ui_run colorPalette events initial_app) in
  customization_proto s = Some e -> entry_ok (categories s) "__proto__" e.
Proof.
  intros s He.
  destruct (ui_run_store_ok events initial_app store_ok_initial)
    as (_ & _ & _ & _ & _ & _ & Hproto).
  by apply Hproto.
Qed.

Lemma ui_step_presentation_ok (app : App) (e : Event) :
  presentation_ok (presentation app) ->
  presentation_ok (presentation (ui_step colorPalette app e)).
Proof.
  intros Hok. unfold ui_step. destruct (enabled colorPalette app e) eqn:En; [|done].
  destruct e as [fc fa|c| |a|v|rnd|m|key]; try done.
  - unfold handle. by destruct (currentCategory (store app)).
  - unfold handle. by destruct (currentCategory (store app)).
  - simpl in En. apply bool_decide_eq_true in En.
    destruct Hok as (_ & _ & Hpose). unfold handle, setMode. simpl.
    destruct En as [-> | ->].
    + rewrite decide_True by done. unfold presentation_ok. simpl.
      split; [by left|]. split; [done|]. by_compute.
    + rewrite decide_False by done. unfold presentation_ok. simpl.
      split; [by right|]. split; [done | exact Hpose].
  - simpl in En. apply andb_true_iff in En as [Hm _]. apply bool_decide_eq_true in Hm.
    unfold handle.
    destruct (List.find _ PHOTO_POSES) as [p|] eqn:E; [|done].
    apply find_some in E as [Hin _].
    unfold presentation_ok, setPose. cbn [mode pose]. rewrite Hm.
    split; [by right|]. split; [done|].
    apply list_elem_of_fmap. exists p. split; [done | by apply list_elem_of_In].
Qed.

(** X16. Mode and pose under the interface: after any sequence of fetch
    arrivals and clicks the mode is "customize" or "photo", the pose is one
    of the seven poses, and in customize mode the pose is "Idle": poses are
    only offered in photo mode and [setMode] resets the pose on the way
    back. *)
Theorem ui_mode_pose (events : list Event) :
  let p := presentation (ui_run colorPalette events initial_app) in
  (mode p = UI_MODES_CUSTOMIZE \/ mode p = UI_MODES_PHOTO) /\
  (mode p = UI_MODES_CUSTOMIZE -> pose p = PHOTO_POSES_IDLE) /\
  pose p ∈ map snd PHOTO_POSES.
Proof.
  assert (Hrun : forall app, presentation_ok (presentation app) ->
                   presentation_ok (presentation (ui_run colorPalette events app))).
  { induction events as [|e events' IH]; intros app Hok; [done|].
    unfold ui_run in *. simpl. by apply IH, ui_step_presentation_ok. }
  apply Hrun. unfold presentation_ok. simpl. split; [by left|]. split; [done|]. by_compute.
Qed.

Lemma action_sync (s0 : Store) :
  let s' := fst (applyLockedAssets s0) in
  store_ok s' -> catalog_refs_resolve (categories s') = true ->
  "__proto__" ∉ map Category.name (categories s') ->
  store_sync s'.
Proof.
  intros s' Hok Hcat Hplain. split; [done|]. split; [done|].
  pose proof (store_ok_resolves s' Hok Hcat) as Hres. subst s'.
  destruct (applyLockedAssets_frame s0) as (Hc & _ & _ & _ & Hcu & _).
  rewrite Hc, Hcu in Hres.
  destruct (applyLockedAssets_resolved s0 Hres) as (lg & Hlg & Happly).
  rewrite Happly. simpl. exact Hlg.
Qed.

Lemma ui_step_sync (app : App) (e : Event) :
  fetch_resolves e -> fetch_plain e ->
  store_ok (store app) -> store_sync (store app) ->
  store_sync (store (ui_step colorPalette app e)).
Proof.
  intros Hfetch Hplain Hok Hsync.
  pose proof (ui_step_store_ok app e Hok) as Hok'.
  destruct Hsync as (Hcat & Hnames & Hcomp).
  unfold ui_step in *. destruct (enabled colorPalette app e) eqn:En; [|done].
  destruct e as [fc fa|c| |a|v|rnd|m|key].
  - unfold handle in *. cbn [store with_store] in *. unfold fetchCategories in *.
    destruct (applyLockedAssets_frame (fetchCategories_set fc fa (store app))) as (Hc & _).
    apply action_sync; [done| |]; rewrite Hc; [exact Hfetch|].
    simpl. by rewrite attach_assets_names.
  - done.
  - unfold handle in *. destruct (currentCategory (store app)) as [cur|]; [|done].
    cbn [store with_store] in *. unfold changeAsset in *.
    destruct (applyLockedAssets_frame
                (changeAsset_set (Category.name cur) AssetNull (store app))) as (Hc & _).
    apply action_sync; [done| |]; by rewrite Hc.
  - unfold handle in *. destruct (currentCategory (store app)) as [cur|]; [|done].
    cbn [store with_store] in *. unfold changeAsset in *.
    destruct (applyLockedAssets_frame
                (changeAsset_set (Category.name cur) (AssetObj a) (store app))) as (Hc & _).
    apply action_sync; [done| |]; by rewrite Hc.
  - unfold handle. cbn [store with_store].
    simpl in En. apply andb_true_iff in En as [_ En].
    destruct (currentCategory (store app)) as [cur|] eqn:Ecur; [|done].
    rewrite (updateColor_Some _ _ cur Ecur). unfold store_sync. simpl.
    split; [done|]. split; [done|].
    rewrite compute_set_same_asset; [exact Hcomp|].
    destruct Hok as (_ & _ & Hall & Hcur & _).
    assert (Hkey : Category.name cur ∈ JSObj.keys (customization (store app))).
    { apply Hall; [by apply Hcur|]. intros Hp. apply Hnames.
      apply list_elem_of_fmap. exists cur. split; [done | by apply Hcur]. }
    destruct (JSObj.get (Category.name cur) (customization (store app))) as [sel|] eqn:E.
    + by rewrite (selection_at_own _ _ _ E).
    + by apply get_None_keys in E.
  - unfold handle in *. cbn [store with_store] in *. unfold randomize in *.
    destruct (applyLockedAssets_frame (randomize_set rnd (store app))) as (Hc & _).
    apply action_sync; [done| |]; by rewrite Hc, randomize_set_categories.
  - done.
  - unfold handle. by destruct (List.find _ PHOTO_POSES).
Qed.

(** X17. The suppression map is never stale under the interface: when every
    fetch brings a catalog in which the locked groups of every asset, and
    the asset's own group, name fetched categories, none of the locked ones
    under a name that [Object.prototype] has, and no category is named
    "__proto__", then after any sequence of fetch arrivals and clicks
    [lockedGroups] is the map that [applyLockedAssets] computes from the
    current customization. *)
Theorem ui_map_current (events : list Event) :
  Forall fetch_resolves events ->
  Forall fetch_plain events ->
  let s := store (ui_run colorPalette events initial_app) in
  compute_lockedGroups (categories s) (customization s) = Some (lockedGroups s) /\
  forall n, lockedGroups s !! n
            = match suppression_list (categories s) (customization s) n with
              | [] => None
              | l => Some l
              end.
Proof.
  intros Hall Hplain.
  assert (Hrun : forall app, store_ok (store app) -> store_sync (store app) ->
                   store_sync (store (ui_run colorPalette events app))).
  { induction Hall as [|e events' He Hall IH]; intros app Hok Hsync; [done|].
    apply Forall_cons in Hplain as [Hp Hplain].
    unfold ui_run in *. simpl. apply IH; [done | |].
    - by apply ui_step_store_ok.
    - by apply ui_step_sync. }
  intros s.
  assert (Hsync : store_sync s).
  { apply Hrun; [apply store_ok_initial|].
    split; [reflexivity|]. split; [|reflexivity]. simpl. apply not_elem_of_nil. }
  destruct Hsync as (_ & _ & Hcomp). split; [done|].
  intros n. by apply compute_lockedGroups_lookup.
Qed.
End InterfaceFacts.

Example session_cap_on :
  customization (store (Session.run Session.cap_on))
  = [("Head", {| asset := AssetObj Sample.face; color := ColorString "" |});
     ("Hat", {| asset := AssetObj Sample.cap; color := ColorString "blue" |})] /\
  asset <$> JSObj.get "Hat" (customization (store (Session.run Session.cap_off)))
  = Some AssetNull /\
  presentation (Session.run Session.posing)
  = {| mode := "photo"; pose := "King" |}.
Proof. vm_compute. done. Qed.

Lemma ui_owning_category_witness :
  exists c, c ∈ categories (store (Session.run Session.cap_on)) /\
            Category.name c = "Hat" /\
            Sample.cap ∈ Category.assets c /\ Asset.group Sample.cap = Category.id c.
Proof.
  apply (@ui_owning_category Sample.styles Session.palette_id Session.cap_on "Hat"
           {| asset := AssetObj Sample.cap; color := ColorString "blue" |} Sample.cap).
  - by_compute.
  - reflexivity.
Defined.

Lemma ui_null_only_removable_witness :
  exists c, c ∈ categories (store (Session.run Session.cap_off)) /\
            Category.name c = "Hat" /\ Category.removable c = true.
Proof.
  apply (@ui_null_only_removable Sample.styles Session.palette_id Session.cap_off "Hat"
           {| asset := AssetNull; color := ColorString "blue" |}).
  - by_compute.
  - reflexivity.
Defined.

Lemma ui_color_from_palette_witness :
  ColorString "blue" = ColorUndefined \/ ColorString "blue" = ColorString "" \/
  exists x c cs,
    ColorString "blue" = ColorString x /\
    c ∈ categories (store (Session.run Session.cap_on)) /\
    Category.name c = "Hat" /\ Category.colors c = Some cs /\ x ∈ cs.
Proof.
  apply (@ui_color_from_palette Sample.styles Session.palette_id Session.cap_on "Hat"
           {| asset := AssetObj Sample.cap; color := ColorString "blue" |}).
  by_compute.
Defined.

Lemma ui_map_current_witness :
  let s := store (Session.run Session.cap_off) in
  compute_lockedGroups (categories s) (customization s) = Some (lockedGroups s) /\
  forall n, lockedGroups s !! n
            = match suppression_list (categories s) (customization s) n with
              | [] => None
              | l => Some l
              end.
Proof.
  apply (@ui_map_current Sample.styles Session.palette_id Session.cap_off).
  - repeat constructor.
  - repeat constructor; by_compute.
Defined.

(** A session on a catalog with a category named "__proto__": the click on
    a color of that category defines an own property with the Halo, which
    locks Head, and the suppression map is not recomputed. *)
Example session_proto_stale :
  let s := store (Session.run Session.halo_green) in
  JSObj.keys (customization s) = ["Head"; "__proto__"] /\
  lockedGroups s = ∅ /\
  compute_lockedGroups (categories s) (customization s)
  = Some {[ "Head" := [{| lock_name := "Halo"; lock_categoryName := "__proto__" |}] ]}.
Proof. vm_compute. done. Qed.

(** ** The order of the keys *)

Lemma keys_add_cong {V W : Type} (k : string) (v : V) (w : W)
    (o : JSObj.t V) (o' : JSObj.t W) :
  JSObj.keys o = JSObj.keys o' ->
  JSObj.keys (JSObj.add k v o) = JSObj.keys (JSObj.add k w o').
Proof.
  revert o'. induction o as [|[k0 v0] o IH]; intros [|[k0' w0] o'] Hk; simpl in *;
    try done.
  injection Hk as <- Hk. destruct (JSObj.key_precedes k0 k); simpl.
  - f_equal. by apply IH.
  - by rewrite Hk.
Qed.

Lemma has_keys_cong {V W : Type} (k : string) (o : JSObj.t V) (o' : JSObj.t W) :
  JSObj.keys o = JSObj.keys o' -> JSObj.has k o = JSObj.has k o'.
Proof.
  intros Hk. destruct (JSObj.has k o) eqn:E, (JSObj.has k o') eqn:E'; try done.
  - apply has_true in E. rewrite Hk in E. apply has_true in E. congruence.
  - apply has_true in E'. rewrite <- Hk in E'. apply has_true in E'. congruence.
Qed.

Lemma keys_set_cong {V W : Type} (k : string) (v : V) (w : W)
    (o : JSObj.t V) (o' : JSObj.t W) :
  JSObj.keys o = JSObj.keys o' ->
  JSObj.keys (JSObj.set k v o) = JSObj.keys (JSObj.set k w o').
Proof.
  intros Hk. unfold JSObj.set. rewrite <- (has_keys_cong k o o' Hk).
  destruct (JSObj.has k o).
  - by rewrite !keys_replace.
  - by apply keys_add_cong.
Qed.

Lemma keys_assign_entry_cong (k : string) (v w : Selection) (o o' : CustObj) :
  JSObj.keys (fst o) = JSObj.keys (fst o') ->
  JSObj.keys (fst (assign_entry k v o)) = JSObj.keys (fst (assign_entry k w o')).
Proof.
  intros Hk. unfold assign_entry. rewrite <- (has_keys_cong k (fst o) (fst o') Hk).
  destruct (bool_decide (k = "__proto__") && negb (JSObj.has k (fst o))); simpl;
    [done | by apply keys_set_cong].
Qed.

Lemma keys_seed_selection_assign (o : CustObj) (c : Category.t) (sel : Selection) :
  JSObj.keys (fst (seed_selection o c))
  = JSObj.keys (fst (assign_entry (Category.name c) sel o)).
Proof.
  unfold seed_selection. destruct (decide (Category.startingAsset c = "")).
  - by apply keys_assign_entry_cong.
  - rewrite keys_assign_asset. by apply keys_assign_entry_cong.
Qed.

Section KeyOrder.
Context `{Three}.

Lemma keys_randomize_loop_seed (rnd : nat -> Float01) (cats : list Category.t)
    (o o' : CustObj) (sk : SkinColor) (n : nat) :
  JSObj.keys (fst o) = JSObj.keys (fst o') ->
  JSObj.keys (fst (fst (fst (randomize_loop rnd cats (o, sk, n)))))
  = JSObj.keys (fst (foldl seed_selection o' cats)).
Proof.
  revert o o' sk n. induction cats as [|c cats IH]; intros o o' sk n Hk; [done|].
  rewrite randomize_loop_cons, randomize_category_spec. simpl. apply IH.
  rewrite (keys_seed_selection_assign o' c (random_selection rnd n c)).
  by apply keys_assign_entry_cong.
Qed.

(** X18. [randomize] keeps the keys of [customization] and their order:
    on a store whose categories are those of a load, the keys after
    [randomize] are, in the same order, the keys after that load, so
    neither the order in which the avatar walks the entries nor the order
    of the entries of a suppression list changes. *)
Theorem randomize_keeps_keys (rnd : nat -> Float01) (s s0 : Store)
    (fc : list Category.t) (fa : list Asset.t) :
  categories s = map (attach_assets fa) fc ->
  JSObj.keys (customization (fst (randomize rnd s)))
  = JSObj.keys (customization (fst (fetchCategories fc fa s0))).
Proof.
  intros Hc. rewrite randomize_customization, fetchCategories_customization, Hc.
  by apply keys_randomize_loop_seed.
Qed.
End KeyOrder.

Lemma randomize_keeps_keys_witness :
  JSObj.keys (customization
                (fst (@randomize Sample.styles (fun _ => Sample.two_fifths) Sample.wardrobe)))
  = JSObj.keys (customization (fst (fetchCategories
      [Sample.head; Sample.hat; Sample.top; Sample.glasses] Sample.wardrobe_assets
      initial_store))).
Proof.
  apply (@randomize_keeps_keys Sample.styles (fun _ => Sample.two_fifths) Sample.wardrobe
           initial_store
           [Sample.head; Sample.hat; Sample.top; Sample.glasses] Sample.wardrobe_assets).
  vm_compute. reflexivity.
Defined.
